(** * NEXO event matching engine

    A shallow embedding of [matching_algorithm.py] (class
    [NEXOEventMatcher]) together with the weight configuration step and
    the schedule table of [app.py], and the properties of the scorer, the
    match generator, the scheduler, the statistics aggregator and the CSV
    export.

    Conventions of the embedding.
    - A participant dictionary is a record.  Keys read with [d['k']]
      ([id], [name]) are plain fields; keys read with [d.get('k', dflt)]
      are [option] fields, [None] standing for an absent key.
    - Python [int] is [Z]; [len] results are [nat], injected in [Z] where
      the code computes with them.
    - Python [float] is modelled by the exact rationals [Q]: sums, products
      and quotients are the real ones, without binary64 rounding.  The
      weighted sum is also given over binary64 ([weighted_percent_binary64])
      to evaluate the scorer's arithmetic as the interpreter does at the
      inputs where a bound is reached.
    - A Python [set] of tags is a [gset string]; a [dict] is a [gmap].
    - Iterating over a Python [set] visits its elements in an order the
      language leaves open.  That order is a parameter of the generator
      ([iter_set], from the list the set is built from to the sequence
      visited); the properties below hold whatever it is.
    - Text is a [string] of bytes; the decimal text of an [int] is
      [pretty].  How Python prints a float ([str], [{:.1f}]) is a
      parameter of the operations that print one. *)

From Stdlib Require Import QArith Qminmax Qabs Lqa ZArith Sorted Permutation PrimFloat Ascii.
From stdpp Require Import gmap strings list pretty.

Local Open Scope string_scope.
Local Open Scope list_scope.

(** ** Data model *)

Module Buyer.
Record t := mk {
  id : string;
  name : string;
  company : option string;
  investment_amount : option Z;
  locations : option Z;
  facility_type : option string;
  sponsorship_tier : option string;
  interests : option (list string);
  selected_sellers : option (list string);
  region : option string;
  meeting_limit : option Z
}.
End Buyer.

Module Seller.
Record t := mk {
  id : string;
  name : string;
  company : option string;
  products : option (list string);
  selected_buyers : option (list string);
  region : option string
}.
End Seller.

Module TimeSlot.
Record t := mk {
  id : string;
  date : string;
  time : string;
  duration : Z
}.
End TimeSlot.

(** [Match.match_type]: the dataclass documents exactly three values,
    the keys of the icon table that [create_schedule] indexes with it. *)
Inductive MatchType := double_match | seller_choice | ai_suggestion.

#[global] Instance MatchType_eq_dec : EqDecision MatchType.
Proof. solve_decision. Defined.

Definition match_type_str (t : MatchType) : string :=
  match t with
  | double_match => "double_match"
  | seller_choice => "seller_choice"
  | ai_suggestion => "ai_suggestion"
  end.

Module Match.
Record t := mk {
  buyer_id : string;
  seller_id : string;
  match_type : MatchType;
  compatibility_score : Q;
  meeting_scheduled : bool;
  time_slot : option string;
  priority : Z
}.
End Match.

Module Meeting.
Record t := mk {
  buyer_id : string;
  seller_id : string;
  time_slot : string;
  date : string;
  time : string;
  duration : Z;
  match_type : MatchType;
  compatibility_score : Q;
  priority : Z
}.
End Meeting.

(** The [compatibility_weights] dictionary of the matcher. *)
Module Weights.
Record t := mk {
  interest_alignment : Q;
  investment_factor : Q;
  company_size : Q;
  facility_type : Q;
  existing_client : Q
}.
End Weights.

(** The part of [self] the operations read. *)
Record NEXOEventMatcher := { compatibility_weights : Weights.t }.

(** [NEXOEventMatcher.__init__] *)
Definition init : NEXOEventMatcher :=
  {| compatibility_weights :=
       {| Weights.interest_alignment := 0.40%Q;
          Weights.investment_factor := 0.25%Q;
          Weights.company_size := 0.20%Q;
          Weights.facility_type := 0.10%Q;
          Weights.existing_client := 0.05%Q |} |}.

(** ** Compatibility scorer *)

Definition has_tag (tag : string) (tags : list string) : bool :=
  bool_decide (tag ∈ tags).

Definition interest_score (buyer : Buyer.t) (seller : Seller.t) : Q :=
  let buyer_interests : gset string := list_to_set (default [] (Buyer.interests buyer)) in
  let seller_products : gset string := list_to_set (default [] (Seller.products seller)) in
  let interest_overlap := size (buyer_interests ∩ seller_products) in
  let max_interests := ((size buyer_interests `max` size seller_products) `max` 1)%nat in
  (inject_Z (Z.of_nat interest_overlap) / inject_Z (Z.of_nat max_interests))%Q.

Definition investment_score (buyer : Buyer.t) : Q :=
  let investment := default 0%Z (Buyer.investment_amount buyer) in
  if (100000000 <=? investment)%Z then 1.0%Q
  else if (50000000 <=? investment)%Z then 0.8%Q
  else if (10000000 <=? investment)%Z then 0.6%Q
  else if (1000000 <=? investment)%Z then 0.4%Q
  else 0.2%Q.

Definition size_score (buyer : Buyer.t) : Q :=
  let locations := default 1%Z (Buyer.locations buyer) in
  if (5 <=? locations)%Z then 1.0%Q
  else if (3 <=? locations)%Z then 0.8%Q
  else if (2 <=? locations)%Z then 0.6%Q
  else 0.4%Q.

Definition facility_score (buyer : Buyer.t) (seller : Seller.t) : Q :=
  let products := default [] (Seller.products seller) in
  let facility := Buyer.facility_type buyer in
  if bool_decide (facility ∈ [Some "Gym Chain"; Some "Premium Gym"]) then
    if has_tag "Equipment" products then 1.0%Q else 0.5%Q
  else if bool_decide (facility ∈ [Some "Wellness Center"; Some "Corporate Wellness"]) then
    if has_tag "Wellness" products then 1.0%Q else 0.5%Q
  else if bool_decide (facility = Some "Boutique Studio") then
    if has_tag "Technology" products then 1.0%Q else 0.5%Q
  else 0.5%Q.

(** The weighted sum before the conversion to a percentage. *)
Definition weighted_sum (w : Weights.t) (buyer : Buyer.t) (seller : Seller.t) : Q :=
  let score := 0.0%Q in
  let score := (score + interest_score buyer seller * Weights.interest_alignment w)%Q in
  let score := (score + investment_score buyer * Weights.investment_factor w)%Q in
  let score := (score + size_score buyer * Weights.company_size w)%Q in
  let score := (score + facility_score buyer seller * Weights.facility_type w)%Q in
  let score := (score + 0.5 * Weights.existing_client w)%Q in
  score.

Definition calculate_compatibility_score (self : NEXOEventMatcher)
    (buyer : Buyer.t) (seller : Seller.t) : Q :=
  Qmin (weighted_sum (compatibility_weights self) buyer seller * 100)%Q 100%Q.

(** The same sum and [score * 100] in binary64, under the default
    weights, from the four sub-scores. *)
#[warnings="-inexact-float"]
Definition weighted_percent_binary64 (interest investment size facility : float) : float :=
  let score := 0.0%float in
  let score := (score + interest * 0.40)%float in
  let score := (score + investment * 0.25)%float in
  let score := (score + size * 0.20)%float in
  let score := (score + facility * 0.10)%float in
  let score := (score + 0.5 * 0.05)%float in
  (score * 100)%float.

(** ** Exceptions *)

Inductive exn := ZeroDivisionError.

Inductive result (A : Type) :=
  | Ok (a : A)
  | Raise (e : exn).
Arguments Ok {A} a.
Arguments Raise {A} e.

#[global] Instance result_ret : MRet result := λ A a, Ok a.
#[global] Instance result_bind : MBind result := λ A B f r,
  match r with
  | Ok a => f a
  | Raise e => Raise e
  end.

(** [a / b] on two [int]s: true division, which raises on a zero divisor. *)
Definition true_div (a b : nat) : result Q :=
  if bool_decide (b = 0%nat) then Raise ZeroDivisionError
  else Ok (inject_Z (Z.of_nat a) / inject_Z (Z.of_nat b))%Q.

(** ** Stable sorting

    [list.sort] and [sorted] are stable; for a total preorder the result
    of a stable sort is unique, so insertion from the right computes it.
    [le x y] says that [x] may stay in front of [y]. *)

Fixpoint insert_sorted {A} (le : A → A → bool) (x : A) (l : list A) : list A :=
  match l with
  | [] => [x]
  | y :: l' => if le x y then x :: y :: l' else y :: insert_sorted le x l'
  end.

Definition stable_sort {A} (le : A → A → bool) (l : list A) : list A :=
  foldr (insert_sorted le) [] l.

(** ** Match generator *)

(** The two variables [find_matches] updates: [all_matches] and the
    dictionary [buyer_meetings]. *)
Record GenState := {
  all_matches : list Match.t;
  buyer_meetings : gmap string (list Match.t)
}.

(** [all_matches.append(match); buyer_meetings[match.buyer_id].append(match)].
    The key is always present ([gen_inv] below: the keys are the buyer
    identifiers, and every match is made for a buyer of the input), so the
    subscript never raises [KeyError]. *)
Definition append_match (st : GenState) (m : Match.t) : GenState :=
  {| all_matches := all_matches st ++ [m];
     buyer_meetings := alter (λ l, l ++ [m]) (Match.buyer_id m) (buyer_meetings st) |}.

Definition count_type (t : MatchType) (ms : list Match.t) : nat :=
  length (filter (λ m, Match.match_type m = t) ms).

(** The summary printed before returning: the three percentages are
    evaluated in turn. *)
Definition print_summary (all : list Match.t) : result unit :=
  let double_matches := count_type double_match all in
  let seller_choices := count_type seller_choice all in
  let ai_suggestions := count_type ai_suggestion all in
  let total := length all in
  _ ← true_div double_matches total;
  _ ← true_div seller_choices total;
  _ ← true_div ai_suggestions total;
  mret tt.

Section Generator.

Variable iter_set : list string → list string.
Variable self : NEXOEventMatcher.

(** Step 1, body of the inner loop. *)
Definition double_match_step (buyer : Buyer.t) (st : GenState) (seller : Seller.t) : GenState :=
  let buyer_selections := default [] (Buyer.selected_sellers buyer) in
  let seller_selections := default [] (Seller.selected_buyers seller) in
  if bool_decide (Buyer.id buyer ∈ seller_selections)
     && bool_decide (Seller.id seller ∈ buyer_selections)
  then
    let compatibility := calculate_compatibility_score self buyer seller in
    append_match st
      {| Match.buyer_id := Buyer.id buyer;
         Match.seller_id := Seller.id seller;
         Match.match_type := double_match;
         Match.compatibility_score := compatibility;
         Match.meeting_scheduled := false;
         Match.time_slot := None;
         Match.priority := 1 |}
  else st.

Definition process_double_matches (buyers : list Buyer.t) (sellers : list Seller.t)
    (st : GenState) : GenState :=
  foldl (λ st buyer, foldl (double_match_step buyer) st sellers) st buyers.

(** Step 2, body of the inner loop. *)
Definition seller_choice_step (buyers : list Buyer.t) (seller : Seller.t)
    (st : GenState) (buyer_id : string) : GenState :=
  match List.find (λ b, bool_decide (Buyer.id b = buyer_id)) buyers with
  | None => st
  | Some buyer =>
    let meetings := buyer_meetings st !!! buyer_id in
    let existing_match :=
      existsb (λ m, bool_decide (Match.buyer_id m = buyer_id)
                    && bool_decide (Match.seller_id m = Seller.id seller)) meetings in
    if existing_match then st
    else if bool_decide (length meetings < 5)%nat then
      let compatibility := calculate_compatibility_score self buyer seller in
      append_match st
        {| Match.buyer_id := buyer_id;
           Match.seller_id := Seller.id seller;
           Match.match_type := seller_choice;
           Match.compatibility_score := compatibility;
           Match.meeting_scheduled := false;
           Match.time_slot := None;
           Match.priority := 2 |}
    else st
  end.

Definition process_seller_choices (buyers : list Buyer.t) (sellers : list Seller.t)
    (st : GenState) : GenState :=
  foldl (λ st seller,
           let seller_selections := iter_set (default [] (Seller.selected_buyers seller)) in
           foldl (seller_choice_step buyers seller) st seller_selections)
        st sellers.

(** Step 3: the sellers proposed to one buyer, best score first. *)
Definition ai_candidates (sellers : list Seller.t) (st : GenState) (buyer : Buyer.t)
    : list (Seller.t * Q) :=
  let buyer_id := Buyer.id buyer in
  let current_meetings := length (buyer_meetings st !!! buyer_id) in
  let needed_meetings := (5 - current_meetings)%nat in
  let matched_seller_ids : gset string :=
    list_to_set (Match.seller_id <$> buyer_meetings st !!! buyer_id) in
  let available_sellers := filter (λ s, Seller.id s ∉ matched_seller_ids) sellers in
  let compatibility_scores :=
    (λ seller, (seller, calculate_compatibility_score self buyer seller)) <$> available_sellers in
  let compatibility_scores :=
    stable_sort (λ x y, Qle_bool (snd y) (snd x)) compatibility_scores in
  take needed_meetings compatibility_scores.

Definition ai_match (buyer : Buyer.t) (st : GenState) (c : Seller.t * Q) : GenState :=
  append_match st
    {| Match.buyer_id := Buyer.id buyer;
       Match.seller_id := Seller.id (fst c);
       Match.match_type := ai_suggestion;
       Match.compatibility_score := snd c;
       Match.meeting_scheduled := false;
       Match.time_slot := None;
       Match.priority := 3 |}.

Definition ai_step (sellers : list Seller.t) (st : GenState) (buyer : Buyer.t) : GenState :=
  let current_meetings := length (buyer_meetings st !!! Buyer.id buyer) in
  if bool_decide (current_meetings < 5)%nat then
    foldl (ai_match buyer) st (ai_candidates sellers st buyer)
  else st.

Definition process_ai_suggestions (buyers : list Buyer.t) (sellers : list Seller.t)
    (st : GenState) : GenState :=
  foldl (ai_step sellers) st buyers.

(** [{buyer['id']: [] for buyer in buyers}] *)
Definition init_buyer_meetings (buyers : list Buyer.t) : gmap string (list Match.t) :=
  foldl (λ d buyer, <[Buyer.id buyer := []]> d) ∅ buyers.

(** The three passes, before the summary. *)
Definition generate (buyers : list Buyer.t) (sellers : list Seller.t) : GenState :=
  let st := {| all_matches := []; buyer_meetings := init_buyer_meetings buyers |} in
  let st := process_double_matches buyers sellers st in
  let st := process_seller_choices buyers sellers st in
  let st := process_ai_suggestions buyers sellers st in
  st.

Definition find_matches (buyers : list Buyer.t) (sellers : list Seller.t)
    : result (list Match.t) :=
  let st := generate buyers sellers in
  _ ← print_summary (all_matches st);
  mret (all_matches st).

End Generator.

(** Number of matches of [ms] that reference the buyer [b]. *)
Definition matches_of_buyer (b : string) (ms : list Match.t) : nat :=
  length (filter (λ m, Match.buyer_id m = b) ms).

Definition pair_of (m : Match.t) : string * string :=
  (Match.buyer_id m, Match.seller_id m).

(** ** Scheduler *)

(** The key of [sorted(matches, key=lambda x: (x.priority, -x.compatibility_score))] *)
Definition sort_key (m : Match.t) : Z * Q :=
  (Match.priority m, (- Match.compatibility_score m)%Q).

(** Tuple comparison: [k1] is not after [k2]. *)
Definition key_le (k1 k2 : Z * Q) : bool :=
  (k1.1 <? k2.1)%Z || ((k1.1 =? k2.1)%Z && Qle_bool k1.2 k2.2).

Definition match_le (x y : Match.t) : bool := key_le (sort_key x) (sort_key y).

(** The variables [create_schedule] updates.  [processed] holds the
    [Match] objects visited so far, in the order of the visit, with the
    two fields the scheduler assigns; each entry of the match list is an
    object of its own, as [find_matches] builds them. *)
Record SchedState := {
  scheduled_meetings : list Meeting.t;
  buyer_schedule : gmap string (list string);
  seller_schedule : gmap string (list string);
  processed : list Match.t
}.

Definition slot_available (st : SchedState) (m : Match.t) (time_slot : TimeSlot.t) : bool :=
  let slot_id := TimeSlot.id time_slot in
  let buyer_available :=
    bool_decide (slot_id ∉ default [] (buyer_schedule st !! Match.buyer_id m)) in
  let seller_available :=
    bool_decide (slot_id ∉ default [] (seller_schedule st !! Match.seller_id m)) in
  buyer_available && seller_available.

Definition mark_scheduled (m : Match.t) (slot_id : string) : Match.t :=
  {| Match.buyer_id := Match.buyer_id m;
     Match.seller_id := Match.seller_id m;
     Match.match_type := Match.match_type m;
     Match.compatibility_score := Match.compatibility_score m;
     Match.meeting_scheduled := true;
     Match.time_slot := Some slot_id;
     Match.priority := Match.priority m |}.

Definition meeting_of (m : Match.t) (time_slot : TimeSlot.t) : Meeting.t :=
  {| Meeting.buyer_id := Match.buyer_id m;
     Meeting.seller_id := Match.seller_id m;
     Meeting.time_slot := TimeSlot.id time_slot;
     Meeting.date := TimeSlot.date time_slot;
     Meeting.time := TimeSlot.time time_slot;
     Meeting.duration := TimeSlot.duration time_slot;
     Meeting.match_type := Match.match_type m;
     Meeting.compatibility_score := Match.compatibility_score m;
     Meeting.priority := Match.priority m |}.

(** The body of [if buyer_available and seller_available:]. *)
Definition book (st : SchedState) (m : Match.t) (time_slot : TimeSlot.t) : SchedState :=
  let buyer_id := Match.buyer_id m in
  let seller_id := Match.seller_id m in
  let slot_id := TimeSlot.id time_slot in
  {| scheduled_meetings := scheduled_meetings st ++ [meeting_of m time_slot];
     buyer_schedule :=
       <[buyer_id := default [] (buyer_schedule st !! buyer_id) ++ [slot_id]]> (buyer_schedule st);
     seller_schedule :=
       <[seller_id := default [] (seller_schedule st !! seller_id) ++ [slot_id]]> (seller_schedule st);
     processed := processed st ++ [mark_scheduled m slot_id] |}.

(** One iteration of [for match in sorted_matches]: the inner loop stops
    at the first slot that passes the test. *)
Definition schedule_match (time_slots : list TimeSlot.t) (st : SchedState) (m : Match.t)
    : SchedState :=
  match List.find (slot_available st m) time_slots with
  | Some time_slot => book st m time_slot
  | None =>
    {| scheduled_meetings := scheduled_meetings st;
       buyer_schedule := buyer_schedule st;
       seller_schedule := seller_schedule st;
       processed := processed st ++ [m] |}
  end.

Definition sched_init : SchedState :=
  {| scheduled_meetings := []; buyer_schedule := ∅; seller_schedule := ∅; processed := [] |}.

Definition run_schedule (matches : list Match.t) (time_slots : list TimeSlot.t) : SchedState :=
  let sorted_matches := stable_sort match_le matches in
  foldl (schedule_match time_slots) sched_init sorted_matches.

(** [buyers] and [sellers] only supply names to the log lines. *)
Definition create_schedule (matches : list Match.t) (buyers : list Buyer.t)
    (sellers : list Seller.t) (time_slots : list TimeSlot.t) : list Meeting.t :=
  scheduled_meetings (run_schedule matches time_slots).

(** ** Statistics aggregator *)

(** Nearest integer, ties to the even one. *)
Definition round_half_even (x : Q) : Z :=
  let n := Qnum x in
  let d := Zpos (Qden x) in
  let f := (n / d)%Z in
  let r := (n mod d)%Z in
  if (2 * r <? d)%Z then f
  else if (d <? 2 * r)%Z then (f + 1)%Z
  else if Z.even f then f else (f + 1)%Z.

(** [round(x, 2)] *)
Definition round2 (x : Q) : Q := round_half_even (x * 100)%Q # 100.

Module Stats.
Record t := mk {
  total_matches : Z;
  scheduled_meetings : Z;
  unscheduled_matches : Z;
  scheduling_efficiency : Q;
  average_compatibility : Q;
  match_type_distribution : gmap string Z;
  priority_distribution : gmap string Z;
  unique_buyers_matched : nat;
  unique_sellers_matched : nat
}.
End Stats.

(** The two shapes of the returned dictionary. *)
Inductive StatsResult :=
  | StatsError (error : string)
  | StatsOk (stats : Stats.t).

(** [d[k] = d.get(k, 0) + 1] *)
Definition bump (d : gmap string Z) (k : string) : gmap string Z :=
  <[k := (default 0 (d !! k) + 1)%Z]> d.

Definition get_matching_statistics (matches : list Match.t)
    (meetings : list Meeting.t) : StatsResult :=
  match matches with
  | [] => StatsError "No matches found"
  | _ :: _ =>
    let match_types :=
      foldl (λ d m, bump d (match_type_str (Match.match_type m))) ∅ matches in
    let compatibility_scores := Match.compatibility_score <$> matches in
    let avg_compatibility :=
      (foldl Qplus 0 compatibility_scores
       / inject_Z (Z.of_nat (length compatibility_scores)))%Q in
    let scheduled_count := Z.of_nat (length meetings) in
    let total_matches := Z.of_nat (length matches) in
    let scheduling_efficiency :=
      if (0 <? total_matches)%Z
      then (inject_Z scheduled_count / inject_Z total_matches * 100)%Q
      else 0%Q in
    let priority_dist :=
      foldl (λ d m, bump d ("Priority " +:+ pretty (Match.priority m))) ∅ matches in
    StatsOk
      {| Stats.total_matches := total_matches;
         Stats.scheduled_meetings := scheduled_count;
         Stats.unscheduled_matches := total_matches - scheduled_count;
         Stats.scheduling_efficiency := round2 scheduling_efficiency;
         Stats.average_compatibility := round2 avg_compatibility;
         Stats.match_type_distribution := match_types;
         Stats.priority_distribution := priority_dist;
         Stats.unique_buyers_matched :=
           size (list_to_set (Match.buyer_id <$> matches) : gset string);
         Stats.unique_sellers_matched :=
           size (list_to_set (Match.seller_id <$> matches) : gset string) |}
  end.

(** ** CSV export *)

(** [str.replace(old, new)] for one-character [old] and [new]. *)
Fixpoint replace_char (old new : ascii) (s : string) : string :=
  match s with
  | EmptyString => EmptyString
  | String a s' => String (if Ascii.eqb a old then new else a) (replace_char old new s')
  end.

Definition is_upper (a : ascii) : bool :=
  let n := nat_of_ascii a in (65 <=? n)%nat && (n <=? 90)%nat.

Definition is_lower (a : ascii) : bool :=
  let n := nat_of_ascii a in (97 <=? n)%nat && (n <=? 122)%nat.

Definition to_upper (a : ascii) : ascii :=
  if is_lower a then ascii_of_nat (nat_of_ascii a - 32) else a.

Definition to_lower (a : ascii) : ascii :=
  if is_upper a then ascii_of_nat (nat_of_ascii a + 32) else a.

(** [str.title()] on ASCII text, as CPython computes it: a character that
    follows a letter is lowercased, any other is uppercased. *)
Fixpoint title_from (previous_is_cased : bool) (s : string) : string :=
  match s with
  | EmptyString => EmptyString
  | String a s' =>
    String (if previous_is_cased then to_lower a else to_upper a)
           (title_from (is_upper a || is_lower a) s')
  end.

Definition title (s : string) : string := title_from false s.

(** The one-character string ['\n']. *)
Definition newline : string := String "010"%char "".

Definition csv_header : string :=
  "Date,Time,Buyer,Buyer Company,Seller,Seller Company,Match Type,Compatibility Score,Priority".

Section CsvExport.

(** [str(round(x, 1))].  The text depends on whether the score is the
    float [score * 100] or the integer [100] of the cap, which print as
    [100.0] and [100]; the rational score does not tell them apart, so
    the rendering is left open. *)
Variable render_score : Q → string.

(** [{buyer['id']: buyer for buyer in buyers}] *)
Definition buyer_dict (buyers : list Buyer.t) : gmap string Buyer.t :=
  foldl (λ d buyer, <[Buyer.id buyer := buyer]> d) ∅ buyers.

Definition seller_dict (sellers : list Seller.t) : gmap string Seller.t :=
  foldl (λ d seller, <[Seller.id seller := seller]> d) ∅ sellers.

(** The list [row] of one meeting.  [None] stands for the empty
    dictionary that [buyer_dict.get(..., {})] falls back to; a record
    always carries [name], so ['Unknown'] replaces a name only then. *)
Definition csv_row (buyer_dict : gmap string Buyer.t) (seller_dict : gmap string Seller.t)
    (meeting : Meeting.t) : list string :=
  let buyer := buyer_dict !! Meeting.buyer_id meeting in
  let seller := seller_dict !! Meeting.seller_id meeting in
  [ Meeting.date meeting;
    Meeting.time meeting;
    from_option Buyer.name "Unknown" buyer;
    default "Unknown" (buyer ≫= Buyer.company);
    from_option Seller.name "Unknown" seller;
    default "Unknown" (seller ≫= Seller.company);
    title (replace_char "_" " " (match_type_str (Meeting.match_type meeting)));
    render_score (Meeting.compatibility_score meeting);
    pretty (Meeting.priority meeting) ].

Definition export_schedule_csv (scheduled_meetings : list Meeting.t)
    (buyers : list Buyer.t) (sellers : list Seller.t) : string :=
  match scheduled_meetings with
  | [] => "No meetings scheduled"
  | _ :: _ =>
    let buyer_dict := buyer_dict buyers in
    let seller_dict := seller_dict sellers in
    let csv_data := [csv_header] in
    let csv_data :=
      foldl (λ csv_data meeting,
               csv_data ++ [String.concat "," (csv_row buyer_dict seller_dict meeting)])
            csv_data scheduled_meetings in
    String.concat newline csv_data
  end.

End CsvExport.

(** ** Weight configuration of the dashboard ([show_generate_matches]) *)

Definition total_weight (w : Weights.t) : Q :=
  (Weights.interest_alignment w + Weights.investment_factor w + Weights.company_size w
   + Weights.facility_type w + Weights.existing_client w)%Q.

(** The slider values divided by their total. *)
Definition normalized (w : Weights.t) : Weights.t :=
  let total := total_weight w in
  {| Weights.interest_alignment := (Weights.interest_alignment w / total)%Q;
     Weights.investment_factor := (Weights.investment_factor w / total)%Q;
     Weights.company_size := (Weights.company_size w / total)%Q;
     Weights.facility_type := (Weights.facility_type w / total)%Q;
     Weights.existing_client := (Weights.existing_client w / total)%Q |}.

(** [matcher = NEXOEventMatcher()] followed by the guarded assignment
    of [matcher.compatibility_weights]. *)
Definition configure_matcher (sliders : Weights.t) : NEXOEventMatcher :=
  let matcher := init in
  if Qlt_le_dec 0 (total_weight sliders)
  then {| compatibility_weights := normalized sliders |}
  else matcher.

(** ** The schedule table of the dashboard ([show_match_results]) *)

(** One entry of [schedule_data]. *)
Module ScheduleRow.
Record t := mk {
  date : string;
  time : string;
  buyer : string;
  buyer_company : string;
  seller : string;
  seller_company : string;
  match_type : string;
  compatibility : string;
  priority : Z
}.
End ScheduleRow.

Section ScheduleTable.

(** The f-string [{x:.1f}%]: the score with one decimal and a percent
    sign, as Python formats a float. *)
Variable format_percent : Q → string.

(** The entry appended for one meeting; [buyers] and [sellers] stand for
    [NEXO_BUYERS] and [NEXO_SELLERS], and [None] for the empty dictionary
    that [next(..., {})] falls back to. *)
Definition schedule_row (buyers : list Buyer.t) (sellers : list Seller.t)
    (meeting : Meeting.t) : ScheduleRow.t :=
  let buyer_info :=
    List.find (λ b, bool_decide (Buyer.id b = Meeting.buyer_id meeting)) buyers in
  let seller_info :=
    List.find (λ s, bool_decide (Seller.id s = Meeting.seller_id meeting)) sellers in
  {| ScheduleRow.date := Meeting.date meeting;
     ScheduleRow.time := Meeting.time meeting;
     ScheduleRow.buyer := from_option Buyer.name "Unknown" buyer_info;
     ScheduleRow.buyer_company := default "Unknown" (buyer_info ≫= Buyer.company);
     ScheduleRow.seller := from_option Seller.name "Unknown" seller_info;
     ScheduleRow.seller_company := default "Unknown" (seller_info ≫= Seller.company);
     ScheduleRow.match_type :=
       title (replace_char "_" " " (match_type_str (Meeting.match_type meeting)));
     ScheduleRow.compatibility := format_percent (Meeting.compatibility_score meeting);
     ScheduleRow.priority := Meeting.priority meeting |}.

Definition schedule_data (buyers : list Buyer.t) (sellers : list Seller.t)
    (scheduled_meetings : list Meeting.t) : list ScheduleRow.t :=
  foldl (λ schedule_data meeting, schedule_data ++ [schedule_row buyers sellers meeting])
        [] scheduled_meetings.

End ScheduleTable.

(** ** The scheduler in the words of its specification

    The same policy stated over the meeting list alone: a participant
    holds a slot when a meeting already placed names both; matches are
    taken in the given order and each goes to the first slot that neither
    side holds, or is passed over. *)

Definition buyer_holds (meetings : list Meeting.t) (buyer_id slot_id : string) : bool :=
  existsb (λ mt, bool_decide (Meeting.buyer_id mt = buyer_id)
                 && bool_decide (Meeting.time_slot mt = slot_id)) meetings.

Definition seller_holds (meetings : list Meeting.t) (seller_id slot_id : string) : bool :=
  existsb (λ mt, bool_decide (Meeting.seller_id mt = seller_id)
                 && bool_decide (Meeting.time_slot mt = slot_id)) meetings.

Definition slot_free (meetings : list Meeting.t) (m : Match.t) (time_slot : TimeSlot.t) : bool :=
  negb (buyer_holds meetings (Match.buyer_id m) (TimeSlot.id time_slot))
  && negb (seller_holds meetings (Match.seller_id m) (TimeSlot.id time_slot)).

(** Returns the meetings placed and the matches as they are left. *)
Fixpoint greedy_first_fit (time_slots : list TimeSlot.t) (meetings : list Meeting.t)
    (ordered : list Match.t) : list Meeting.t * list Match.t :=
  match ordered with
  | [] => (meetings, [])
  | m :: rest =>
    match List.find (slot_free meetings m) time_slots with
    | Some time_slot =>
      let '(placed, marks) :=
        greedy_first_fit time_slots (meetings ++ [meeting_of m time_slot]) rest in
      (placed, mark_scheduled m (TimeSlot.id time_slot) :: marks)
    | None =>
      let '(placed, marks) := greedy_first_fit time_slots meetings rest in
      (placed, m :: marks)
    end
  end.

(** Priority ascending, then compatibility score descending. *)
Definition ranks_before (x y : Match.t) : Prop :=
  (Match.priority x < Match.priority y)%Z
  ∨ (Match.priority x = Match.priority y
     ∧ (Match.compatibility_score y <= Match.compatibility_score x)%Q).

(** The two schedule dictionaries record exactly the slots held in the
    meeting list. *)
Definition sched_inv (st : SchedState) : Prop :=
  (∀ b s, s ∈ default [] (buyer_schedule st !! b)
          ↔ buyer_holds (scheduled_meetings st) b s = true)
  ∧ (∀ k s, s ∈ default [] (seller_schedule st !! k)
            ↔ seller_holds (scheduled_meetings st) k s = true).

(** No slot is held twice by one buyer, nor twice by one seller. *)
Definition conflict_free (meetings : list Meeting.t) : Prop :=
  NoDup ((λ mt, (Meeting.time_slot mt, Meeting.buyer_id mt)) <$> meetings)
  ∧ NoDup ((λ mt, (Meeting.time_slot mt, Meeting.seller_id mt)) <$> meetings).

(** What the generator keeps true of its two variables: no pair is
    matched twice, [buyer_meetings] lists for each buyer the matches of
    [all_matches] that name it, its keys are the buyer identifiers, and
    every match names a buyer of the input. *)
Definition gen_inv (buyers : list Buyer.t) (st : GenState) : Prop :=
  NoDup (pair_of <$> all_matches st)
  ∧ (∀ k, buyer_meetings st !!! k = filter (λ m, Match.buyer_id m = k) (all_matches st))
  ∧ dom (buyer_meetings st) = list_to_set (Buyer.id <$> buyers)
  ∧ (∀ m, m ∈ all_matches st → Match.buyer_id m ∈ Buyer.id <$> buyers).

(** The test of the first pass: buyer and seller selected each other. *)
Definition mutual (buyer : Buyer.t) (seller : Seller.t) : bool :=
  bool_decide (Buyer.id buyer ∈ default [] (Seller.selected_buyers seller))
  && bool_decide (Seller.id seller ∈ default [] (Buyer.selected_sellers buyer)).

(** Number of sellers of the input in mutual selection with [buyer]. *)
Definition double_count (buyer : Buyer.t) (sellers : list Seller.t) : nat :=
  length (filter (λ seller, mutual buyer seller) sellers).

(** The count of a buyer after its turn in the third pass, from its count
    [c] before, with [n] sellers in all. *)
Definition filled (n c : nat) : nat := if bool_decide (c < 5)%nat then (5 `min` n)%nat else c.

(** Every match names a seller of the input. *)
Definition sellers_known (sellers : list Seller.t) (st : GenState) : Prop :=
  ∀ m, m ∈ all_matches st → Match.seller_id m ∈ Seller.id <$> sellers.

(** What Python guarantees of the iteration over a [set] built from the
    list [l]: every element of [l], once. *)
Definition SetOrder (iter_set : list string → list string) : Prop :=
  ∀ l, NoDup (iter_set l) ∧ ∀ x, x ∈ iter_set l ↔ x ∈ l.

(** The priority that [find_matches] gives each match type. *)
Definition priority_of (t : MatchType) : Z :=
  match t with
  | double_match => 1
  | seller_choice => 2
  | ai_suggestion => 3
  end.

(** A match as one of the three passes builds it from a buyer and a
    seller of the input. *)
Definition sound_match (self : NEXOEventMatcher) (buyers : list Buyer.t)
    (sellers : list Seller.t) (m : Match.t) : Prop :=
  Match.meeting_scheduled m = false
  ∧ Match.time_slot m = None
  ∧ Match.priority m = priority_of (Match.match_type m)
  ∧ ∃ buyer seller,
      buyer ∈ buyers ∧ seller ∈ sellers
      ∧ Match.buyer_id m = Buyer.id buyer
      ∧ Match.seller_id m = Seller.id seller
      ∧ Match.compatibility_score m = calculate_compatibility_score self buyer seller
      ∧ (Match.match_type m = double_match → mutual buyer seller = true)
      ∧ (Match.match_type m = seller_choice →
         Buyer.id buyer ∈ default [] (Seller.selected_buyers seller)).

(** Two states of the generator that hold the same dictionary and the same
    matches, possibly listed in another order. *)
Definition agree (st1 st2 : GenState) : Prop :=
  buyer_meetings st1 = buyer_meetings st2 ∧ all_matches st1 ≡ₚ all_matches st2.

(** The match that the second pass adds for [seller] and [buyer_id], from
    the matches [meetings] that the buyer has so far. *)
Definition seller_choice_of (self : NEXOEventMatcher) (buyers : list Buyer.t)
    (seller : Seller.t) (meetings : list Match.t) (buyer_id : string) : option Match.t :=
  match List.find (λ b, bool_decide (Buyer.id b = buyer_id)) buyers with
  | None => None
  | Some buyer =>
    if existsb (λ m, bool_decide (Match.buyer_id m = buyer_id)
                     && bool_decide (Match.seller_id m = Seller.id seller)) meetings
    then None
    else if bool_decide (length meetings < 5)%nat then
      Some {| Match.buyer_id := buyer_id;
              Match.seller_id := Seller.id seller;
              Match.match_type := seller_choice;
              Match.compatibility_score := calculate_compatibility_score self buyer seller;
              Match.meeting_scheduled := false;
              Match.time_slot := None;
              Match.priority := 2 |}
    else None
  end.

(** Another iteration order of the sets: last occurrence first. *)
Definition reversed_order (l : list string) : list string := reverse (remove_dups l).

(** The match that the third pass makes of a buyer and a scored seller. *)
Definition ai_record (buyer : Buyer.t) (c : Seller.t * Q) : Match.t :=
  {| Match.buyer_id := Buyer.id buyer;
     Match.seller_id := Seller.id (fst c);
     Match.match_type := ai_suggestion;
     Match.compatibility_score := snd c;
     Match.meeting_scheduled := false;
     Match.time_slot := None;
     Match.priority := 3 |}.

(** Every AI suggestion of the state scores at least as much as any
    seller left unmatched with its buyer. *)
Definition best_first (self : NEXOEventMatcher) (buyers : list Buyer.t)
    (sellers : list Seller.t) (ms : list Match.t) : Prop :=
  ∀ buyer seller m,
    buyer ∈ buyers → seller ∈ sellers → m ∈ ms →
    Match.match_type m = ai_suggestion →
    Match.buyer_id m = Buyer.id buyer →
    (Buyer.id buyer, Seller.id seller) ∉ pair_of <$> ms →
    (calculate_compatibility_score self buyer seller <= Match.compatibility_score m)%Q.

(** Buyer, seller and slot of a meeting, and of a match marked
    scheduled. *)
Definition meeting_triple (mt : Meeting.t) : string * string * string :=
  (Meeting.buyer_id mt, Meeting.seller_id mt, Meeting.time_slot mt).

Definition scheduled_triple (m : Match.t) : option (string * string * string) :=
  if Match.meeting_scheduled m
  then (λ slot_id, (Match.buyer_id m, Match.seller_id m, slot_id)) <$> Match.time_slot m
  else None.

(** Number of meetings of a buyer, and of a seller. *)
Definition buyer_load (b : string) (meetings : list Meeting.t) : nat :=
  length (filter (λ mt, Meeting.buyer_id mt = b) meetings).

Definition seller_load (k : string) (meetings : list Meeting.t) : nat :=
  length (filter (λ mt, Meeting.seller_id mt = k) meetings).

(** Number of matches of [ms] that reference the seller [k]. *)
Definition matches_of_seller (k : string) (ms : list Match.t) : nat :=
  length (filter (λ m, Match.seller_id m = k) ms).

(** The order of [ranks_before], on meetings. *)
Definition meeting_ranks_before (x y : Meeting.t) : Prop :=
  (Meeting.priority x < Meeting.priority y)%Z
  ∨ (Meeting.priority x = Meeting.priority y
     ∧ (Meeting.compatibility_score y <= Meeting.compatibility_score x)%Q).

(** Number of matches of [ms] with the priority [p]. *)
Definition count_priority (p : Z) (ms : list Match.t) : nat :=
  length (filter (λ m, Match.priority m = p) ms).

(** What a counting dictionary holds for a key that occurs [c] times. *)
Definition counted (c : nat) : option Z :=
  if decide (c = 0%nat) then None else Some (Z.of_nat c).

(** The slider values multiplied by [c]. *)
Definition scaled (c : Q) (w : Weights.t) : Weights.t :=
  {| Weights.interest_alignment := (c * Weights.interest_alignment w)%Q;
     Weights.investment_factor := (c * Weights.investment_factor w)%Q;
     Weights.company_size := (c * Weights.company_size w)%Q;
     Weights.facility_type := (c * Weights.facility_type w)%Q;
     Weights.existing_client := (c * Weights.existing_client w)%Q |}.

(** No weight is negative. *)
Definition nonneg_weights (w : Weights.t) : Prop :=
  (0 <= Weights.interest_alignment w)%Q ∧ (0 <= Weights.investment_factor w)%Q
  ∧ (0 <= Weights.company_size w)%Q ∧ (0 <= Weights.facility_type w)%Q
  ∧ (0 <= Weights.existing_client w)%Q.

(** [s.split(c)] of Python for a one-character separator. *)
Fixpoint split_on (c : ascii) (s : string) : list string :=
  match s with
  | EmptyString => [EmptyString]
  | String a s' =>
    if Ascii.eqb a c then EmptyString :: split_on c s'
    else match split_on c s' with
         | [] => [String a EmptyString]
         | w :: ws => String a w :: ws
         end
  end.

Fixpoint has_char (c : ascii) (s : string) : bool :=
  match s with
  | EmptyString => false
  | String a s' => Ascii.eqb a c || has_char c s'
  end.

(** A field that holds neither a comma nor a line break. *)
Definition plain (s : string) : Prop :=
  has_char "," s = false ∧ has_char "010" s = false.

(** Two matches that differ at most in the fields the scheduler
    assigns, [meeting_scheduled] and [time_slot]. *)
Definition same_request (m m' : Match.t) : Prop :=
  Match.buyer_id m = Match.buyer_id m'
  ∧ Match.seller_id m = Match.seller_id m'
  ∧ Match.match_type m = Match.match_type m'
  ∧ Match.compatibility_score m = Match.compatibility_score m'
  ∧ Match.priority m = Match.priority m'.

(** The columns of a table entry that the export also carries, with the
    priority as text. *)
Definition shared_columns (r : ScheduleRow.t) : list string :=
  [ ScheduleRow.date r; ScheduleRow.time r; ScheduleRow.buyer r;
    ScheduleRow.buyer_company r; ScheduleRow.seller r; ScheduleRow.seller_company r;
    ScheduleRow.match_type r; pretty (ScheduleRow.priority r) ].

(** The export's row without its score column. *)
Definition without_score (row : list string) : list string := take 7 row ++ drop 8 row.

(** ** Records used to state and instantiate the properties *)





(** A buyer and a seller with only the mandatory keys. *)
Definition bare_buyer (id : string) : Buyer.t :=
  Buyer.mk id id None None None None None None None None None.

Definition bare_seller (id : string) : Seller.t :=
  Seller.mk id id None None None None.

(** Two records of the reference data set ([buyer_001], [seller_001]),
    and the same with every field the scorer does not read changed. *)
Definition buyer_001 : Buyer.t :=
  {| Buyer.id := "buyer_001";
     Buyer.name := "Marcos Aguade";
     Buyer.company := Some "Fitness Group";
     Buyer.investment_amount := Some 140000000%Z;
     Buyer.locations := Some 1%Z;
     Buyer.facility_type := Some "Gym Chain";
     Buyer.sponsorship_tier := Some "Platinum";
     Buyer.interests := Some ["Equipment"; "Technology"; "Supplements"];
     Buyer.selected_sellers :=
       Some ["seller_001"; "seller_002"; "seller_003"; "seller_004"; "seller_005"];
     Buyer.region := Some "Latin America";
     Buyer.meeting_limit := Some 5%Z |}.

Definition buyer_001_renamed : Buyer.t :=
  {| Buyer.id := "buyer_x";
     Buyer.name := "Somebody Else";
     Buyer.company := None;
     Buyer.investment_amount := Some 140000000%Z;
     Buyer.locations := Some 1%Z;
     Buyer.facility_type := Some "Gym Chain";
     Buyer.sponsorship_tier := Some "Bronze";
     Buyer.interests := Some ["Equipment"; "Technology"; "Supplements"];
     Buyer.selected_sellers := Some [];
     Buyer.region := Some "Europe";
     Buyer.meeting_limit := None |}.

Definition seller_a : Seller.t :=
  {| Seller.id := "seller_a";
     Seller.name := "Seller A";
     Seller.company := Some "A Corp";
     Seller.products := Some ["Equipment"; "Wellness"];
     Seller.selected_buyers := Some ["buyer_001"];
     Seller.region := Some "Brazil" |}.

Definition seller_a_renamed : Seller.t :=
  {| Seller.id := "seller_b";
     Seller.name := "Seller B";
     Seller.company := None;
     Seller.products := Some ["Equipment"; "Wellness"];
     Seller.selected_buyers := None;
     Seller.region := None |}.


Definition fresh_match (buyer_id seller_id : string) (t : MatchType) (priority : Z)
    (score : Q) : Match.t :=
  {| Match.buyer_id := buyer_id;
     Match.seller_id := seller_id;
     Match.match_type := t;
     Match.compatibility_score := score;
     Match.meeting_scheduled := false;
     Match.time_slot := None;
     Match.priority := priority |}.

Definition three_matches : list Match.t :=
  [ fresh_match "buyer_001" "seller_001" double_match 1 72.5%Q;
    fresh_match "buyer_001" "seller_002" seller_choice 2 45.5%Q;
    fresh_match "buyer_002" "seller_001" ai_suggestion 3 60.5%Q ].

Definition slot_001 : TimeSlot.t :=
  {| TimeSlot.id := "slot_001"; TimeSlot.date := "2023-05-18";
     TimeSlot.time := "09:00"; TimeSlot.duration := 15 |}.

Definition slot_002 : TimeSlot.t :=
  {| TimeSlot.id := "slot_002"; TimeSlot.date := "2023-05-18";
     TimeSlot.time := "09:15"; TimeSlot.duration := 15 |}.

Definition one_meeting : list Meeting.t :=
  [ meeting_of (fresh_match "buyer_001" "seller_001" double_match 1 72.5%Q) slot_001 ].

(** One buyer who selected six sellers, each of whom selected that buyer. *)
Definition six_seller_ids : list string :=
  ["seller_001"; "seller_002"; "seller_003"; "seller_004"; "seller_005"; "seller_006"].

Definition keen_buyer : Buyer.t :=
  {| Buyer.id := "buyer_001";
     Buyer.name := "Marcos Aguade";
     Buyer.company := None;
     Buyer.investment_amount := None;
     Buyer.locations := None;
     Buyer.facility_type := None;
     Buyer.sponsorship_tier := None;
     Buyer.interests := None;
     Buyer.selected_sellers := Some six_seller_ids;
     Buyer.region := None;
     Buyer.meeting_limit := None |}.

Definition keen_seller (id : string) : Seller.t :=
  {| Seller.id := id;
     Seller.name := id;
     Seller.company := None;
     Seller.products := None;
     Seller.selected_buyers := Some ["buyer_001"];
     Seller.region := None |}.

Definition six_sellers : list Seller.t := keen_seller <$> six_seller_ids.

(** Two buyers and seven sellers on which the three passes all add
    matches. *)
Definition two_buyers : list Buyer.t := [keen_buyer; bare_buyer "buyer_002"].

Definition seven_sellers : list Seller.t :=
  six_sellers
  ++ [ {| Seller.id := "seller_007";
          Seller.name := "seller_007";
          Seller.company := None;
          Seller.products := None;
          Seller.selected_buyers := Some ["buyer_002"; "buyer_404"];
          Seller.region := None |} ].


(** A seller that selected both buyers of [two_buyers]. *)
Definition eager_seller : Seller.t :=
  {| Seller.id := "seller_008";
     Seller.name := "seller_008";
     Seller.company := None;
     Seller.products := None;
     Seller.selected_buyers := Some ["buyer_002"; "buyer_001"];
     Seller.region := None |}.

(** A buyer interested in equipment and seven sellers, three of them
    selling equipment; nobody selected anybody. *)
Definition picky_buyer : Buyer.t :=
  {| Buyer.id := "buyer_009";
     Buyer.name := "buyer_009";
     Buyer.company := None;
     Buyer.investment_amount := None;
     Buyer.locations := None;
     Buyer.facility_type := Some "Gym Chain";
     Buyer.sponsorship_tier := None;
     Buyer.interests := Some ["Equipment"];
     Buyer.selected_sellers := None;
     Buyer.region := None;
     Buyer.meeting_limit := None |}.

Definition shop (id : string) (products : list string) : Seller.t :=
  {| Seller.id := id;
     Seller.name := id;
     Seller.company := None;
     Seller.products := Some products;
     Seller.selected_buyers := None;
     Seller.region := None |}.

Definition seven_shops : list Seller.t :=
  [ shop "s1" []; shop "s2" ["Equipment"]; shop "s3" ["Software"];
    shop "s4" ["Equipment"]; shop "s5" []; shop "s6" ["Equipment"; "Wellness"];
    shop "s7" ["Nutrition"] ].

Definition slot_003 : TimeSlot.t :=
  {| TimeSlot.id := "slot_003"; TimeSlot.date := "2023-05-18";
     TimeSlot.time := "09:30"; TimeSlot.duration := 15 |}.

Definition buyer_001_starting : Buyer.t :=
  {| Buyer.id := "buyer_001";
     Buyer.name := "Marcos Aguade";
     Buyer.company := Some "Fitness Group";
     Buyer.investment_amount := Some 500000%Z;
     Buyer.locations := None;
     Buyer.facility_type := Some "Gym Chain";
     Buyer.sponsorship_tier := Some "Platinum";
     Buyer.interests := Some ["Equipment"; "Technology"; "Supplements"];
     Buyer.selected_sellers :=
       Some ["seller_001"; "seller_002"; "seller_003"; "seller_004"; "seller_005"];
     Buyer.region := Some "Latin America";
     Buyer.meeting_limit := Some 5%Z |}.

Definition comma_with_company : Seller.t :=
  {| Seller.id := "seller_001";
     Seller.name := "Seller A";
     Seller.company := Some "A Corp, Inc.";
     Seller.products := None;
     Seller.selected_buyers := None;
     Seller.region := None |}.

Definition buyer_001_twin : Buyer.t :=
  {| Buyer.id := "buyer_001";
     Buyer.name := "Second Entry";
     Buyer.company := None;
     Buyer.investment_amount := None;
     Buyer.locations := None;
     Buyer.facility_type := None;
     Buyer.sponsorship_tier := None;
     Buyer.interests := None;
     Buyer.selected_sellers := None;
     Buyer.region := None;
     Buyer.meeting_limit := None |}.

(** * Properties *)

(** ** Scorer *)

Lemma inject_nat_ratio_range (a b : nat) :
  (a ≤ b)%nat → (1 ≤ b)%nat →
  (0 <= inject_Z (Z.of_nat a) / inject_Z (Z.of_nat b) <= 1)%Q.
Proof.
  intros Hab Hb.
  assert (Hpos : (0 < inject_Z (Z.of_nat b))%Q).
  { change 0%Q with (inject_Z 0). rewrite <- Zlt_Qlt. lia. }
  split.
  - apply Qle_shift_div_l; [exact Hpos|].
    rewrite Qmult_0_l. change 0%Q with (inject_Z 0). rewrite <- Zle_Qle. lia.
  - apply Qle_shift_div_r; [exact Hpos|].
    rewrite Qmult_1_l. rewrite <- Zle_Qle. lia.
Qed.

Lemma interest_score_range buyer seller :
  (0 <= interest_score buyer seller <= 1)%Q.
Proof.
  unfold interest_score. apply inject_nat_ratio_range; [|lia].
  etrans; [apply subseteq_size, intersection_subseteq_l|]. lia.
Qed.

Lemma investment_score_range buyer : (0.2 <= investment_score buyer <= 1)%Q.
Proof.
  unfold investment_score.
  repeat case_match; split; try (compute; congruence).
Qed.

Lemma size_score_range buyer : (0.4 <= size_score buyer <= 1)%Q.
Proof.
  unfold size_score.
  repeat case_match; split; try (compute; congruence).
Qed.

Lemma facility_score_range buyer seller : (0.5 <= facility_score buyer seller <= 1)%Q.
Proof.
  unfold facility_score.
  repeat case_match; split; try (compute; congruence).
Qed.

Lemma weighted_sum_default_range buyer seller :
  (0.205 <= weighted_sum (compatibility_weights init) buyer seller <= 0.975)%Q.
Proof.
  pose proof (interest_score_range buyer seller).
  pose proof (investment_score_range buyer).
  pose proof (size_score_range buyer).
  pose proof (facility_score_range buyer seller).
  unfold weighted_sum; simpl. lra.
Qed.

(** The score under the default weights lies between 20.5 and 97.5. *)
Lemma default_score_range buyer seller :
  (20.5 <= calculate_compatibility_score init buyer seller <= 97.5)%Q.
Proof.
  pose proof (weighted_sum_default_range buyer seller) as [Hlo Hhi].
  unfold calculate_compatibility_score. split.
  - apply Q.min_glb; lra.
  - eapply Qle_trans; [apply Q.le_min_l|]. lra.
Qed.







(** C9. With the default weights the score is at least 20.5 and so never
    0: the investment, company size and facility sub-scores are at least
    0.2, 0.4 and 0.5, and the relationship term is the constant 0.5. *)
Theorem default_score_floor (buyer : Buyer.t) (seller : Seller.t) :
  (0.2 <= investment_score buyer)%Q
  ∧ (0.4 <= size_score buyer)%Q
  ∧ (0.5 <= facility_score buyer seller)%Q
  ∧ (20.5 <= calculate_compatibility_score init buyer seller)%Q
  ∧ ¬ (calculate_compatibility_score init buyer seller == 0)%Q.
Proof.
  pose proof (default_score_range buyer seller) as [Hlo _].
  repeat split.
  - apply investment_score_range.
  - apply size_score_range.
  - apply facility_score_range.
  - exact Hlo.
  - intros Heq. rewrite Heq in Hlo. revert Hlo. compute. congruence.
Qed.

(** The floor of C9 is reached by records with only the mandatory keys. *)
Example floor_reached_by_bare_records :
  (calculate_compatibility_score init (bare_buyer "b") (bare_seller "s") == 20.5)%Q.
Proof. vm_compute. reflexivity. Qed.

(** In binary64 the floor evaluates to 20.5 exactly, and the largest
    sub-scores to less than 100. *)
#[warnings="-inexact-float"]
Example floor_in_binary64 :
  (weighted_percent_binary64 0 0.2 0.4 0.5 =? 20.5)%float = true
  ∧ (weighted_percent_binary64 1 1 1 1 <? 100)%float = true.
Proof. split; reflexivity. Qed.

(** C10. The score is determined by the buyer's [interests],
    [investment_amount], [locations] and [facility_type] and by the
    seller's [products]: two runs that agree on these fields return the
    same score, whatever the other fields hold. *)
Theorem score_reads_only (self : NEXOEventMatcher)
    (buyer1 buyer2 : Buyer.t) (seller1 seller2 : Seller.t) :
  Buyer.interests buyer1 = Buyer.interests buyer2 →
  Buyer.investment_amount buyer1 = Buyer.investment_amount buyer2 →
  Buyer.locations buyer1 = Buyer.locations buyer2 →
  Buyer.facility_type buyer1 = Buyer.facility_type buyer2 →
  Seller.products seller1 = Seller.products seller2 →
  calculate_compatibility_score self buyer1 seller1
  = calculate_compatibility_score self buyer2 seller2.
Proof.
  intros Hi Hv Hl Hf Hp.
  unfold calculate_compatibility_score, weighted_sum, interest_score, facility_score,
    investment_score, size_score.
  by rewrite Hi, Hv, Hl, Hf, Hp.
Qed.

Lemma score_reads_only_witness :
  buyer_001 ≠ buyer_001_renamed ∧ seller_a ≠ seller_a_renamed
  ∧ calculate_compatibility_score init buyer_001 seller_a
    = calculate_compatibility_score init buyer_001_renamed seller_a_renamed.
Proof.
  split; [discriminate|]. split; [discriminate|].
  apply (score_reads_only init buyer_001 buyer_001_renamed seller_a seller_a_renamed);
    reflexivity.
Defined.

(** *** Custom weights *)

Lemma weighted_sum_normalized w buyer seller :
  ¬ (total_weight w == 0)%Q →
  (weighted_sum (normalized w) buyer seller == weighted_sum w buyer seller / total_weight w)%Q.
Proof.
  intros Hnz. unfold weighted_sum, normalized.
  cbn [Weights.interest_alignment Weights.investment_factor Weights.company_size
       Weights.facility_type Weights.existing_client].
  generalize (interest_score buyer seller) (investment_score buyer) (size_score buyer)
    (facility_score buyer seller); intros i v z f.
  field. exact Hnz.
Qed.





(** ** Statistics aggregator *)

Lemma round_half_even_bounds (x : Q) :
  (2 * Qnum x - Zpos (Qden x) <= 2 * Zpos (Qden x) * round_half_even x
   <= 2 * Qnum x + Zpos (Qden x))%Z.
Proof.
  unfold round_half_even.
  pose proof (Z.div_mod (Qnum x) (Zpos (Qden x)) ltac:(lia)) as Hdm.
  pose proof (Z.mod_pos_bound (Qnum x) (Zpos (Qden x)) ltac:(lia)) as Hr.
  set (d := Zpos (Qden x)) in *. set (n := Qnum x) in *.
  set (f := (n / d)%Z) in *. set (r := (n mod d)%Z) in *.
  repeat case_match; lia.
Qed.






(** ** Stable sorting *)

Section StableSort.

Context {A : Type} (le : A → A → bool) (R : A → A → Prop).
Hypothesis le_sound : ∀ x y, le x y = true → R x y.
Hypothesis le_total : ∀ x y, le x y = false → R y x.
Hypothesis R_trans : ∀ x y z, R x y → R y z → R x z.

Lemma insert_sorted_perm x l : insert_sorted le x l ≡ₚ x :: l.
Proof.
  induction l as [|y l IH]; simpl; [done|].
  destruct (le x y); [done|]. rewrite IH. apply perm_swap.
Qed.

Lemma stable_sort_perm l : stable_sort le l ≡ₚ l.
Proof.
  induction l as [|x l IH]; simpl; [done|].
  rewrite insert_sorted_perm. by constructor.
Qed.

Lemma insert_sorted_sorted x l :
  StronglySorted R l → StronglySorted R (insert_sorted le x l).
Proof.
  induction 1 as [|y l Hs IH Hy]; simpl.
  - repeat constructor.
  - destruct (le x y) eqn:Hxy.
    + constructor; [by constructor|].
      constructor; [by apply le_sound|].
      eapply Forall_impl; [exact Hy|]. intros z Hz.
      eapply R_trans; [by apply le_sound|exact Hz].
    + constructor; [exact IH|].
      rewrite insert_sorted_perm. constructor; [by apply le_total|exact Hy].
Qed.

Lemma stable_sort_sorted l : StronglySorted R (stable_sort le l).
Proof.
  induction l as [|x l IH]; simpl; [constructor|].
  by apply insert_sorted_sorted.
Qed.

End StableSort.

(** ** Scheduler *)

Lemma match_le_sound x y : match_le x y = true → ranks_before x y.
Proof.
  unfold match_le, key_le, sort_key, ranks_before; simpl.
  intros [Hlt|[Heq Hle]%andb_true_iff]%orb_true_iff.
  - left. by apply Z.ltb_lt.
  - right. apply Z.eqb_eq in Heq. apply Qle_bool_iff in Hle. split; [done|lra].
Qed.

Lemma match_le_total x y : match_le x y = false → ranks_before y x.
Proof.
  unfold match_le, key_le, sort_key, ranks_before; simpl.
  intros [Hlt Hrest]%orb_false_iff. apply Z.ltb_ge in Hlt.
  destruct (Z.eqb_spec (Match.priority x) (Match.priority y)) as [Heq|Hne]; simpl in Hrest.
  - right. split; [done|].
    destruct (Qlt_le_dec (Match.compatibility_score x) (Match.compatibility_score y))
      as [Hs|Hs]; [lra|].
    assert (Qle_bool (- Match.compatibility_score x) (- Match.compatibility_score y) = true)
      by (apply Qle_bool_iff; lra).
    congruence.
  - left. lia.
Qed.

Lemma ranks_before_trans x y z : ranks_before x y → ranks_before y z → ranks_before x z.
Proof.
  unfold ranks_before. intros [H1|[H1 H1']] [H2|[H2 H2']].
  - left; lia.
  - left; lia.
  - left; lia.
  - right. split; [lia|lra].
Qed.

Lemma sorted_matches_ranked matches :
  stable_sort match_le matches ≡ₚ matches
  ∧ StronglySorted ranks_before (stable_sort match_le matches).
Proof.
  split; [apply stable_sort_perm|].
  apply stable_sort_sorted;
    [apply match_le_sound|apply match_le_total|apply ranks_before_trans].
Qed.

Lemma find_ext_eq {A} (f g : A → bool) (l : list A) :
  (∀ x, f x = g x) → List.find f l = List.find g l.
Proof.
  intros Hfg. induction l as [|x l IH]; simpl; [done|].
  rewrite Hfg, IH. done.
Qed.

(** [List.find] returns the first element that passes the test. *)
Lemma find_first {A} (f : A → bool) (l : list A) :
  match List.find f l with
  | Some x => ∃ l1 l2, l = l1 ++ x :: l2 ∧ Forall (λ y, f y = false) l1 ∧ f x = true
  | None => Forall (λ y, f y = false) l
  end.
Proof.
  induction l as [|y l IH]; simpl; [constructor|].
  destruct (f y) eqn:Hy.
  - exists [], l. by repeat split.
  - destruct (List.find f l) as [x|].
    + destruct IH as (l1 & l2 & -> & Hl1 & Hx).
      exists (y :: l1), l2. split; [done|]. split; [by constructor|done].
    + by constructor.
Qed.

Lemma buyer_holds_snoc meetings mt b s :
  buyer_holds (meetings ++ [mt]) b s
  = buyer_holds meetings b s
    || (bool_decide (Meeting.buyer_id mt = b) && bool_decide (Meeting.time_slot mt = s)).
Proof. unfold buyer_holds. rewrite existsb_app. simpl. by rewrite orb_false_r. Qed.

Lemma seller_holds_snoc meetings mt k s :
  seller_holds (meetings ++ [mt]) k s
  = seller_holds meetings k s
    || (bool_decide (Meeting.seller_id mt = k) && bool_decide (Meeting.time_slot mt = s)).
Proof. unfold seller_holds. rewrite existsb_app. simpl. by rewrite orb_false_r. Qed.

Lemma buyer_holds_elem meetings b s :
  buyer_holds meetings b s = true
  ↔ (s, b) ∈ (λ mt, (Meeting.time_slot mt, Meeting.buyer_id mt)) <$> meetings.
Proof.
  unfold buyer_holds. rewrite existsb_exists, list_elem_of_fmap. split.
  - intros (mt & Hin & [H1 H2]%andb_true_iff).
    apply bool_decide_eq_true in H1, H2. exists mt. split; [by subst|].
    by apply list_elem_of_In.
  - intros (mt & Heq & Hin). inversion Heq; subst. exists mt.
    split; [by apply list_elem_of_In|]. by rewrite !bool_decide_eq_true_2.
Qed.

Lemma seller_holds_elem meetings k s :
  seller_holds meetings k s = true
  ↔ (s, k) ∈ (λ mt, (Meeting.time_slot mt, Meeting.seller_id mt)) <$> meetings.
Proof.
  unfold seller_holds. rewrite existsb_exists, list_elem_of_fmap. split.
  - intros (mt & Hin & [H1 H2]%andb_true_iff).
    apply bool_decide_eq_true in H1, H2. exists mt. split; [by subst|].
    by apply list_elem_of_In.
  - intros (mt & Heq & Hin). inversion Heq; subst. exists mt.
    split; [by apply list_elem_of_In|]. by rewrite !bool_decide_eq_true_2.
Qed.

Lemma sched_init_inv : sched_inv sched_init.
Proof.
  split; intros k s; simpl; rewrite lookup_empty; simpl; split;
    [by intros ?%elem_of_nil | done | by intros ?%elem_of_nil | done].
Qed.

Lemma slot_available_free st m time_slot :
  sched_inv st → slot_available st m time_slot = slot_free (scheduled_meetings st) m time_slot.
Proof.
  intros [Hb Hs]. unfold slot_available, slot_free.
  f_equal.
  - destruct (buyer_holds _ _ _) eqn:Hh; simpl.
    + apply bool_decide_eq_false. intros Hn. apply Hn. by apply Hb.
    + apply bool_decide_eq_true. intros Hin. apply Hb in Hin. congruence.
  - destruct (seller_holds _ _ _) eqn:Hh; simpl.
    + apply bool_decide_eq_false. intros Hn. apply Hn. by apply Hs.
    + apply bool_decide_eq_true. intros Hin. apply Hs in Hin. congruence.
Qed.

Lemma book_inv st m time_slot : sched_inv st → sched_inv (book st m time_slot).
Proof.
  intros [Hb Hs]. split; intros k s; simpl.
  - rewrite buyer_holds_snoc, orb_true_iff, <- Hb. simpl.
    destruct (decide (Match.buyer_id m = k)) as [->|Hne].
    + rewrite lookup_insert_eq; simpl. rewrite elem_of_app, list_elem_of_singleton.
      rewrite bool_decide_eq_true_2 by done. simpl. rewrite bool_decide_eq_true.
      clear; intuition congruence.
    + rewrite lookup_insert_ne by done. rewrite bool_decide_eq_false_2 by done.
      simpl. clear; intuition congruence.
  - rewrite seller_holds_snoc, orb_true_iff, <- Hs. simpl.
    destruct (decide (Match.seller_id m = k)) as [->|Hne].
    + rewrite lookup_insert_eq; simpl. rewrite elem_of_app, list_elem_of_singleton.
      rewrite bool_decide_eq_true_2 by done. simpl. rewrite bool_decide_eq_true.
      clear; intuition congruence.
    + rewrite lookup_insert_ne by done. rewrite bool_decide_eq_false_2 by done.
      simpl. clear; intuition congruence.
Qed.

(** The loop over the sorted matches computes the greedy first fit. *)
Lemma foldl_schedule_greedy time_slots ordered st :
  sched_inv st →
  (scheduled_meetings (foldl (schedule_match time_slots) st ordered),
   processed (foldl (schedule_match time_slots) st ordered))
  = (let '(placed, marks) := greedy_first_fit time_slots (scheduled_meetings st) ordered in
     (placed, processed st ++ marks)).
Proof.
  revert st. induction ordered as [|m rest IH]; intros st Hinv; simpl.
  - by rewrite app_nil_r.
  - unfold schedule_match at 2 4.
    rewrite (find_ext_eq _ (slot_free (scheduled_meetings st) m))
      by (intros; by apply slot_available_free).
    destruct (List.find _ time_slots) as [time_slot|].
    + rewrite IH by (by apply book_inv). simpl.
      destruct (greedy_first_fit _ _ rest) as [placed marks].
      by rewrite <- app_assoc.
    + rewrite IH by done. simpl.
      destruct (greedy_first_fit _ _ rest) as [placed marks].
      by rewrite <- app_assoc.
Qed.

Lemma run_schedule_greedy matches time_slots :
  (scheduled_meetings (run_schedule matches time_slots),
   processed (run_schedule matches time_slots))
  = greedy_first_fit time_slots [] (stable_sort match_le matches).
Proof.
  unfold run_schedule. rewrite foldl_schedule_greedy by apply sched_init_inv.
  simpl. by destruct (greedy_first_fit _ _ _).
Qed.

Lemma greedy_first_fit_conflict_free time_slots ordered meetings :
  conflict_free meetings →
  conflict_free (greedy_first_fit time_slots meetings ordered).1.
Proof.
  revert meetings. induction ordered as [|m rest IH]; intros meetings Hcf; simpl; [done|].
  destruct (List.find _ time_slots) as [time_slot|] eqn:Hfind.
  - specialize (IH (meetings ++ [meeting_of m time_slot])).
    destruct (greedy_first_fit _ _ rest) as [placed marks]. simpl in *.
    apply IH. clear IH.
    apply find_some in Hfind as [_ Hfree].
    apply andb_true_iff in Hfree as [Hb Hs].
    apply negb_true_iff in Hb, Hs.
    destruct Hcf as [Hcb Hcs].
    split; rewrite fmap_app; apply NoDup_app; (split; [done|]);
      (split; [|apply NoDup_singleton]);
      intros x Hx ->%list_elem_of_singleton; simpl in Hx.
    + apply buyer_holds_elem in Hx. congruence.
    + apply seller_holds_elem in Hx. congruence.
  - specialize (IH meetings Hcf).
    by destruct (greedy_first_fit _ _ rest) as [placed marks].
Qed.

Lemma create_schedule_conflict_free matches buyers sellers time_slots :
  conflict_free (create_schedule matches buyers sellers time_slots).
Proof.
  unfold create_schedule.
  pose proof (run_schedule_greedy matches time_slots) as Heq.
  apply (f_equal fst) in Heq. simpl in Heq. rewrite Heq.
  apply greedy_first_fit_conflict_free. split; constructor.
Qed.



(** C3. In the meeting list returned by [create_schedule], two distinct
    meetings that share a time-slot identifier have different buyers and
    different sellers.  (The slot identifiers need not even be unique.) *)
Theorem schedule_has_no_conflict (matches : list Match.t) (buyers : list Buyer.t)
    (sellers : list Seller.t) (time_slots : list TimeSlot.t)
    (i j : nat) (m1 m2 : Meeting.t) :
  create_schedule matches buyers sellers time_slots !! i = Some m1 →
  create_schedule matches buyers sellers time_slots !! j = Some m2 →
  i ≠ j →
  Meeting.time_slot m1 = Meeting.time_slot m2 →
  Meeting.buyer_id m1 ≠ Meeting.buyer_id m2
  ∧ Meeting.seller_id m1 ≠ Meeting.seller_id m2.
Proof.
  intros Hi Hj Hij Hslot.
  destruct (create_schedule_conflict_free matches buyers sellers time_slots) as [Hb Hs].
  split; intros Heq; apply Hij.
  - eapply (NoDup_lookup _ i j); [exact Hb| |];
      rewrite list_lookup_fmap; [rewrite Hi|rewrite Hj]; simpl; [done|].
    by rewrite Hslot, Heq.
  - eapply (NoDup_lookup _ i j); [exact Hs| |];
      rewrite list_lookup_fmap; [rewrite Hi|rewrite Hj]; simpl; [done|].
    by rewrite Hslot, Heq.
Qed.

Lemma schedule_has_no_conflict_witness :
  create_schedule three_matches [] [] [slot_001; slot_002] !! 1%nat
  = Some (meeting_of (fresh_match "buyer_001" "seller_002" seller_choice 2 45.5%Q) slot_002)
  ∧ create_schedule three_matches [] [] [slot_001; slot_002] !! 2%nat
    = Some (meeting_of (fresh_match "buyer_002" "seller_001" ai_suggestion 3 60.5%Q) slot_002)
  ∧ "buyer_001" ≠ "buyer_002" ∧ "seller_002" ≠ "seller_001".
Proof.
  assert (H1 : create_schedule three_matches [] [] [slot_001; slot_002] !! 1%nat
    = Some (meeting_of (fresh_match "buyer_001" "seller_002" seller_choice 2 45.5%Q) slot_002))
    by reflexivity.
  assert (H2 : create_schedule three_matches [] [] [slot_001; slot_002] !! 2%nat
    = Some (meeting_of (fresh_match "buyer_002" "seller_001" ai_suggestion 3 60.5%Q) slot_002))
    by reflexivity.
  split; [exact H1|]. split; [exact H2|].
  apply (schedule_has_no_conflict three_matches [] [] [slot_001; slot_002] 1 2 _ _ H1 H2);
    [lia|reflexivity].
Defined.


(** ** Match generator *)

Lemma foldl_invariant {A B} (f : A → B → A) (P : list B → A → Prop) (l : list B) (a : A) :
  P [] a →
  (∀ pre x post a', l = pre ++ x :: post → P pre a' → P (pre ++ [x]) (f a' x)) →
  P l (foldl f a l).
Proof.
  intros Hinit Hstep.
  enough (∀ post pre a', l = pre ++ post → P pre a' → P l (foldl f a' post)) as Hgen
    by (by apply (Hgen l [] a)).
  induction post as [|x post IH]; intros pre a' Hl Hpre; simpl.
  - by rewrite Hl, app_nil_r.
  - apply (IH (pre ++ [x])); [by rewrite <- app_assoc|]. by eapply Hstep.
Qed.

Lemma foldl_fixed {A B} (f : A → B → A) (a : A) (l : list B) :
  (∀ x, x ∈ l → f a x = a) → foldl f a l = a.
Proof.
  induction l as [|x l IH]; intros Hfix; simpl; [done|].
  rewrite Hfix by (by left). apply IH. intros y Hy. apply Hfix. by right.
Qed.

Lemma print_summary_empty : print_summary [] = Raise ZeroDivisionError.
Proof. reflexivity. Qed.

Lemma print_summary_nonempty all : all ≠ [] → print_summary all = Ok tt.
Proof.
  intros Hne. unfold print_summary, true_div.
  rewrite bool_decide_eq_false_2; [done|].
  by destruct all.
Qed.

(** [find_matches] returns [all_matches] when it holds a match, and
    raises in the summary when it holds none. *)
Lemma find_matches_result iter_set self buyers sellers :
  find_matches iter_set self buyers sellers
  = match all_matches (generate iter_set self buyers sellers) with
    | [] => Raise ZeroDivisionError
    | m :: ms => Ok (m :: ms)
    end.
Proof.
  unfold find_matches.
  destruct (all_matches _) as [|m ms] eqn:Hall; [done|].
  by rewrite print_summary_nonempty.
Qed.

(** C6: the code at the empty input.  [find_matches] on no buyers and no
    sellers does not return the empty list: the summary divides by the
    number of matches and raises [ZeroDivisionError].  The two other
    operations behave as claimed. *)
Theorem empty_inputs (iter_set : list string → list string) (self : NEXOEventMatcher)
    (buyers : list Buyer.t) (sellers : list Seller.t) (time_slots : list TimeSlot.t)
    (meetings : list Meeting.t) :
  find_matches iter_set self [] [] = Raise ZeroDivisionError
  ∧ create_schedule [] buyers sellers time_slots = []
  ∧ get_matching_statistics [] meetings = StatsError "No matches found".
Proof. by repeat split. Qed.

(** The same exception leaves a buyer without any seller. *)
Example find_matches_no_seller_raises iter_set self :
  find_matches iter_set self [keen_buyer] [] = Raise ZeroDivisionError.
Proof. reflexivity. Qed.

(** *** Every pair at most once *)

Lemma foldl_preserves {A B} (f : A → B → A) (P : A → Prop) (l : list B) (a : A) :
  (∀ a' x, x ∈ l → P a' → P (f a' x)) → P a → P (foldl f a l).
Proof.
  intros Hstep Ha.
  apply (foldl_invariant f (λ _ a', P a')); [done|].
  intros pre x post a' -> Hp. apply Hstep; [|done].
  apply elem_of_app. right. by left.
Qed.

Lemma init_buyer_meetings_acc (buyers : list Buyer.t) (d : gmap string (list Match.t)) :
  let d' := foldl (λ d buyer, <[Buyer.id buyer := []]> d) d buyers in
  dom d' = dom d ∪ list_to_set (Buyer.id <$> buyers)
  ∧ ((∀ k, d !!! k = []) → ∀ k, d' !!! k = []).
Proof.
  revert d. induction buyers as [|b buyers IH]; intros d; simpl.
  - split; [by rewrite union_empty_r_L|done].
  - destruct (IH (<[Buyer.id b := []]> d)) as [Hdom Hval]. split.
    + rewrite Hdom, dom_insert_L.
      by rewrite (union_comm_L {[Buyer.id b]} (dom d)), union_assoc_L.
    + intros Hd. apply Hval. intros k.
      destruct (decide (Buyer.id b = k)) as [<-|Hne].
      * by rewrite lookup_total_insert_eq.
      * by rewrite lookup_total_insert_ne.
Qed.

Lemma gen_inv_init buyers :
  gen_inv buyers {| all_matches := []; buyer_meetings := init_buyer_meetings buyers |}.
Proof.
  destruct (init_buyer_meetings_acc buyers ∅) as [Hdom Hval].
  unfold gen_inv; simpl. split; [constructor|]. split; [|split].
  - intros k. apply Hval. intros k'. by rewrite lookup_total_empty.
  - unfold init_buyer_meetings. by rewrite Hdom, dom_empty_L, union_empty_l_L.
  - by intros m ?%elem_of_nil.
Qed.

Lemma append_match_inv buyers st m :
  gen_inv buyers st →
  Match.buyer_id m ∈ Buyer.id <$> buyers →
  pair_of m ∉ pair_of <$> all_matches st →
  gen_inv buyers (append_match st m).
Proof.
  intros (Hnd & Hbm & Hdom & Hin) Hb Hfresh.
  unfold gen_inv, append_match; simpl. split; [|split; [|split]].
  - rewrite fmap_app. apply NoDup_app. split; [done|].
    split; [|apply NoDup_singleton].
    by intros x Hx ->%list_elem_of_singleton.
  - intros k. rewrite filter_app, lookup_total_alter.
    destruct (decide (Match.buyer_id m = k)) as [<-|Hne].
    + assert (is_Some (buyer_meetings st !! Match.buyer_id m)) as [l Hl].
      { apply elem_of_dom. rewrite Hdom. by apply elem_of_list_to_set. }
      rewrite Hl; simpl. rewrite <- Hbm, (lookup_total_correct _ _ _ Hl).
      by rewrite filter_cons_True.
    + rewrite Hbm, filter_cons_False by done. by rewrite filter_nil, app_nil_r.
  - by rewrite dom_alter_L.
  - intros m' [Hm' | ->%list_elem_of_singleton]%elem_of_app; auto.
Qed.

Lemma pair_in_matches (ms : list Match.t) b s :
  (b, s) ∈ pair_of <$> ms ↔ ∃ m, m ∈ ms ∧ Match.buyer_id m = b ∧ Match.seller_id m = s.
Proof.
  rewrite list_elem_of_fmap. unfold pair_of. split.
  - intros (m & Heq & Hm). inversion Heq. by exists m.
  - intros (m & Hm & <- & <-). by exists m.
Qed.

(** First pass, one buyer: the matches added pair that buyer with
    sellers met so far in the row. *)
Lemma double_match_row_inv self buyers sellers seen (buyer : Buyer.t) st :
  Buyer.id buyer ∈ Buyer.id <$> buyers →
  Buyer.id buyer ∉ Buyer.id <$> seen →
  NoDup (Seller.id <$> sellers) →
  gen_inv buyers st →
  (∀ m, m ∈ all_matches st → Match.buyer_id m ∈ Buyer.id <$> seen) →
  gen_inv buyers (foldl (double_match_step self buyer) st sellers)
  ∧ (∀ m, m ∈ all_matches (foldl (double_match_step self buyer) st sellers) →
          Match.buyer_id m ∈ Buyer.id <$> (seen ++ [buyer])).
Proof.
  intros Hb Hnew Hnds Hinv Hseen.
  pose (Q := λ (row : list Seller.t) (st' : GenState),
    gen_inv buyers st'
    ∧ ∀ m, m ∈ all_matches st' →
           Match.buyer_id m ∈ Buyer.id <$> seen
           ∨ (Match.buyer_id m = Buyer.id buyer ∧ Match.seller_id m ∈ Seller.id <$> row)).
  assert (HQ : Q sellers (foldl (double_match_step self buyer) st sellers)).
  { apply foldl_invariant.
    - split; [done|]. intros m Hm. left. by apply Hseen.
    - intros row seller rest st' Hsplit [Hinv' Hreg]. unfold double_match_step.
      destruct (_ && _).
      + split.
        * apply append_match_inv; [done|done|]. simpl.
          intros (m & Hm & Hmb & Hms)%pair_in_matches.
          destruct (Hreg m Hm) as [Hold|[_ Hrow]]; [by rewrite Hmb in Hold|].
          rewrite Hsplit, fmap_app, fmap_cons in Hnds.
          apply NoDup_app in Hnds as (_ & Hdisj & _).
          apply (Hdisj _ Hrow). rewrite Hms. by left.
        * intros m [Hm | ->%list_elem_of_singleton]%elem_of_app.
          -- destruct (Hreg m Hm) as [Hold|[Hmb Hrow]]; [by left|right].
             split; [done|]. rewrite fmap_app. apply elem_of_app. by left.
          -- right. simpl. split; [done|]. rewrite fmap_app. apply elem_of_app.
             right. by left.
      + split; [done|]. intros m Hm.
        destruct (Hreg m Hm) as [Hold|[Hmb Hrow]]; [by left|right].
        split; [done|]. rewrite fmap_app. apply elem_of_app. by left. }
  destruct HQ as [Hinv' Hreg]. split; [done|].
  intros m Hm. rewrite fmap_app. apply elem_of_app.
  destruct (Hreg m Hm) as [Hold|[Hmb _]]; [by left|right].
  rewrite Hmb. by left.
Qed.

Lemma process_double_matches_inv self buyers sellers st :
  NoDup (Buyer.id <$> buyers) →
  NoDup (Seller.id <$> sellers) →
  gen_inv buyers st → all_matches st = [] →
  gen_inv buyers (process_double_matches self buyers sellers st).
Proof.
  intros Hndb Hnds Hinv Hempty. unfold process_double_matches.
  enough (gen_inv buyers (foldl (λ st buyer, foldl (double_match_step self buyer) st sellers)
                            st buyers)
          ∧ ∀ m, m ∈ all_matches (foldl (λ st buyer,
                     foldl (double_match_step self buyer) st sellers) st buyers) →
                 Match.buyer_id m ∈ Buyer.id <$> buyers) as [H _] by exact H.
  apply (foldl_invariant _ (λ seen st',
    gen_inv buyers st'
    ∧ ∀ m, m ∈ all_matches st' → Match.buyer_id m ∈ Buyer.id <$> seen)).
  - split; [done|]. rewrite Hempty. by intros m ?%elem_of_nil.
  - intros seen buyer rest st' Hsplit [Hinv' Hseen].
    apply double_match_row_inv; [| |done|done|done].
    + rewrite Hsplit, fmap_app, fmap_cons. apply elem_of_app. right. by left.
    + rewrite Hsplit, fmap_app, fmap_cons in Hndb.
      apply NoDup_app in Hndb as (_ & Hdisj & _).
      intros Hin. apply (Hdisj _ Hin). by left.
Qed.

Lemma seller_choice_step_inv self buyers seller st buyer_id :
  gen_inv buyers st → gen_inv buyers (seller_choice_step self buyers seller st buyer_id).
Proof.
  intros Hinv. unfold seller_choice_step.
  destruct (List.find _ buyers) as [buyer|] eqn:Hfind; [|done].
  apply find_some in Hfind as [Hin Hid]. apply bool_decide_eq_true in Hid.
  destruct (existsb _ _) eqn:Hex; [done|].
  case_bool_decide; [|done].
  apply append_match_inv; [done| |]; simpl.
  - rewrite <- Hid. apply list_elem_of_fmap. exists buyer.
    split; [done|]. by apply list_elem_of_In.
  - intros (m & Hm & Hmb & Hms)%pair_in_matches.
    destruct Hinv as (_ & Hbm & _).
    apply not_true_iff_false in Hex. apply Hex.
    apply existsb_exists. exists m. split.
    + apply list_elem_of_In. rewrite Hbm. by apply list_elem_of_filter.
    + by rewrite !bool_decide_eq_true_2.
Qed.

Lemma process_seller_choices_inv iter_set self buyers sellers st :
  gen_inv buyers st → gen_inv buyers (process_seller_choices iter_set self buyers sellers st).
Proof.
  intros Hinv. unfold process_seller_choices.
  apply foldl_preserves; [|done]. intros st' seller _ Hinv'.
  apply foldl_preserves; [|done]. intros st'' buyer_id _.
  apply seller_choice_step_inv.
Qed.

Lemma elem_of_take_elem {A} (x : A) n l : x ∈ take n l → x ∈ l.
Proof. intros (i & Hi & _)%elem_of_take. by eapply list_elem_of_lookup_2. Qed.

(** Third pass: the sellers proposed to a buyer are distinct and none of
    them is matched with that buyer yet. *)
Lemma ai_candidates_spec self sellers st buyer :
  NoDup (Seller.id <$> sellers) →
  NoDup ((λ c, Seller.id c.1) <$> ai_candidates self sellers st buyer)
  ∧ ∀ c, c ∈ ai_candidates self sellers st buyer →
         Seller.id c.1 ∉ Match.seller_id <$> buyer_meetings st !!! Buyer.id buyer.
Proof.
  intros Hnd. unfold ai_candidates.
  set (matched := list_to_set _ : gset string).
  set (available := filter (λ s, Seller.id s ∉ matched) sellers).
  set (scored := (λ seller, (seller, calculate_compatibility_score self buyer seller))
                   <$> available).
  set (sorted := stable_sort _ scored).
  assert (Hperm : sorted ≡ₚ scored) by apply stable_sort_perm.
  split.
  - rewrite fmap_take. eapply sublist_NoDup; [|apply sublist_take].
    rewrite Hperm. unfold scored. rewrite <- list_fmap_compose.
    change (NoDup (Seller.id <$> available)).
    eapply sublist_NoDup; [exact Hnd|].
    apply fmap_sublist, sublist_filter.
  - intros c Hc%elem_of_take_elem. rewrite Hperm in Hc.
    apply list_elem_of_fmap in Hc as (s & -> & Hs). simpl.
    apply list_elem_of_filter in Hs as [Hfree _].
    intros Hin. apply Hfree. by apply elem_of_list_to_set.
Qed.

Lemma ai_step_inv self buyers sellers st buyer :
  buyer ∈ buyers →
  NoDup (Seller.id <$> sellers) →
  gen_inv buyers st → gen_inv buyers (ai_step self sellers st buyer).
Proof.
  intros Hb Hnd Hinv. unfold ai_step. case_bool_decide; [|done].
  destruct (ai_candidates_spec self sellers st buyer Hnd) as [Hcn Hcf].
  set (cands := ai_candidates self sellers st buyer) in *.
  enough (gen_inv buyers (foldl (ai_match buyer) st cands)
          ∧ ∀ m, m ∈ all_matches (foldl (ai_match buyer) st cands) →
                 m ∈ all_matches st
                 ∨ (Match.buyer_id m = Buyer.id buyer
                    ∧ Match.seller_id m ∈ (λ c, Seller.id c.1) <$> cands))
    as [Hgoal _] by exact Hgoal.
  apply (foldl_invariant _ (λ seen st',
    gen_inv buyers st'
    ∧ ∀ m, m ∈ all_matches st' →
           m ∈ all_matches st
           ∨ (Match.buyer_id m = Buyer.id buyer
              ∧ Match.seller_id m ∈ (λ c, Seller.id c.1) <$> seen))).
  - split; [done|]. by left.
  - intros seen c rest st' Hsplit [Hinv' Hreg]. unfold ai_match. split.
    + apply append_match_inv; [done| |]; simpl.
      * apply list_elem_of_fmap. by exists buyer.
      * intros (m & Hm & Hmb & Hms)%pair_in_matches. simpl in Hmb, Hms.
        destruct (Hreg m Hm) as [Hold|[_ Hseen]].
        -- apply (Hcf c); [rewrite Hsplit; apply elem_of_app; right; by left|].
           rewrite <- Hms. apply list_elem_of_fmap. exists m. split; [done|].
           destruct Hinv as (_ & Hbm & _). rewrite Hbm. by apply list_elem_of_filter.
        -- rewrite Hsplit, fmap_app, fmap_cons in Hcn.
           apply NoDup_app in Hcn as (_ & Hdisj & _).
           apply (Hdisj _ Hseen). rewrite Hms. by left.
    + intros m [Hm | ->%list_elem_of_singleton]%elem_of_app.
      * destruct (Hreg m Hm) as [Hold|[Hmb Hseen]]; [by left|right].
        split; [done|]. rewrite fmap_app. apply elem_of_app. by left.
      * right. simpl. split; [done|]. rewrite fmap_app. apply elem_of_app.
        right. by left.
Qed.

Lemma process_ai_suggestions_inv self buyers sellers st :
  NoDup (Seller.id <$> sellers) →
  gen_inv buyers st → gen_inv buyers (process_ai_suggestions self buyers sellers st).
Proof.
  intros Hnd Hinv. unfold process_ai_suggestions.
  apply foldl_preserves; [|done]. intros st' buyer Hb Hinv'.
  by apply ai_step_inv.
Qed.

Lemma generate_inv iter_set self buyers sellers :
  NoDup (Buyer.id <$> buyers) →
  NoDup (Seller.id <$> sellers) →
  gen_inv buyers (generate iter_set self buyers sellers).
Proof.
  intros Hndb Hnds. unfold generate.
  apply process_ai_suggestions_inv; [done|].
  apply process_seller_choices_inv.
  apply process_double_matches_inv; [done|done|apply gen_inv_init|done].
Qed.

(** C2. When the buyer identifiers are unique and the seller identifiers
    are unique, the list returned by [find_matches] holds each (buyer id,
    seller id) pair at most once, over the three match types together. *)
Theorem pairs_matched_once (iter_set : list string → list string) (self : NEXOEventMatcher)
    (buyers : list Buyer.t) (sellers : list Seller.t) (ms : list Match.t) :
  NoDup (Buyer.id <$> buyers) →
  NoDup (Seller.id <$> sellers) →
  find_matches iter_set self buyers sellers = Ok ms →
  NoDup (pair_of <$> ms).
Proof.
  intros Hndb Hnds Hres.
  destruct (generate_inv iter_set self buyers sellers Hndb Hnds) as [Hnd _].
  rewrite find_matches_result in Hres.
  destruct (all_matches _) as [|m rest]; [done|].
  by inversion Hres; subst.
Qed.

Lemma pairs_matched_once_witness :
  ∃ ms,
    find_matches remove_dups init two_buyers seven_sellers = Ok ms
    ∧ length ms = 11%nat
    ∧ NoDup (pair_of <$> ms).
Proof.
  eexists. split; [vm_compute; reflexivity|]. split; [reflexivity|].
  apply (pairs_matched_once remove_dups init two_buyers seven_sellers).
  - apply (bool_decide_unpack (NoDup (Buyer.id <$> two_buyers))). vm_compute. exact I.
  - apply (bool_decide_unpack (NoDup (Seller.id <$> seven_sellers))). vm_compute. exact I.
  - vm_compute. reflexivity.
Defined.

(** *** The number of matches of a buyer *)

Lemma matches_of_buyer_snoc k ms m :
  matches_of_buyer k (ms ++ [m])
  = (matches_of_buyer k ms + if decide (Match.buyer_id m = k) then 1 else 0)%nat.
Proof.
  unfold matches_of_buyer. rewrite filter_app, length_app. f_equal.
  destruct (decide (Match.buyer_id m = k)).
  - by rewrite filter_cons_True.
  - by rewrite filter_cons_False.
Qed.

Lemma append_match_count k st m :
  matches_of_buyer k (all_matches (append_match st m))
  = (matches_of_buyer k (all_matches st)
     + if decide (Match.buyer_id m = k) then 1 else 0)%nat.
Proof. apply matches_of_buyer_snoc. Qed.

Lemma double_row_count self buyer sellers st k :
  matches_of_buyer k (all_matches (foldl (double_match_step self buyer) st sellers))
  = (matches_of_buyer k (all_matches st)
     + if decide (Buyer.id buyer = k) then double_count buyer sellers else 0)%nat.
Proof.
  revert st. induction sellers as [|seller sellers IH]; intros st; simpl.
  - unfold double_count. simpl. destruct (decide _); lia.
  - rewrite IH. unfold double_match_step, double_count.
    fold (mutual buyer seller).
    destruct (mutual buyer seller) eqn:Hm.
    + rewrite append_match_count, filter_cons_True by (by apply Is_true_true). simpl.
      destruct (decide (Buyer.id buyer = k)); lia.
    + rewrite filter_cons_False by (by apply Is_true_false).
      destruct (decide (Buyer.id buyer = k)); lia.
Qed.

(** After the first pass a buyer has one match per mutual selection. *)
Lemma process_double_matches_count self buyers sellers st buyer :
  NoDup (Buyer.id <$> buyers) →
  buyer ∈ buyers →
  matches_of_buyer (Buyer.id buyer)
    (all_matches (process_double_matches self buyers sellers st))
  = (matches_of_buyer (Buyer.id buyer) (all_matches st) + double_count buyer sellers)%nat.
Proof.
  unfold process_double_matches. revert st.
  induction buyers as [|b buyers IH]; intros st Hnd Hin; [by apply elem_of_nil in Hin|].
  simpl in *. apply NoDup_cons in Hnd as [Hb Hnd].
  apply elem_of_cons in Hin as [->|Hin].
  - enough (∀ st', matches_of_buyer (Buyer.id b)
              (all_matches (foldl (λ st buyer, foldl (double_match_step self buyer) st sellers)
                              st' buyers))
            = matches_of_buyer (Buyer.id b) (all_matches st')) as Hrest.
    { rewrite Hrest, double_row_count. by rewrite decide_True. }
    clear IH Hnd. induction buyers as [|b' buyers IH']; intros st'; simpl; [done|].
    rewrite IH' by (intros ?; apply Hb; by right).
    rewrite double_row_count, decide_False; [lia|].
    intros Heq. apply Hb. rewrite <- Heq. by left.
  - rewrite IH by done. rewrite double_row_count, decide_False; [lia|].
    intros Heq. apply Hb. rewrite Heq. apply list_elem_of_fmap. by exists buyer.
Qed.

Lemma append_match_known sellers st m :
  sellers_known sellers st →
  Match.seller_id m ∈ Seller.id <$> sellers →
  sellers_known sellers (append_match st m).
Proof.
  intros Hk Hm m' [Hm' | ->%list_elem_of_singleton]%elem_of_app; [by apply Hk|done].
Qed.

Lemma seller_id_known (seller : Seller.t) (sellers : list Seller.t) :
  seller ∈ sellers → Seller.id seller ∈ Seller.id <$> sellers.
Proof. intros Hin. apply list_elem_of_fmap. by exists seller. Qed.

Lemma process_double_matches_known self buyers sellers st :
  sellers_known sellers st →
  sellers_known sellers (process_double_matches self buyers sellers st).
Proof.
  intros Hk. unfold process_double_matches.
  apply foldl_preserves; [|done]. intros st' buyer _ Hk'.
  apply foldl_preserves; [|done]. intros st'' seller Hs Hk''.
  unfold double_match_step. destruct (_ && _); [|done].
  apply append_match_known; [done|]. by apply seller_id_known.
Qed.

Lemma process_seller_choices_known iter_set self buyers sellers st :
  sellers_known sellers st →
  sellers_known sellers (process_seller_choices iter_set self buyers sellers st).
Proof.
  intros Hk. unfold process_seller_choices.
  apply foldl_preserves; [|done]. intros st' seller Hs Hk'.
  apply foldl_preserves; [|done]. intros st'' buyer_id _ Hk''.
  unfold seller_choice_step.
  destruct (List.find _ buyers); [|done].
  destruct (existsb _ _); [done|]. case_bool_decide; [|done].
  apply append_match_known; [done|]. by apply seller_id_known.
Qed.

Lemma ai_candidates_known self sellers st buyer c :
  c ∈ ai_candidates self sellers st buyer → c.1 ∈ sellers.
Proof.
  unfold ai_candidates. intros Hc%elem_of_take_elem.
  rewrite stable_sort_perm in Hc.
  apply list_elem_of_fmap in Hc as (s & -> & Hs). simpl.
  by apply list_elem_of_filter in Hs as [_ Hs].
Qed.

Lemma ai_step_known self sellers st buyer :
  sellers_known sellers st → sellers_known sellers (ai_step self sellers st buyer).
Proof.
  intros Hk. unfold ai_step. case_bool_decide; [|done].
  apply foldl_preserves; [|done]. intros st' c Hc Hk'.
  apply append_match_known; [done|]. simpl.
  apply seller_id_known. by eapply ai_candidates_known.
Qed.

(** The sellers matched with one buyer are distinct. *)
Lemma matched_sellers_NoDup buyers st k :
  gen_inv buyers st → NoDup (Match.seller_id <$> buyer_meetings st !!! k).
Proof.
  intros (Hnd & Hbm & _). rewrite Hbm.
  apply (NoDup_fmap_1 (λ s, (k, s))). rewrite <- list_fmap_compose.
  eapply sublist_NoDup; [exact Hnd|].
  erewrite (list_fmap_ext _ pair_of).
  - apply fmap_sublist, sublist_filter.
  - intros i m Hm. apply list_elem_of_lookup_2, list_elem_of_filter in Hm as [<- _]. done.
Qed.

Lemma buyer_meetings_count buyers st k :
  gen_inv buyers st → length (buyer_meetings st !!! k) = matches_of_buyer k (all_matches st).
Proof. intros (_ & Hbm & _). by rewrite Hbm. Qed.

(** No buyer has more matches than there are sellers. *)
Lemma matches_of_buyer_bound buyers sellers st k :
  gen_inv buyers st → sellers_known sellers st →
  (matches_of_buyer k (all_matches st) ≤ length sellers)%nat.
Proof.
  intros Hinv Hk.
  rewrite <- (buyer_meetings_count buyers) by done.
  rewrite <- (length_fmap Match.seller_id), <- (length_fmap Seller.id sellers).
  apply submseteq_length, NoDup_submseteq; [by eapply matched_sellers_NoDup|].
  intros x (m & -> & Hm)%list_elem_of_fmap. apply Hk.
  destruct Hinv as (_ & Hbm & _). rewrite Hbm in Hm.
  by apply list_elem_of_filter in Hm as [_ Hm].
Qed.

(** Second pass: a count only grows, and only while it is below 5. *)
Lemma seller_choice_step_count self buyers seller st buyer_id k :
  gen_inv buyers st →
  (matches_of_buyer k (all_matches st)
   ≤ matches_of_buyer k (all_matches (seller_choice_step self buyers seller st buyer_id))
   ≤ matches_of_buyer k (all_matches st) `max` 5)%nat.
Proof.
  intros Hinv. unfold seller_choice_step.
  destruct (List.find _ buyers); [|lia].
  destruct (existsb _ _); [lia|].
  case_bool_decide as Hroom; [|lia].
  rewrite (buyer_meetings_count buyers) in Hroom by done.
  rewrite append_match_count. simpl.
  destruct (decide (buyer_id = k)) as [<-|]; lia.
Qed.

Lemma process_seller_choices_count iter_set self buyers sellers st k :
  gen_inv buyers st →
  (matches_of_buyer k (all_matches st)
   ≤ matches_of_buyer k (all_matches (process_seller_choices iter_set self buyers sellers st))
   ≤ matches_of_buyer k (all_matches st) `max` 5)%nat.
Proof.
  intros Hinv. unfold process_seller_choices.
  set (c0 := matches_of_buyer k (all_matches st)).
  pose (P := λ st', gen_inv buyers st'
    ∧ (c0 ≤ matches_of_buyer k (all_matches st') ≤ c0 `max` 5)%nat).
  enough (P (foldl (λ st seller,
      foldl (seller_choice_step self buyers seller) st
        (iter_set (default [] (Seller.selected_buyers seller)))) st sellers)) as [_ H]
    by exact H.
  apply foldl_preserves; [|split; [done|unfold c0; lia]].
  intros st' seller _ HP. apply foldl_preserves; [|done].
  intros st'' buyer_id _ [Hinv'' Hc]. split; [by apply seller_choice_step_inv|].
  pose proof (seller_choice_step_count self buyers seller st'' buyer_id k Hinv''). lia.
Qed.

(** Third pass. *)
Lemma ai_match_fold_count buyer cands st k :
  matches_of_buyer k (all_matches (foldl (ai_match buyer) st cands))
  = (matches_of_buyer k (all_matches st)
     + if decide (Buyer.id buyer = k) then length cands else 0)%nat.
Proof.
  revert st. induction cands as [|c cands IH]; intros st; simpl.
  - destruct (decide _); lia.
  - rewrite IH. unfold ai_match. rewrite append_match_count. simpl.
    destruct (decide (Buyer.id buyer = k)); lia.
Qed.

Lemma available_length (sellers : list Seller.t) (matched : list string) :
  NoDup (Seller.id <$> sellers) →
  NoDup matched →
  (∀ x, x ∈ matched → x ∈ Seller.id <$> sellers) →
  length (filter (λ s, Seller.id s ∉ (list_to_set matched : gset string)) sellers)
  = (length sellers - length matched)%nat.
Proof.
  intros Hnds Hndm Hsub.
  set (M := list_to_set matched : gset string).
  pose proof (filter_app_complement (λ s, Seller.id s ∉ M) sellers) as Hsplit.
  apply Permutation_length in Hsplit. rewrite length_app in Hsplit.
  enough (length (filter (λ s, ¬ (Seller.id s ∉ M)) sellers) = length matched) by lia.
  rewrite <- (length_fmap Seller.id). apply Permutation_length.
  apply NoDup_Permutation; [|done|].
  - eapply sublist_NoDup; [exact Hnds|]. apply fmap_sublist, sublist_filter.
  - intros x. rewrite list_elem_of_fmap. split.
    + intros (s & -> & Hs). apply list_elem_of_filter in Hs as [Hin _].
      apply dec_stable in Hin. unfold M in Hin.
      apply elem_of_list_to_set in Hin. exact Hin.
    + intros Hx. pose proof (Hsub x Hx) as Hx'.
      apply list_elem_of_fmap in Hx' as (s & -> & Hs).
      exists s. split; [done|]. apply list_elem_of_filter. split; [|done].
      intros Hn. apply Hn. unfold M. by apply elem_of_list_to_set.
Qed.

Lemma ai_candidates_length self buyers sellers st buyer :
  NoDup (Seller.id <$> sellers) →
  gen_inv buyers st → sellers_known sellers st →
  length (ai_candidates self sellers st buyer)
  = ((5 - matches_of_buyer (Buyer.id buyer) (all_matches st))
     `min` (length sellers - matches_of_buyer (Buyer.id buyer) (all_matches st)))%nat.
Proof.
  intros Hnd Hinv Hk. unfold ai_candidates.
  rewrite length_take, (Permutation_length (stable_sort_perm _ _)), length_fmap.
  rewrite available_length; [| done | by eapply matched_sellers_NoDup |].
  - by rewrite length_fmap, (buyer_meetings_count buyers).
  - intros x (m & -> & Hm)%list_elem_of_fmap. apply Hk.
    destruct Hinv as (_ & Hbm & _). rewrite Hbm in Hm.
    by apply list_elem_of_filter in Hm as [_ Hm].
Qed.

Lemma ai_step_count self buyers sellers st buyer k :
  NoDup (Seller.id <$> sellers) →
  gen_inv buyers st → sellers_known sellers st →
  matches_of_buyer k (all_matches (ai_step self sellers st buyer))
  = if decide (Buyer.id buyer = k)
    then filled (length sellers) (matches_of_buyer k (all_matches st))
    else matches_of_buyer k (all_matches st).
Proof.
  intros Hnd Hinv Hk. unfold ai_step, filled.
  rewrite (buyer_meetings_count buyers) by done.
  pose proof (matches_of_buyer_bound buyers sellers st (Buyer.id buyer) Hinv Hk) as Hle.
  destruct (decide (Buyer.id buyer = k)) as [<-|Hne].
  - case_bool_decide; [|done].
    rewrite ai_match_fold_count, decide_True by done.
    rewrite (ai_candidates_length self buyers) by done. lia.
  - case_bool_decide; [|done].
    rewrite ai_match_fold_count, decide_False by done. lia.
Qed.

Lemma process_ai_suggestions_count self buyers sellers st buyer :
  NoDup (Buyer.id <$> buyers) →
  NoDup (Seller.id <$> sellers) →
  gen_inv buyers st → sellers_known sellers st →
  buyer ∈ buyers →
  matches_of_buyer (Buyer.id buyer)
    (all_matches (process_ai_suggestions self buyers sellers st))
  = filled (length sellers) (matches_of_buyer (Buyer.id buyer) (all_matches st)).
Proof.
  intros Hndb Hnds Hinv Hk Hin. unfold process_ai_suggestions.
  pose (P := λ (seen : list Buyer.t) st',
    gen_inv buyers st' ∧ sellers_known sellers st'
    ∧ ∀ k, matches_of_buyer k (all_matches st')
           = if decide (k ∈ Buyer.id <$> seen)
             then filled (length sellers) (matches_of_buyer k (all_matches st))
             else matches_of_buyer k (all_matches st)).
  assert (HP : P buyers (foldl (ai_step self sellers) st buyers)).
  { apply foldl_invariant.
    - split; [done|]. split; [done|]. intros k. rewrite decide_False; [done|].
      by intros ?%elem_of_nil.
    - intros seen b rest st' Hsplit (Hinv' & Hk' & Hc).
      assert (Hb : b ∈ buyers).
      { rewrite Hsplit. apply elem_of_app. right. by left. }
      assert (Hfresh : Buyer.id b ∉ Buyer.id <$> seen).
      { rewrite Hsplit, fmap_app, fmap_cons in Hndb.
        apply NoDup_app in Hndb as (_ & Hdisj & _).
        intros Hseen. apply (Hdisj _ Hseen). by left. }
      split; [by apply ai_step_inv|]. split; [by apply ai_step_known|].
      intros k. rewrite (ai_step_count self buyers) by done.
      rewrite Hc, fmap_app, fmap_cons.
      destruct (decide (Buyer.id b = k)) as [<-|Hne].
      + rewrite (decide_False (P := Buyer.id b ∈ Buyer.id <$> seen)) by done.
        rewrite decide_True; [done|]. apply elem_of_app. right. by left.
      + destruct (decide (k ∈ Buyer.id <$> seen)) as [Hs|Hs].
        * rewrite decide_True; [done|]. apply elem_of_app. by left.
        * rewrite decide_False; [done|].
          intros [?|[->|[]%elem_of_nil]%elem_of_cons]%elem_of_app; done. }
  destruct HP as (_ & _ & Hc). rewrite Hc, decide_True; [done|].
  apply list_elem_of_fmap. by exists buyer.
Qed.

(** What each buyer ends with: its double matches if there are more
    than 5 of them, and otherwise 5 matches or, with fewer than 5
    sellers, one match per seller. *)
Lemma quota_outcome iter_set self buyers sellers buyer :
  NoDup (Buyer.id <$> buyers) →
  NoDup (Seller.id <$> sellers) →
  buyer ∈ buyers →
  matches_of_buyer (Buyer.id buyer) (all_matches (generate iter_set self buyers sellers))
  = (double_count buyer sellers `max` (5 `min` length sellers))%nat.
Proof.
  intros Hndb Hnds Hin. unfold generate.
  set (st0 := {| all_matches := []; buyer_meetings := init_buyer_meetings buyers |}).
  set (st1 := process_double_matches self buyers sellers st0).
  set (st2 := process_seller_choices iter_set self buyers sellers st1).
  assert (Hinv1 : gen_inv buyers st1).
  { apply process_double_matches_inv; [done|done|apply gen_inv_init|done]. }
  assert (Hk1 : sellers_known sellers st1).
  { apply process_double_matches_known. by intros m ?%elem_of_nil. }
  assert (Hinv2 : gen_inv buyers st2) by (by apply process_seller_choices_inv).
  assert (Hk2 : sellers_known sellers st2) by (by apply process_seller_choices_known).
  pose proof (process_double_matches_count self buyers sellers st0 buyer Hndb Hin) as Hc1.
  fold st1 in Hc1. change (matches_of_buyer _ (all_matches st0)) with 0%nat in Hc1.
  pose proof (process_seller_choices_count iter_set self buyers sellers st1
                (Buyer.id buyer) Hinv1) as Hc2.
  fold st2 in Hc2.
  pose proof (matches_of_buyer_bound buyers sellers st2 (Buyer.id buyer) Hinv2 Hk2) as Hle.
  rewrite process_ai_suggestions_count by done.
  unfold filled. case_bool_decide; lia.
Qed.

(** [find_matches] returns as soon as there is a buyer and a seller. *)
Lemma find_matches_returns iter_set self buyers sellers :
  NoDup (Buyer.id <$> buyers) →
  NoDup (Seller.id <$> sellers) →
  buyers ≠ [] → sellers ≠ [] →
  find_matches iter_set self buyers sellers
  = Ok (all_matches (generate iter_set self buyers sellers)).
Proof.
  intros Hndb Hnds Hb Hs. rewrite find_matches_result.
  destruct buyers as [|buyer buyers]; [done|].
  pose proof (quota_outcome iter_set self (buyer :: buyers) sellers buyer Hndb Hnds
                ltac:(by left)) as Hq.
  destruct (all_matches _) as [|m ms]; [|done].
  destruct sellers; [done|]. simpl in Hq. unfold matches_of_buyer in Hq. simpl in Hq. lia.
Qed.

(** The quota holds for the buyers with at most 5 mutual selections:
    exactly 5 matches with 5 sellers or more, one per seller with fewer. *)
Lemma quota_met iter_set self buyers sellers :
  NoDup (Buyer.id <$> buyers) →
  NoDup (Seller.id <$> sellers) →
  buyers ≠ [] → sellers ≠ [] →
  ∃ ms,
    find_matches iter_set self buyers sellers = Ok ms
    ∧ ∀ buyer, buyer ∈ buyers → (double_count buyer sellers ≤ 5)%nat →
        matches_of_buyer (Buyer.id buyer) ms = (5 `min` length sellers)%nat.
Proof.
  intros Hndb Hnds Hb Hs. eexists. split; [by apply find_matches_returns|].
  intros buyer Hin Hdc. rewrite quota_outcome by done.
  assert (double_count buyer sellers ≤ length sellers)%nat; [|lia].
  unfold double_count. apply length_filter.
Qed.

(** *** The quota and the double matches *)

Lemma keen_seller_choice_fixed (seller : Seller.t) (buyer_id : string) :
  seller ∈ six_sellers →
  let st1 :=
    process_double_matches init [keen_buyer] six_sellers
      {| all_matches := []; buyer_meetings := init_buyer_meetings [keen_buyer] |} in
  seller_choice_step init [keen_buyer] seller st1 buyer_id = st1.
Proof.
  intros Hin st1.
  destruct (decide ("buyer_001" = buyer_id)) as [<-|Hne].
  - unfold six_sellers, six_seller_ids in Hin. simpl in Hin.
    repeat (apply elem_of_cons in Hin as [->|Hin]); try (vm_compute; reflexivity).
    by apply elem_of_nil in Hin.
  - unfold seller_choice_step. cbn [List.find].
    change (Buyer.id keen_buyer) with "buyer_001".
    by rewrite bool_decide_eq_false_2.
Qed.

(** C1: the code at an input with six mutual selections.  Whatever the
    iteration order of the sets, [find_matches] returns six matches for the
    one buyer, all of them double matches: the first pass does not look at
    the quota of 5 that the second and third passes observe
    ([quota_outcome] gives the count in general, [quota_met] the inputs on
    which the quota holds). *)
Theorem six_double_matches (iter_set : list string → list string) :
  ∃ ms,
    find_matches iter_set init [keen_buyer] six_sellers = Ok ms
    ∧ NoDup (Seller.id <$> six_sellers)
    ∧ matches_of_buyer (Buyer.id keen_buyer) ms = 6%nat
    ∧ Forall (λ m, Match.match_type m = double_match) ms.
Proof.
  rewrite find_matches_result. unfold generate.
  set (st1 := process_double_matches init [keen_buyer] six_sellers _).
  assert (Hsc : process_seller_choices iter_set init [keen_buyer] six_sellers st1 = st1).
  { unfold process_seller_choices. apply foldl_fixed. intros seller Hin.
    apply foldl_fixed. intros buyer_id _. by apply keen_seller_choice_fixed. }
  rewrite Hsc.
  assert (Hai : process_ai_suggestions init [keen_buyer] six_sellers st1 = st1)
    by (vm_compute; reflexivity).
  rewrite Hai.
  eexists. split; [vm_compute; reflexivity|].
  split; [|split].
  - apply (bool_decide_unpack (NoDup (Seller.id <$> six_sellers))). vm_compute. exact I.
  - vm_compute. reflexivity.
  - repeat (constructor; [reflexivity|]). constructor.
Qed.

(** * Further properties of the generator *)

Lemma find_matches_Ok iter_set self buyers sellers ms :
  find_matches iter_set self buyers sellers = Ok ms →
  ms = all_matches (generate iter_set self buyers sellers) ∧ ms ≠ [].
Proof.
  rewrite find_matches_result. destruct (all_matches _) as [|m rest]; [done|].
  intros [= <-]. done.
Qed.

Lemma append_match_sound self buyers sellers st m :
  Forall (sound_match self buyers sellers) (all_matches st) →
  sound_match self buyers sellers m →
  Forall (sound_match self buyers sellers) (all_matches (append_match st m)).
Proof. intros Hall Hm. simpl. apply Forall_app. split; [done|]. by constructor. Qed.

Lemma ai_candidates_score self sellers st buyer c :
  c ∈ ai_candidates self sellers st buyer →
  c.2 = calculate_compatibility_score self buyer c.1.
Proof.
  unfold ai_candidates. intros Hc%elem_of_take_elem.
  rewrite stable_sort_perm in Hc.
  by apply list_elem_of_fmap in Hc as (s & -> & Hs).
Qed.

Lemma generate_sound iter_set self buyers sellers :
  (∀ l x, x ∈ iter_set l → x ∈ l) →
  Forall (sound_match self buyers sellers)
    (all_matches (generate iter_set self buyers sellers)).
Proof.
  intros Hiter. unfold generate, process_ai_suggestions, process_seller_choices,
    process_double_matches.
  apply (foldl_preserves _ (λ st, Forall (sound_match self buyers sellers) (all_matches st))).
  { intros st buyer Hb Hst. unfold ai_step. case_bool_decide; [|done].
    apply (foldl_preserves _
      (λ st, Forall (sound_match self buyers sellers) (all_matches st))); [|done].
    intros st' c Hc Hst'. apply append_match_sound; [done|].
    repeat split. exists buyer, c.1.
    split; [done|]. split; [by eapply ai_candidates_known|].
    repeat split; simpl; [by eapply ai_candidates_score|done|done]. }
  apply (foldl_preserves _ (λ st, Forall (sound_match self buyers sellers) (all_matches st))).
  { intros st seller Hs Hst.
    apply (foldl_preserves _
      (λ st, Forall (sound_match self buyers sellers) (all_matches st))); [|done].
    intros st' buyer_id Hid Hst'. unfold seller_choice_step.
    destruct (List.find _ buyers) as [buyer|] eqn:Hfind; [|done].
    apply find_some in Hfind as [Hin Heq]. apply bool_decide_eq_true in Heq.
    destruct (existsb _ _); [done|]. case_bool_decide; [|done].
    apply append_match_sound; [done|].
    repeat split. exists buyer, seller.
    split; [by apply list_elem_of_In|]. split; [done|].
    repeat split; simpl; [done|done|]. intros _. rewrite Heq. by apply Hiter. }
  apply (foldl_preserves _ (λ st, Forall (sound_match self buyers sellers) (all_matches st))).
  { intros st buyer Hb Hst.
    apply (foldl_preserves _
      (λ st, Forall (sound_match self buyers sellers) (all_matches st))); [|done].
    intros st' seller Hs Hst'. unfold double_match_step.
    destruct (_ && _) eqn:Hm; [|done].
    apply append_match_sound; [done|].
    repeat split. exists buyer, seller.
    split; [done|]. split; [done|].
    repeat split; simpl; [done|]. intros _.
    unfold mutual in *. apply andb_true_iff in Hm as [H1 _].
    by apply bool_decide_eq_true in H1. }
  constructor.
Qed.

(** Once the step for [x] has established [Q], the rest of the loop keeps
    it; [I] is an invariant the steps may rely on. *)
Lemma foldl_event {A B} (f : A → B → A) (I Q : A → Prop) (x : B) (l : list B) (a : A) :
  (∀ a' y, y ∈ l → I a' → I (f a' y)) →
  (∀ a' y, y ∈ l → I a' → Q a' → Q (f a' y)) →
  (∀ a', I a' → Q (f a' x)) →
  x ∈ l → I a → Q (foldl f a l).
Proof.
  intros HI HQ Hx. revert a. induction l as [|y l IH]; intros a Hin Ha.
  - by apply elem_of_nil in Hin.
  - simpl. apply elem_of_cons in Hin as [<-|Hin].
    + enough (I (foldl f (f a x) l) ∧ Q (foldl f (f a x) l)) as [_ H] by exact H.
      apply (foldl_preserves f (λ a', I a' ∧ Q a')).
      * intros a' y Hy [Ha' Hq]. split.
        -- apply HI; [by right|done].
        -- apply HQ; [by right|done|done].
      * split; [apply HI; [by left|done]|by apply Hx].
    + apply IH; [| |done|].
      * intros a' z Hz. apply HI. by right.
      * intros a' z Hz. apply HQ. by right.
      * apply HI; [by left|done].
Qed.

Lemma SetOrder_remove_dups : SetOrder remove_dups.
Proof. intros l. split; [apply NoDup_remove_dups|apply elem_of_remove_dups]. Qed.


(** X1. With unique identifiers, a buyer of the input ends with as many
    matches as the larger of its number of mutual selections and of
    min(5, number of sellers). *)
Theorem buyer_match_count (iter_set : list string → list string) (self : NEXOEventMatcher)
    (buyers : list Buyer.t) (sellers : list Seller.t) (buyer : Buyer.t) (ms : list Match.t) :
  NoDup (Buyer.id <$> buyers) →
  NoDup (Seller.id <$> sellers) →
  buyer ∈ buyers →
  find_matches iter_set self buyers sellers = Ok ms →
  matches_of_buyer (Buyer.id buyer) ms
  = (double_count buyer sellers `max` (5 `min` length sellers))%nat.
Proof.
  intros Hndb Hnds Hin [-> _]%find_matches_Ok. by apply quota_outcome.
Qed.

Lemma buyer_match_count_witness :
  ∃ ms,
    find_matches remove_dups init two_buyers seven_sellers = Ok ms
    ∧ double_count keen_buyer seven_sellers = 6%nat
    ∧ matches_of_buyer "buyer_001" ms = 6%nat.
Proof.
  eexists. split; [vm_compute; reflexivity|]. split; [reflexivity|].
  apply (buyer_match_count remove_dups init two_buyers seven_sellers keen_buyer).
  - apply (bool_decide_unpack (NoDup (Buyer.id <$> two_buyers))). vm_compute. exact I.
  - apply (bool_decide_unpack (NoDup (Seller.id <$> seven_sellers))). vm_compute. exact I.
  - by left.
  - vm_compute. reflexivity.
Defined.

Lemma generate_no_buyer iter_set self sellers :
  all_matches (generate iter_set self [] sellers) = [].
Proof.
  unfold generate, process_ai_suggestions, process_seller_choices, process_double_matches.
  simpl. rewrite foldl_fixed; [done|]. intros seller _.
  by apply foldl_fixed.
Qed.

Lemma generate_no_seller iter_set self buyers :
  all_matches (generate iter_set self buyers []) = [].
Proof.
  unfold generate, process_ai_suggestions, process_seller_choices, process_double_matches.
  rewrite (foldl_fixed (λ st buyer, foldl (double_match_step self buyer) st []) _ buyers)
    by done.
  simpl. apply (foldl_preserves _ (λ st, all_matches st = [])); [|done].
  intros st buyer _ Hst. unfold ai_step. case_bool_decide; [|done].
  unfold ai_candidates. simpl. by rewrite take_nil.
Qed.

(** X2. With unique identifiers, [find_matches] raises (the
    [ZeroDivisionError] of its summary) exactly when there is no buyer or
    no seller; otherwise it returns a non-empty list. *)
Theorem find_matches_raises_iff (iter_set : list string → list string)
    (self : NEXOEventMatcher) (buyers : list Buyer.t) (sellers : list Seller.t) :
  NoDup (Buyer.id <$> buyers) →
  NoDup (Seller.id <$> sellers) →
  (find_matches iter_set self buyers sellers = Raise ZeroDivisionError
   ↔ buyers = [] ∨ sellers = [])
  ∧ (buyers ≠ [] → sellers ≠ [] →
     ∃ m ms, find_matches iter_set self buyers sellers = Ok (m :: ms)).
Proof.
  intros Hndb Hnds.
  assert (Hret : buyers ≠ [] → sellers ≠ [] →
    ∃ m ms, find_matches iter_set self buyers sellers = Ok (m :: ms)).
  { intros Hb Hs.
    pose proof (find_matches_returns iter_set self buyers sellers Hndb Hnds Hb Hs) as Hok.
    destruct (find_matches_Ok _ _ _ _ _ Hok) as [_ Hne].
    destruct (all_matches _) as [|m ms]; [done|]. by exists m, ms. }
  split; [|exact Hret]. split.
  - intros Hraise. destruct buyers as [|b bs]; [by left|].
    destruct sellers as [|s ss]; [by right|].
    destruct Hret as (m & ms & Hok); [done|done|]. congruence.
  - rewrite find_matches_result. intros [-> | ->].
    + by rewrite generate_no_buyer.
    + by rewrite generate_no_seller.
Qed.

Lemma find_matches_raises_iff_witness :
  find_matches remove_dups init [keen_buyer] [] = Raise ZeroDivisionError
  ∧ ∃ m ms, find_matches remove_dups init two_buyers seven_sellers = Ok (m :: ms).
Proof.
  split.
  - apply (find_matches_raises_iff remove_dups init [keen_buyer] []).
    + apply (bool_decide_unpack (NoDup (Buyer.id <$> [keen_buyer]))). vm_compute. exact I.
    + constructor.
    + by right.
  - apply (find_matches_raises_iff remove_dups init two_buyers seven_sellers).
    + apply (bool_decide_unpack (NoDup (Buyer.id <$> two_buyers))). vm_compute. exact I.
    + apply (bool_decide_unpack (NoDup (Seller.id <$> seven_sellers))). vm_compute. exact I.
    + discriminate.
    + discriminate.
Defined.

(** X3. Every match returned by [find_matches] is unscheduled, carries
    the priority of its type (1, 2, 3), joins a buyer and a seller of the
    input with the score of that pair, and is a double match only for a
    mutual selection and a seller choice only for a buyer the seller
    selected. *)
Theorem matches_are_sound (iter_set : list string → list string) (self : NEXOEventMatcher)
    (buyers : list Buyer.t) (sellers : list Seller.t) (ms : list Match.t) :
  SetOrder iter_set →
  find_matches iter_set self buyers sellers = Ok ms →
  Forall (sound_match self buyers sellers) ms.
Proof.
  intros Hiter [-> _]%find_matches_Ok. apply generate_sound.
  intros l x Hx. by apply (Hiter l).
Qed.

Lemma matches_are_sound_witness :
  ∃ ms,
    find_matches remove_dups init two_buyers seven_sellers = Ok ms
    ∧ Forall (sound_match init two_buyers seven_sellers) ms.
Proof.
  eexists. split; [vm_compute; reflexivity|].
  apply (matches_are_sound remove_dups init two_buyers seven_sellers).
  - exact SetOrder_remove_dups.
  - vm_compute. reflexivity.
Defined.

(** The passes only append to [all_matches]. *)
Lemma foldl_extends {B} (f : GenState → B → GenState) (l : list B) (st : GenState) :
  (∀ st' x, x ∈ l → all_matches st' `prefix_of` all_matches (f st' x)) →
  all_matches st `prefix_of` all_matches (foldl f st l).
Proof.
  intros Hstep.
  apply (foldl_preserves f (λ st', all_matches st `prefix_of` all_matches st')); [|done].
  intros st' x Hx Hpre. etrans; [exact Hpre|]. by apply Hstep.
Qed.

Lemma append_match_extends st m :
  all_matches st `prefix_of` all_matches (append_match st m).
Proof. by apply prefix_app_r. Qed.

Lemma double_match_step_extends self buyer st seller :
  all_matches st `prefix_of` all_matches (double_match_step self buyer st seller).
Proof. unfold double_match_step. destruct (_ && _); [apply append_match_extends|done]. Qed.

Lemma seller_choice_step_extends self buyers seller st buyer_id :
  all_matches st `prefix_of` all_matches (seller_choice_step self buyers seller st buyer_id).
Proof.
  unfold seller_choice_step. destruct (List.find _ _); [|done].
  destruct (existsb _ _); [done|]. case_bool_decide; [apply append_match_extends|done].
Qed.

Lemma ai_step_extends self sellers st buyer :
  all_matches st `prefix_of` all_matches (ai_step self sellers st buyer).
Proof.
  unfold ai_step. case_bool_decide; [|done].
  apply foldl_extends. intros st' c _. apply append_match_extends.
Qed.

Lemma process_seller_choices_extends iter_set self buyers sellers st :
  all_matches st
  `prefix_of` all_matches (process_seller_choices iter_set self buyers sellers st).
Proof.
  apply foldl_extends. intros st' seller _. apply foldl_extends.
  intros st'' buyer_id _. apply seller_choice_step_extends.
Qed.

Lemma process_ai_suggestions_extends self buyers sellers st :
  all_matches st `prefix_of` all_matches (process_ai_suggestions self buyers sellers st).
Proof. apply foldl_extends. intros st' buyer _. apply ai_step_extends. Qed.

Lemma elem_of_prefix {A} (l k : list A) x : l `prefix_of` k → x ∈ l → x ∈ k.
Proof. intros [k' ->] Hx. apply elem_of_app. by left. Qed.


Lemma NoDup_fmap_elem_inj {A B} (f : A → B) (l : list A) x y :
  NoDup (f <$> l) → x ∈ l → y ∈ l → f x = f y → x = y.
Proof.
  intros Hnd (i & Hi)%list_elem_of_lookup (j & Hj)%list_elem_of_lookup Hf.
  assert (i = j) as ->.
  { apply (NoDup_lookup (f <$> l) i j (f x)); [done| |].
    - by rewrite list_lookup_fmap, Hi.
    - by rewrite list_lookup_fmap, Hj, Hf. }
  congruence.
Qed.

(** The first pass makes a double match of every mutual selection. *)
Lemma process_double_matches_mutual self buyers sellers st buyer seller :
  buyer ∈ buyers → seller ∈ sellers → mutual buyer seller = true →
  ∃ m, m ∈ all_matches (process_double_matches self buyers sellers st)
       ∧ pair_of m = (Buyer.id buyer, Seller.id seller)
       ∧ Match.match_type m = double_match ∧ Match.priority m = 1%Z.
Proof.
  intros Hb Hs Hm. unfold process_double_matches.
  set (Q := λ st', ∃ m, m ∈ all_matches st'
       ∧ pair_of m = (Buyer.id buyer, Seller.id seller)
       ∧ Match.match_type m = double_match ∧ Match.priority m = 1%Z).
  assert (Hmono : ∀ st1 st2, all_matches st1 `prefix_of` all_matches st2 → Q st1 → Q st2).
  { intros st1 st2 Hpre (m & Hin & Hrest). exists m. split; [|done].
    by eapply elem_of_prefix. }
  apply (foldl_event _ (λ _, True) Q buyer); [done| | |done|done].
  - intros st' b _ _. apply Hmono. apply foldl_extends.
    intros st'' s _. apply double_match_step_extends.
  - intros st' _.
    apply (foldl_event _ (λ _, True) Q seller); [done| | |done|done].
    + intros st'' s _ _. apply Hmono, double_match_step_extends.
    + intros st'' _. unfold double_match_step. fold (mutual buyer seller). rewrite Hm.
      eexists. split; [apply elem_of_app; right; by left|]. done.
Qed.

(** X4. A buyer and a seller of the input that selected each other are
    matched, and with unique identifiers every match of that pair is a
    double match of priority 1: a mutual selection is never left out nor
    given a lower tier. *)
Theorem double_match_kept (iter_set : list string → list string) (self : NEXOEventMatcher)
    (buyers : list Buyer.t) (sellers : list Seller.t) (buyer : Buyer.t) (seller : Seller.t)
    (ms : list Match.t) :
  NoDup (Buyer.id <$> buyers) →
  NoDup (Seller.id <$> sellers) →
  buyer ∈ buyers → seller ∈ sellers →
  mutual buyer seller = true →
  find_matches iter_set self buyers sellers = Ok ms →
  (Buyer.id buyer, Seller.id seller) ∈ pair_of <$> ms
  ∧ ∀ m, m ∈ ms → pair_of m = (Buyer.id buyer, Seller.id seller) →
         Match.match_type m = double_match ∧ Match.priority m = 1%Z.
Proof.
  intros Hndb Hnds Hb Hs Hm [-> _]%find_matches_Ok.
  destruct (generate_inv iter_set self buyers sellers Hndb Hnds) as [Hnd _].
  unfold generate in *.
  set (st0 := {| all_matches := []; buyer_meetings := init_buyer_meetings buyers |}) in *.
  destruct (process_double_matches_mutual self buyers sellers st0 buyer seller Hb Hs Hm)
    as (m & Hin & Hpair & Hty & Hpr).
  assert (Hfin : m ∈ all_matches (process_ai_suggestions self buyers sellers
                   (process_seller_choices iter_set self buyers sellers
                      (process_double_matches self buyers sellers st0)))).
  { eapply elem_of_prefix; [apply process_ai_suggestions_extends|].
    eapply elem_of_prefix; [apply process_seller_choices_extends|]. done. }
  split.
  - rewrite <- Hpair. apply list_elem_of_fmap. by exists m.
  - intros m' Hm' Hpair'.
    assert (m' = m) as ->; [|done].
    eapply (NoDup_fmap_elem_inj pair_of); [exact Hnd|done|done|congruence].
Qed.

Lemma double_match_kept_witness :
  ∃ ms,
    find_matches remove_dups init two_buyers seven_sellers = Ok ms
    ∧ ("buyer_001", "seller_006") ∈ pair_of <$> ms.
Proof.
  eexists. split; [vm_compute; reflexivity|].
  apply (double_match_kept remove_dups init two_buyers seven_sellers keen_buyer
           (keen_seller "seller_006")).
  - apply (bool_decide_unpack (NoDup (Buyer.id <$> two_buyers))). vm_compute. exact I.
  - apply (bool_decide_unpack (NoDup (Seller.id <$> seven_sellers))). vm_compute. exact I.
  - by left.
  - unfold seven_sellers, six_sellers; simpl. do 5 apply list_elem_of_further.
    apply list_elem_of_here.
  - reflexivity.
  - vm_compute. reflexivity.
Defined.




(** *** The iteration order of the sets *)

Lemma agree_refl st : agree st st.
Proof. by split. Qed.

Lemma agree_trans st1 st2 st3 : agree st1 st2 → agree st2 st3 → agree st1 st3.
Proof. intros [H1 H2] [H3 H4]. split; [congruence|by etrans]. Qed.

Lemma append_match_agree st1 st2 m :
  agree st1 st2 → agree (append_match st1 m) (append_match st2 m).
Proof.
  intros [Hbm Hall]. split; simpl; [by rewrite Hbm|by rewrite Hall].
Qed.

Lemma foldl_agree {B} (f : GenState → B → GenState) (l : list B) st1 st2 :
  (∀ sa sb x, agree sa sb → agree (f sa x) (f sb x)) →
  agree st1 st2 → agree (foldl f st1 l) (foldl f st2 l).
Proof.
  intros Hf. revert st1 st2. induction l as [|x l IH]; intros st1 st2 Hag; simpl; [done|].
  by apply IH, Hf.
Qed.

Lemma seller_choice_step_of self buyers seller st buyer_id :
  seller_choice_step self buyers seller st buyer_id
  = match seller_choice_of self buyers seller (buyer_meetings st !!! buyer_id) buyer_id with
    | Some m => append_match st m
    | None => st
    end.
Proof.
  unfold seller_choice_step, seller_choice_of.
  destruct (List.find _ buyers); [|done].
  destruct (existsb _ _); [done|]. by case_bool_decide.
Qed.

Lemma seller_choice_of_buyer self buyers seller meetings buyer_id m :
  seller_choice_of self buyers seller meetings buyer_id = Some m → Match.buyer_id m = buyer_id.
Proof.
  unfold seller_choice_of. destruct (List.find _ buyers); [|done].
  destruct (existsb _ _); [done|]. case_bool_decide; [|done]. by intros [= <-].
Qed.

Lemma seller_choice_step_agree self buyers seller st1 st2 buyer_id :
  agree st1 st2 →
  agree (seller_choice_step self buyers seller st1 buyer_id)
        (seller_choice_step self buyers seller st2 buyer_id).
Proof.
  intros Hag. rewrite !seller_choice_step_of. pose proof Hag as [Hbm _].
  rewrite Hbm. destruct (seller_choice_of _ _ _ _ _); [|done].
  by apply append_match_agree.
Qed.

Lemma append_match_other st m k :
  Match.buyer_id m ≠ k →
  buyer_meetings (append_match st m) !!! k = buyer_meetings st !!! k.
Proof. intros Hne. simpl. by rewrite lookup_total_alter_ne. Qed.

(** The steps of two different buyers of one seller commute. *)
Lemma seller_choice_step_swap self buyers seller st k1 k2 :
  k1 ≠ k2 →
  agree (seller_choice_step self buyers seller
           (seller_choice_step self buyers seller st k1) k2)
        (seller_choice_step self buyers seller
           (seller_choice_step self buyers seller st k2) k1).
Proof.
  intros Hne. rewrite (seller_choice_step_of _ _ _ st k1), (seller_choice_step_of _ _ _ st k2).
  destruct (seller_choice_of self buyers seller (buyer_meetings st !!! k1) k1)
    as [m1|] eqn:H1;
  destruct (seller_choice_of self buyers seller (buyer_meetings st !!! k2) k2)
    as [m2|] eqn:H2;
  rewrite !seller_choice_step_of.
  - pose proof (seller_choice_of_buyer _ _ _ _ _ _ H1) as Hb1.
    pose proof (seller_choice_of_buyer _ _ _ _ _ _ H2) as Hb2.
    rewrite !append_match_other by congruence. rewrite H1, H2.
    split; simpl.
    + apply alter_alter_ne. congruence.
    + rewrite <- !app_assoc. apply Permutation_app_head. simpl. apply perm_swap.
  - pose proof (seller_choice_of_buyer _ _ _ _ _ _ H1) as Hb1.
    rewrite append_match_other by congruence. rewrite H1, H2. apply agree_refl.
  - pose proof (seller_choice_of_buyer _ _ _ _ _ _ H2) as Hb2.
    rewrite append_match_other by congruence. rewrite H1, H2. apply agree_refl.
  - rewrite H1, H2. apply agree_refl.
Qed.

(** Visiting the selected buyers of a seller in another order changes at
    most the order of [all_matches]. *)
Lemma seller_choice_row_perm self buyers seller (l k : list string) :
  l ≡ₚ k → NoDup l →
  ∀ st1 st2, agree st1 st2 →
    agree (foldl (seller_choice_step self buyers seller) st1 l)
          (foldl (seller_choice_step self buyers seller) st2 k).
Proof.
  induction 1 as [|x l k Hp IH|x y l|l k j Hp1 IH1 Hp2 IH2]; intros Hnd st1 st2 Hag.
  - done.
  - simpl. apply NoDup_cons in Hnd as [_ Hnd]. apply IH; [done|].
    by apply seller_choice_step_agree.
  - simpl. apply NoDup_cons in Hnd as [Hy Hnd].
    apply foldl_agree; [intros; by apply seller_choice_step_agree|].
    eapply agree_trans; [|apply seller_choice_step_swap].
    + by do 2 apply seller_choice_step_agree.
    + intros ->. apply Hy. by left.
  - eapply agree_trans; [by apply IH1|].
    apply IH2; [by rewrite <- Hp1|apply agree_refl].
Qed.

Lemma ai_step_agree self sellers st1 st2 buyer :
  agree st1 st2 → agree (ai_step self sellers st1 buyer) (ai_step self sellers st2 buyer).
Proof.
  intros Hag. unfold ai_step, ai_candidates. pose proof Hag as [Hbm _].
  rewrite Hbm. case_bool_decide; [|done].
  apply foldl_agree; [|done]. intros sa sb c Hab. by apply append_match_agree.
Qed.

Lemma process_seller_choices_agree iter1 iter2 self buyers sellers st1 st2 :
  SetOrder iter1 → SetOrder iter2 →
  agree st1 st2 →
  agree (process_seller_choices iter1 self buyers sellers st1)
        (process_seller_choices iter2 self buyers sellers st2).
Proof.
  intros H1 H2. unfold process_seller_choices. revert st1 st2.
  induction sellers as [|seller sellers IH]; intros st1 st2 Hag; simpl; [done|].
  apply IH. apply seller_choice_row_perm; [|apply H1|done].
  apply NoDup_Permutation; [apply H1|apply H2|].
  intros x. by rewrite (proj2 (H1 _)), (proj2 (H2 _)).
Qed.

Lemma generate_agree iter1 iter2 self buyers sellers :
  SetOrder iter1 → SetOrder iter2 →
  agree (generate iter1 self buyers sellers) (generate iter2 self buyers sellers).
Proof.
  intros H1 H2. unfold generate, process_ai_suggestions.
  apply foldl_agree; [intros; by apply ai_step_agree|].
  apply process_seller_choices_agree; [done|done|apply agree_refl].
Qed.

(** X6. The order in which Python iterates over the sets of selected
    buyers does not change the outcome of [find_matches]: whether it
    raises, and which matches it returns; only their order in the list can
    differ. *)
Theorem set_order_irrelevant (iter1 iter2 : list string → list string)
    (self : NEXOEventMatcher) (buyers : list Buyer.t) (sellers : list Seller.t) :
  SetOrder iter1 → SetOrder iter2 →
  match find_matches iter1 self buyers sellers, find_matches iter2 self buyers sellers with
  | Ok ms1, Ok ms2 => ms1 ≡ₚ ms2
  | Raise e1, Raise e2 => e1 = e2
  | _, _ => False
  end.
Proof.
  intros H1 H2. rewrite !find_matches_result.
  destruct (generate_agree iter1 iter2 self buyers sellers H1 H2) as [_ Hperm].
  destruct (all_matches (generate iter1 self buyers sellers)) as [|m1 ms1];
    destruct (all_matches (generate iter2 self buyers sellers)) as [|m2 ms2]; try done.
  - by apply Permutation_nil_cons in Hperm.
  - symmetry in Hperm. by apply Permutation_nil_cons in Hperm.
Qed.

Lemma SetOrder_reversed_order : SetOrder reversed_order.
Proof.
  intros l. unfold reversed_order. split.
  - rewrite reverse_Permutation. apply NoDup_remove_dups.
  - intros x. by rewrite elem_of_reverse, elem_of_remove_dups.
Qed.

Lemma set_order_irrelevant_witness :
  ∃ ms1 ms2,
    find_matches remove_dups init two_buyers [eager_seller] = Ok ms1
    ∧ find_matches reversed_order init two_buyers [eager_seller] = Ok ms2
    ∧ pair_of <$> ms1 = [("buyer_002", "seller_008"); ("buyer_001", "seller_008")]
    ∧ pair_of <$> ms2 = [("buyer_001", "seller_008"); ("buyer_002", "seller_008")]
    ∧ ms1 ≡ₚ ms2.
Proof.
  eexists _, _. split; [vm_compute; reflexivity|]. split; [vm_compute; reflexivity|].
  split; [reflexivity|]. split; [reflexivity|].
  pose proof (set_order_irrelevant remove_dups reversed_order init two_buyers [eager_seller]
                SetOrder_remove_dups SetOrder_reversed_order) as H.
  vm_compute in H. exact H.
Defined.

(** *** The AI suggestions are the best available *)

Lemma foldl_ai_match_all buyer cands st :
  all_matches (foldl (ai_match buyer) st cands)
  = all_matches st ++ (ai_record buyer <$> cands).
Proof.
  revert st. induction cands as [|c cands IH]; intros st; simpl.
  - by rewrite app_nil_r.
  - rewrite IH. simpl. by rewrite <- app_assoc.
Qed.

Lemma StronglySorted_app_order {A} (R : A → A → Prop) (l1 l2 : list A) x y :
  StronglySorted R (l1 ++ l2) → x ∈ l1 → y ∈ l2 → R x y.
Proof.
  induction l1 as [|a l1 IH]; simpl; intros Hs Hx Hy; [by apply elem_of_nil in Hx|].
  apply StronglySorted_inv in Hs as [Hs Hall].
  apply elem_of_cons in Hx as [->|Hx]; [|by apply IH].
  rewrite Forall_forall in Hall. apply Hall, elem_of_app. by right.
Qed.

Lemma scored_sorted_desc (l : list (Seller.t * Q)) :
  StronglySorted (λ x y, (y.2 <= x.2)%Q) (stable_sort (λ x y, Qle_bool y.2 x.2) l).
Proof.
  apply stable_sort_sorted.
  - intros x y H. by apply Qle_bool_iff.
  - intros x y H. destruct (Qlt_le_dec x.2 y.2) as [Hlt|Hle]; [by apply Qlt_le_weak|].
    apply Qle_bool_iff in Hle. congruence.
  - intros x y z Hxy Hyz. by eapply Qle_trans.
Qed.

(** One buyer's turn in the third pass: the sellers taken score at least
    as much as the available sellers left. *)
Lemma ai_candidates_best self sellers st buyer c seller :
  c ∈ ai_candidates self sellers st buyer →
  seller ∈ sellers →
  Seller.id seller ∉ Match.seller_id <$> buyer_meetings st !!! Buyer.id buyer →
  (seller, calculate_compatibility_score self buyer seller)
    ∉ ai_candidates self sellers st buyer →
  (calculate_compatibility_score self buyer seller <= c.2)%Q.
Proof.
  unfold ai_candidates.
  set (matched := list_to_set _ : gset string).
  set (available := filter (λ s, Seller.id s ∉ matched) sellers).
  set (scored := (λ seller, (seller, calculate_compatibility_score self buyer seller))
                   <$> available).
  set (sorted := stable_sort _ scored).
  set (n := (5 - _)%nat).
  intros Hc Hs Hfree Hleft.
  assert (Hin : (seller, calculate_compatibility_score self buyer seller) ∈ sorted).
  { unfold sorted. rewrite stable_sort_perm. apply list_elem_of_fmap. exists seller.
    split; [done|]. apply list_elem_of_filter. split; [|done].
    unfold matched. by rewrite elem_of_list_to_set. }
  rewrite <- (take_drop n sorted) in Hin. apply elem_of_app in Hin as [Hin|Hin]; [done|].
  pose proof (scored_sorted_desc scored) as Hsorted. fold sorted in Hsorted.
  rewrite <- (take_drop n sorted) in Hsorted.
  exact (StronglySorted_app_order _ _ _ _ _ Hsorted Hc Hin).
Qed.

Lemma no_ai_before_third_pass iter_set self buyers sellers :
  Forall (λ m, Match.match_type m ≠ ai_suggestion)
    (all_matches (process_seller_choices iter_set self buyers sellers
       (process_double_matches self buyers sellers
          {| all_matches := []; buyer_meetings := init_buyer_meetings buyers |}))).
Proof.
  unfold process_seller_choices, process_double_matches.
  apply (foldl_preserves _ (λ st, Forall (λ m, Match.match_type m ≠ ai_suggestion)
                                    (all_matches st))).
  { intros st seller _ Hst.
    apply (foldl_preserves _ (λ st, Forall (λ m, Match.match_type m ≠ ai_suggestion)
                                      (all_matches st))); [|done].
    intros st' k _ Hst'. unfold seller_choice_step.
    destruct (List.find _ _); [|done]. destruct (existsb _ _); [done|].
    case_bool_decide; [|done]. simpl. apply Forall_app. split; [done|].
    by constructor. }
  apply (foldl_preserves _ (λ st, Forall (λ m, Match.match_type m ≠ ai_suggestion)
                                    (all_matches st))).
  { intros st buyer _ Hst.
    apply (foldl_preserves _ (λ st, Forall (λ m, Match.match_type m ≠ ai_suggestion)
                                      (all_matches st))); [|done].
    intros st' seller _ Hst'. unfold double_match_step.
    destruct (_ && _); [|done]. simpl. apply Forall_app. split; [done|].
    by constructor. }
  constructor.
Qed.

Lemma generate_best_first iter_set self buyers sellers :
  NoDup (Buyer.id <$> buyers) →
  NoDup (Seller.id <$> sellers) →
  best_first self buyers sellers (all_matches (generate iter_set self buyers sellers)).
Proof.
  intros Hndb Hnds. unfold generate, process_ai_suggestions.
  set (st2 := process_seller_choices iter_set self buyers sellers _).
  assert (Hinv2 : gen_inv buyers st2).
  { apply process_seller_choices_inv, process_double_matches_inv;
      [done|done|apply gen_inv_init|done]. }
  pose proof (no_ai_before_third_pass iter_set self buyers sellers) as Hno.
  fold st2 in Hno. rewrite Forall_forall in Hno.
  pose (P := λ (seen : list Buyer.t) st,
    gen_inv buyers st
    ∧ (∀ m, m ∈ all_matches st → Match.match_type m = ai_suggestion →
            Match.buyer_id m ∈ Buyer.id <$> seen)
    ∧ best_first self buyers sellers (all_matches st)).
  enough (P buyers (foldl (ai_step self sellers) st2 buyers)) as (_ & _ & H) by exact H.
  apply foldl_invariant.
  - split; [done|]. split.
    + intros m Hm Hty. by destruct (Hno m Hm).
    + intros buyer seller m _ _ Hm Hty. by destruct (Hno m Hm).
  - intros seen b rest st Hsplit (Hinv & Hseen & Hbest).
    assert (Hb : b ∈ buyers).
    { rewrite Hsplit. apply elem_of_app. right. by left. }
    assert (Hfresh : Buyer.id b ∉ Buyer.id <$> seen).
    { rewrite Hsplit, fmap_app, fmap_cons in Hndb.
      apply NoDup_app in Hndb as (_ & Hdisj & _).
      intros Hin. apply (Hdisj _ Hin). by left. }
    split; [by apply ai_step_inv|].
    unfold ai_step. case_bool_decide as Hroom.
    2:{ split; [|done]. intros m Hm Hty. rewrite fmap_app. apply elem_of_app.
        left. by apply Hseen. }
    rewrite foldl_ai_match_all.
    set (cands := ai_candidates self sellers st b). split.
    + intros m [Hm|Hm]%elem_of_app Hty; rewrite fmap_app; apply elem_of_app.
      * left. by apply Hseen.
      * right. apply list_elem_of_fmap in Hm as (c & -> & _). simpl. by left.
    + intros buyer seller m Hbuyer Hseller [Hm|Hm]%elem_of_app Hty Hid Hun.
      * apply (Hbest buyer seller m); try done.
        intros Hp. apply Hun. rewrite fmap_app. apply elem_of_app. by left.
      * apply list_elem_of_fmap in Hm as (c & -> & Hc). simpl in *.
        assert (buyer = b) as ->.
        { apply (NoDup_fmap_elem_inj Buyer.id buyers); done. }
        apply (ai_candidates_best self sellers st b c seller); [done|done| |].
        -- intros (m' & Hsid & Hm')%list_elem_of_fmap. apply Hun.
           rewrite fmap_app. apply elem_of_app. left.
           destruct Hinv as (_ & Hbm & _). rewrite Hbm in Hm'.
           apply list_elem_of_filter in Hm' as [Hmb Hm'].
           apply pair_in_matches. by exists m'.
        -- intros Hc'. apply Hun. rewrite fmap_app. apply elem_of_app. right.
           apply list_elem_of_fmap.
           exists (ai_record b (seller, calculate_compatibility_score self b seller)).
           split; [done|]. apply list_elem_of_fmap. by eexists.
Qed.

(** X7. With unique identifiers, the AI suggestions of a buyer are its
    best remaining sellers: a seller of the input left unmatched with the
    buyer never scores more with it than any of the buyer's AI
    suggestions. *)
Theorem ai_suggestions_best_first (iter_set : list string → list string)
    (self : NEXOEventMatcher) (buyers : list Buyer.t) (sellers : list Seller.t)
    (ms : list Match.t) (buyer : Buyer.t) (seller : Seller.t) (m : Match.t) :
  NoDup (Buyer.id <$> buyers) →
  NoDup (Seller.id <$> sellers) →
  find_matches iter_set self buyers sellers = Ok ms →
  buyer ∈ buyers → seller ∈ sellers → m ∈ ms →
  Match.match_type m = ai_suggestion →
  Match.buyer_id m = Buyer.id buyer →
  (Buyer.id buyer, Seller.id seller) ∉ pair_of <$> ms →
  (calculate_compatibility_score self buyer seller <= Match.compatibility_score m)%Q.
Proof.
  intros Hndb Hnds [-> _]%find_matches_Ok Hb Hs Hm Hty Hid Hun.
  by apply (generate_best_first iter_set self buyers sellers Hndb Hnds buyer seller m).
Qed.

Lemma ai_suggestions_best_first_witness :
  ∃ ms m,
    find_matches remove_dups init [picky_buyer] seven_shops = Ok ms
    ∧ Match.seller_id <$> ms = ["s2"; "s4"; "s6"; "s1"; "s3"]
    ∧ ms !! 4%nat = Some m
    ∧ (calculate_compatibility_score init picky_buyer (shop "s7" ["Nutrition"])
       <= Match.compatibility_score m)%Q.
Proof.
  eexists _, _. split; [vm_compute; reflexivity|]. split; [reflexivity|].
  split; [reflexivity|].
  eapply (ai_suggestions_best_first remove_dups init [picky_buyer] seven_shops).
  - apply (bool_decide_unpack (NoDup (Buyer.id <$> [picky_buyer]))). vm_compute. exact I.
  - apply (bool_decide_unpack (NoDup (Seller.id <$> seven_shops))). vm_compute. exact I.
  - vm_compute. reflexivity.
  - by left.
  - unfold seven_shops. do 6 apply list_elem_of_further. apply list_elem_of_here.
  - do 4 apply list_elem_of_further. apply list_elem_of_here.
  - reflexivity.
  - reflexivity.
  - apply (bool_decide_unpack (("buyer_009", "s7") ∉ _)). vm_compute. exact I.
Defined.

(** * Further properties of the scheduler *)

Lemma create_schedule_greedy_fst matches buyers sellers time_slots :
  create_schedule matches buyers sellers time_slots
  = (greedy_first_fit time_slots [] (stable_sort match_le matches)).1.
Proof.
  unfold create_schedule. by rewrite <- run_schedule_greedy.
Qed.

Lemma processed_greedy_snd matches time_slots :
  processed (run_schedule matches time_slots)
  = (greedy_first_fit time_slots [] (stable_sort match_le matches)).2.
Proof. by rewrite <- run_schedule_greedy. Qed.

Lemma greedy_first_fit_origin time_slots ordered meetings :
  Forall (λ mt, mt ∈ meetings
                ∨ ∃ m time_slot, m ∈ ordered ∧ time_slot ∈ time_slots
                                 ∧ mt = meeting_of m time_slot)
         (greedy_first_fit time_slots meetings ordered).1.
Proof.
  revert meetings. induction ordered as [|m rest IH]; intros meetings; simpl.
  - apply Forall_forall. by left.
  - destruct (List.find _ time_slots) as [time_slot|] eqn:Hfind.
    + specialize (IH (meetings ++ [meeting_of m time_slot])).
      destruct (greedy_first_fit _ _ rest) as [placed marks]. simpl in *.
      eapply Forall_impl; [exact IH|]. intros mt [Hin|(m' & ts & Hm' & Hts & ->)].
      * apply elem_of_app in Hin as [Hin | ->%list_elem_of_singleton]; [by left|].
        right. exists m, time_slot. split; [by left|]. split; [|done].
        apply find_some in Hfind as [Hin _]. by apply list_elem_of_In.
      * right. exists m', ts. split; [by right|done].
    + specialize (IH meetings).
      destruct (greedy_first_fit _ _ rest) as [placed marks]. simpl in *.
      eapply Forall_impl; [exact IH|]. intros mt [Hin|(m' & ts & Hm' & Hts & ->)].
      * by left.
      * right. exists m', ts. split; [by right|done].
Qed.

Lemma greedy_first_fit_length time_slots ordered meetings :
  (length (greedy_first_fit time_slots meetings ordered).1
   ≤ length meetings + length ordered)%nat
  ∧ length (greedy_first_fit time_slots meetings ordered).2 = length ordered.
Proof.
  revert meetings. induction ordered as [|m rest IH]; intros meetings; simpl.
  - split; [lia|done].
  - destruct (List.find _ time_slots) as [time_slot|].
    + specialize (IH (meetings ++ [meeting_of m time_slot])).
      destruct (greedy_first_fit _ _ rest) as [placed marks]. simpl in *.
      rewrite length_app in IH. simpl in IH. split; [lia|]. f_equal. apply IH.
    + specialize (IH meetings).
      destruct (greedy_first_fit _ _ rest) as [placed marks]. simpl in *.
      split; [lia|]. f_equal. apply IH.
Qed.

(** X8. Every meeting returned by [create_schedule] is built from one
    match of the input and one slot of [time_slots] (participants, type,
    score and priority copied from the match; identifier, date, time and
    duration from the slot), and there are no more meetings than
    matches. *)
Theorem meetings_come_from_matches (matches : list Match.t) (buyers : list Buyer.t)
    (sellers : list Seller.t) (time_slots : list TimeSlot.t) :
  Forall (λ mt, ∃ m time_slot, m ∈ matches ∧ time_slot ∈ time_slots
                               ∧ mt = meeting_of m time_slot)
         (create_schedule matches buyers sellers time_slots)
  ∧ (length (create_schedule matches buyers sellers time_slots) ≤ length matches)%nat.
Proof.
  rewrite create_schedule_greedy_fst. split.
  - eapply Forall_impl; [apply greedy_first_fit_origin|].
    intros mt [Hin|(m & ts & Hm & Hts & ->)]; [by apply elem_of_nil in Hin|].
    exists m, ts. split; [|done]. by rewrite <- (stable_sort_perm match_le matches).
  - destruct (greedy_first_fit_length time_slots (stable_sort match_le matches) [])
      as [Hle _].
    simpl in Hle. by rewrite (Permutation_length (stable_sort_perm match_le matches)) in Hle.
Qed.

Lemma greedy_first_fit_marks time_slots ordered meetings :
  Forall (λ m, Match.meeting_scheduled m = false) ordered →
  meeting_triple <$> (greedy_first_fit time_slots meetings ordered).1
  = (meeting_triple <$> meetings)
    ++ omap scheduled_triple (greedy_first_fit time_slots meetings ordered).2.
Proof.
  revert meetings. induction ordered as [|m rest IH]; intros meetings Hfresh; simpl.
  - by rewrite app_nil_r.
  - apply Forall_cons in Hfresh as [Hm Hrest].
    destruct (List.find _ time_slots) as [time_slot|].
    + specialize (IH (meetings ++ [meeting_of m time_slot]) Hrest).
      destruct (greedy_first_fit _ _ rest) as [placed marks]. simpl in *.
      rewrite IH, fmap_app, <- app_assoc. done.
    + specialize (IH meetings Hrest).
      destruct (greedy_first_fit _ _ rest) as [placed marks]. simpl in *.
      rewrite IH. unfold scheduled_triple at 2. by rewrite Hm.
Qed.

(** X9. When no match of the input is marked scheduled beforehand, the
    meetings correspond one to one, in order, to the matches that the run
    leaves marked: same buyer, same seller, and the slot recorded in the
    match; every match of the input is visited once. *)
Theorem scheduled_matches_mirror_meetings (matches : list Match.t)
    (buyers : list Buyer.t) (sellers : list Seller.t) (time_slots : list TimeSlot.t) :
  Forall (λ m, Match.meeting_scheduled m = false) matches →
  meeting_triple <$> create_schedule matches buyers sellers time_slots
  = omap scheduled_triple (processed (run_schedule matches time_slots))
  ∧ length (processed (run_schedule matches time_slots)) = length matches.
Proof.
  intros Hfresh. rewrite create_schedule_greedy_fst, processed_greedy_snd. split.
  - rewrite greedy_first_fit_marks; [done|].
    by rewrite (stable_sort_perm match_le matches).
  - destruct (greedy_first_fit_length time_slots (stable_sort match_le matches) [])
      as [_ Hlen].
    by rewrite Hlen, (Permutation_length (stable_sort_perm match_le matches)).
Qed.

Lemma scheduled_matches_mirror_meetings_witness :
  Forall (λ m, Match.meeting_scheduled m = false) three_matches
  ∧ meeting_triple <$> create_schedule three_matches [] [] [slot_001]
    = [("buyer_001", "seller_001", "slot_001")]
  ∧ omap scheduled_triple (processed (run_schedule three_matches [slot_001]))
    = [("buyer_001", "seller_001", "slot_001")].
Proof.
  assert (Hfresh : Forall (λ m, Match.meeting_scheduled m = false) three_matches)
    by (repeat constructor).
  split; [exact Hfresh|]. split; [reflexivity|].
  destruct (scheduled_matches_mirror_meetings three_matches [] [] [slot_001] Hfresh)
    as [<- _].
  reflexivity.
Defined.

(** *** Enough slots for every match *)

Lemma filter_length_cover {A} (P Q R : A → Prop)
    `{!∀ x, Decision (P x), !∀ x, Decision (Q x), !∀ x, Decision (R x)} (l : list A) :
  (∀ x, x ∈ l → P x → Q x ∨ R x) →
  (length (filter P l) ≤ length (filter Q l) + length (filter R l))%nat.
Proof.
  induction l as [|x l IH]; intros Hcover; [done|].
  assert (IH' : (length (filter P l) ≤ length (filter Q l) + length (filter R l))%nat).
  { apply IH. intros y Hy. apply Hcover. by right. }
  rewrite !filter_cons.
  destruct (decide (P x)) as [Hp|]; destruct (decide (Q x)); destruct (decide (R x));
    simpl; try lia.
  destruct (Hcover x ltac:(by left) Hp); done.
Qed.

Lemma filter_length_none {A} (P : A → Prop) `{!∀ x, Decision (P x)} (l : list A) :
  (∀ x, x ∈ l → ¬ P x) → length (filter P l) = 0%nat.
Proof.
  induction l as [|x l IH]; intros Hno; [done|].
  rewrite filter_cons, decide_False by (apply Hno; by left).
  apply IH. intros y Hy. apply Hno. by right.
Qed.

Lemma filter_length_at_most_one {A B} `{!EqDecision B} (f : A → B) (v : B) (l : list A) :
  NoDup (f <$> l) → (length (filter (λ x, f x = v) l) ≤ 1)%nat.
Proof.
  induction l as [|x l IH]; intros Hnd; [simpl; lia|].
  rewrite fmap_cons in Hnd. apply NoDup_cons in Hnd as [Hx Hnd].
  rewrite filter_cons. destruct (decide (f x = v)) as [<-|]; [|by apply IH].
  simpl. rewrite filter_length_none; [lia|].
  intros y Hy Heq. apply Hx. apply list_elem_of_fmap. by exists y.
Qed.

(** The slots that a participant holds are no more than its meetings;
    [g] is the projection to the buyer or to the seller. *)
Lemma busy_bound (g : Meeting.t → string) (time_slots : list TimeSlot.t) meetings k :
  NoDup (TimeSlot.id <$> time_slots) →
  (length (filter (λ t,
       existsb (λ mt, bool_decide (g mt = k)
                      && bool_decide (Meeting.time_slot mt = TimeSlot.id t)) meetings = true)
     time_slots)
   ≤ length (filter (λ mt, g mt = k) meetings))%nat.
Proof.
  intros Hnd. induction meetings as [|mt meetings IH].
  - simpl. rewrite filter_length_none; [done|]. by intros t _ ?.
  - etrans; [apply (filter_length_cover _
      (λ t, TimeSlot.id t = Meeting.time_slot mt ∧ g mt = k)
      (λ t, existsb (λ mt, bool_decide (g mt = k)
                           && bool_decide (Meeting.time_slot mt = TimeSlot.id t))
              meetings = true))|].
    + intros t _. simpl. intros [[H1 H2]%andb_true_iff|H]%orb_true_iff; [left|by right].
      apply bool_decide_eq_true in H1, H2. done.
    + rewrite filter_cons. destruct (decide (g mt = k)) as [Hk|Hk]; simpl.
      * pose proof (filter_length_at_most_one TimeSlot.id (Meeting.time_slot mt)
                      time_slots Hnd) as H1.
        pose proof (filter_length_cover
          (λ t, TimeSlot.id t = Meeting.time_slot mt ∧ g mt = k)
          (λ t, TimeSlot.id t = Meeting.time_slot mt) (λ _, False) time_slots) as H2.
        rewrite (filter_length_none (λ _, False)) in H2 by (by intros t _ ?).
        specialize (H2 ltac:(intros t _ [H _]; by left)). lia.
      * rewrite filter_length_none; [exact IH|]. by intros t _ [_ ?].
Qed.

(** A match finds a slot when its two participants hold fewer meetings,
    together, than there are slots. *)
Lemma free_slot_exists (time_slots : list TimeSlot.t) meetings m :
  NoDup (TimeSlot.id <$> time_slots) →
  (buyer_load (Match.buyer_id m) meetings + seller_load (Match.seller_id m) meetings
   < length time_slots)%nat →
  ∃ time_slot, List.find (slot_free meetings m) time_slots = Some time_slot.
Proof.
  intros Hnd Hlt. pose proof (find_first (slot_free meetings m) time_slots) as Hf.
  destruct (List.find _ time_slots) as [ts|]; [by exists ts|].
  exfalso. rewrite Forall_forall in Hf.
  pose proof (busy_bound Meeting.buyer_id time_slots meetings (Match.buyer_id m) Hnd) as Hb.
  pose proof (busy_bound Meeting.seller_id time_slots meetings (Match.seller_id m) Hnd)
    as Hs.
  pose proof (filter_length_cover (λ _ : TimeSlot.t, True)
    (λ t, buyer_holds meetings (Match.buyer_id m) (TimeSlot.id t) = true)
    (λ t, seller_holds meetings (Match.seller_id m) (TimeSlot.id t) = true) time_slots)
    as Hcover.
  assert (Hall : length (filter (λ _ : TimeSlot.t, True) time_slots) = length time_slots).
  { clear. induction time_slots as [|t l IH]; [done|].
    rewrite filter_cons_True by done. simpl. by rewrite IH. }
  rewrite Hall in Hcover. unfold buyer_load, seller_load in Hlt.
  unfold buyer_holds, seller_holds in Hcover.
  enough (length time_slots
    ≤ length (filter (λ t, existsb (λ mt, bool_decide (Meeting.buyer_id mt = Match.buyer_id m)
                && bool_decide (Meeting.time_slot mt = TimeSlot.id t)) meetings = true)
                time_slots)
      + length (filter (λ t, existsb (λ mt,
                bool_decide (Meeting.seller_id mt = Match.seller_id m)
                && bool_decide (Meeting.time_slot mt = TimeSlot.id t)) meetings = true)
                time_slots))%nat by lia.
  apply Hcover. intros t Hin _. specialize (Hf t Hin). unfold slot_free in Hf.
  apply andb_false_iff in Hf as [Hf|Hf]; apply negb_false_iff in Hf; [by left|by right].
Qed.

Lemma buyer_load_snoc b meetings mt :
  buyer_load b (meetings ++ [mt])
  = (buyer_load b meetings + if decide (Meeting.buyer_id mt = b) then 1 else 0)%nat.
Proof.
  unfold buyer_load. rewrite filter_app, length_app. f_equal.
  destruct (decide _); [by rewrite filter_cons_True|by rewrite filter_cons_False].
Qed.

Lemma seller_load_snoc k meetings mt :
  seller_load k (meetings ++ [mt])
  = (seller_load k meetings + if decide (Meeting.seller_id mt = k) then 1 else 0)%nat.
Proof.
  unfold seller_load. rewrite filter_app, length_app. f_equal.
  destruct (decide _); [by rewrite filter_cons_True|by rewrite filter_cons_False].
Qed.

Lemma matches_of_buyer_cons k m ms :
  matches_of_buyer k (m :: ms)
  = ((if decide (Match.buyer_id m = k) then 1 else 0) + matches_of_buyer k ms)%nat.
Proof.
  unfold matches_of_buyer. rewrite filter_cons. by destruct (decide _).
Qed.

Lemma matches_of_seller_cons k m ms :
  matches_of_seller k (m :: ms)
  = ((if decide (Match.seller_id m = k) then 1 else 0) + matches_of_seller k ms)%nat.
Proof.
  unfold matches_of_seller. rewrite filter_cons. by destruct (decide _).
Qed.

Lemma greedy_first_fit_all_placed time_slots ordered meetings :
  NoDup (TimeSlot.id <$> time_slots) →
  (∀ m, m ∈ ordered →
     (buyer_load (Match.buyer_id m) meetings + matches_of_buyer (Match.buyer_id m) ordered
      + (seller_load (Match.seller_id m) meetings
         + matches_of_seller (Match.seller_id m) ordered)
      ≤ length time_slots + 1)%nat) →
  length (greedy_first_fit time_slots meetings ordered).1
  = (length meetings + length ordered)%nat
  ∧ Forall (λ m, Match.meeting_scheduled m = true)
      (greedy_first_fit time_slots meetings ordered).2.
Proof.
  intros Hnd. revert meetings.
  induction ordered as [|m rest IH]; intros meetings Hroom; simpl.
  - split; [lia|constructor].
  - destruct (free_slot_exists time_slots meetings m Hnd) as [ts ->].
    { specialize (Hroom m ltac:(by left)).
      rewrite matches_of_buyer_cons, matches_of_seller_cons, !decide_True in Hroom by done.
      lia. }
    specialize (IH (meetings ++ [meeting_of m ts])).
    destruct (greedy_first_fit _ _ rest) as [placed marks]. simpl in *.
    destruct IH as [Hlen Hmarks].
    { intros m' Hm'. specialize (Hroom m' ltac:(by right)).
      rewrite matches_of_buyer_cons, matches_of_seller_cons in Hroom.
      rewrite buyer_load_snoc, seller_load_snoc. simpl.
      destruct (decide (Match.buyer_id m = Match.buyer_id m'));
        destruct (decide (Match.seller_id m = Match.seller_id m')); lia. }
    split; [rewrite Hlen, length_app; simpl; lia|]. by constructor.
Qed.

(** X10. With unique slot identifiers, when for every match the number of
    matches of its buyer plus the number of matches of its seller is at
    most the number of slots plus one, every match gets a meeting and is
    marked scheduled. *)
Theorem enough_slots_schedule_all (matches : list Match.t) (buyers : list Buyer.t)
    (sellers : list Seller.t) (time_slots : list TimeSlot.t) :
  NoDup (TimeSlot.id <$> time_slots) →
  (∀ m, m ∈ matches →
     (matches_of_buyer (Match.buyer_id m) matches
      + matches_of_seller (Match.seller_id m) matches ≤ length time_slots + 1)%nat) →
  length (create_schedule matches buyers sellers time_slots) = length matches
  ∧ Forall (λ m, Match.meeting_scheduled m = true)
      (processed (run_schedule matches time_slots)).
Proof.
  intros Hnd Hroom. rewrite create_schedule_greedy_fst, processed_greedy_snd.
  pose proof (stable_sort_perm match_le matches) as Hperm.
  destruct (greedy_first_fit_all_placed time_slots (stable_sort match_le matches) [] Hnd)
    as [Hlen Hmarks].
  { intros m Hm. rewrite Hperm in Hm. specialize (Hroom m Hm).
    unfold matches_of_buyer, matches_of_seller in *. rewrite !Hperm.
    unfold buyer_load, seller_load. simpl. lia. }
  split; [|done]. rewrite Hlen. simpl. by rewrite Hperm.
Qed.

Lemma enough_slots_schedule_all_witness :
  NoDup (TimeSlot.id <$> [slot_001; slot_002; slot_003])
  ∧ length (create_schedule three_matches [] [] [slot_001; slot_002; slot_003]) = 3%nat.
Proof.
  assert (Hnd : NoDup (TimeSlot.id <$> [slot_001; slot_002; slot_003])).
  { apply (bool_decide_unpack (NoDup (TimeSlot.id <$> [slot_001; slot_002; slot_003]))).
    vm_compute. exact I. }
  split; [exact Hnd|].
  apply (enough_slots_schedule_all three_matches [] [] [slot_001; slot_002; slot_003] Hnd).
  intros m Hm. unfold three_matches in Hm.
  repeat (apply elem_of_cons in Hm as [->|Hm]); [vm_compute; lia..|].
  by apply elem_of_nil in Hm.
Defined.

(** *** Load of a participant and order of the meetings *)

Lemma slots_of_participant_NoDup (g : Meeting.t → string) (meetings : list Meeting.t) k :
  NoDup ((λ mt, (Meeting.time_slot mt, g mt)) <$> meetings) →
  NoDup (Meeting.time_slot <$> filter (λ mt, g mt = k) meetings).
Proof.
  intros Hnd. apply (NoDup_fmap_1 (λ s, (s, k))). rewrite <- list_fmap_compose.
  eapply sublist_NoDup; [exact Hnd|].
  erewrite (list_fmap_ext _ (λ mt, (Meeting.time_slot mt, g mt))).
  - apply fmap_sublist, sublist_filter.
  - intros i mt Hmt. apply list_elem_of_lookup_2, list_elem_of_filter in Hmt as [<- _].
    done.
Qed.

Lemma participant_load_bound (g : Meeting.t → string) matches buyers sellers time_slots k :
  NoDup ((λ mt, (Meeting.time_slot mt, g mt))
           <$> create_schedule matches buyers sellers time_slots) →
  (length (filter (λ mt, g mt = k) (create_schedule matches buyers sellers time_slots))
   ≤ length time_slots)%nat.
Proof.
  intros Hnd.
  rewrite <- (length_fmap Meeting.time_slot), <- (length_fmap TimeSlot.id time_slots).
  apply submseteq_length, NoDup_submseteq; [by apply slots_of_participant_NoDup|].
  intros x (mt & -> & Hmt)%list_elem_of_fmap.
  apply list_elem_of_filter in Hmt as [_ Hmt].
  rewrite create_schedule_greedy_fst in Hmt.
  pose proof (greedy_first_fit_origin time_slots (stable_sort match_le matches) []) as Ho.
  rewrite Forall_forall in Ho.
  destruct (Ho mt Hmt) as [Hin|(m & ts & _ & Hts & ->)]; [by apply elem_of_nil in Hin|].
  simpl. apply list_elem_of_fmap. by exists ts.
Qed.

(** X11. Whatever the matches, no buyer and no seller gets more meetings
    than there are time slots. *)
Theorem participant_meeting_bound (matches : list Match.t) (buyers : list Buyer.t)
    (sellers : list Seller.t) (time_slots : list TimeSlot.t) (b k : string) :
  (buyer_load b (create_schedule matches buyers sellers time_slots)
   ≤ length time_slots)%nat
  ∧ (seller_load k (create_schedule matches buyers sellers time_slots)
     ≤ length time_slots)%nat.
Proof.
  destruct (create_schedule_conflict_free matches buyers sellers time_slots) as [Hb Hs].
  split.
  - by apply (participant_load_bound Meeting.buyer_id).
  - by apply (participant_load_bound Meeting.seller_id).
Qed.

Lemma StronglySorted_snoc {A} (R : A → A → Prop) (l : list A) (y : A) :
  StronglySorted R l → Forall (λ x, R x y) l → StronglySorted R (l ++ [y]).
Proof.
  induction 1 as [|x l Hs IH Hx]; intros Hy; simpl.
  - repeat constructor.
  - apply Forall_cons in Hy as [Hxy Hy]. constructor; [by apply IH|].
    apply Forall_app. split; [done|]. by constructor.
Qed.

Lemma greedy_first_fit_ranked time_slots ordered meetings :
  StronglySorted ranks_before ordered →
  StronglySorted meeting_ranks_before meetings →
  (∀ mt m, mt ∈ meetings → m ∈ ordered →
     (Meeting.priority mt < Match.priority m)%Z
     ∨ (Meeting.priority mt = Match.priority m
        ∧ (Match.compatibility_score m <= Meeting.compatibility_score mt)%Q)) →
  StronglySorted meeting_ranks_before (greedy_first_fit time_slots meetings ordered).1.
Proof.
  revert meetings. induction ordered as [|m rest IH]; intros meetings Hord Hms Hcross;
    simpl; [done|].
  apply StronglySorted_inv in Hord as [Hrest Hm]. rewrite Forall_forall in Hm.
  destruct (List.find _ time_slots) as [ts|].
  - specialize (IH (meetings ++ [meeting_of m ts]) Hrest).
    destruct (greedy_first_fit _ _ rest) as [placed marks]. simpl in *.
    apply IH.
    + apply StronglySorted_snoc; [done|]. apply Forall_forall. intros mt Hmt.
      apply (Hcross mt m Hmt). by left.
    + intros mt m' [Hmt | ->%list_elem_of_singleton]%elem_of_app Hm'.
      * apply Hcross; [done|by right].
      * by apply Hm.
  - specialize (IH meetings Hrest Hms).
    destruct (greedy_first_fit _ _ rest) as [placed marks]. simpl in *.
    apply IH. intros mt m' Hmt Hm'. apply Hcross; [done|by right].
Qed.

(** X12. The meeting list is returned in the order of the visit, not in
    the order of the clock: priority ascending, then compatibility score
    descending. *)
Theorem meetings_in_rank_order (matches : list Match.t) (buyers : list Buyer.t)
    (sellers : list Seller.t) (time_slots : list TimeSlot.t) :
  StronglySorted meeting_ranks_before (create_schedule matches buyers sellers time_slots).
Proof.
  rewrite create_schedule_greedy_fst. apply greedy_first_fit_ranked.
  - apply sorted_matches_ranked.
  - constructor.
  - by intros mt m ?%elem_of_nil.
Qed.

(** * Further properties of the statistics *)

Lemma bump_fold_lookup {A} (key : A → string) (l : list A) (d : gmap string Z) (k : string) :
  foldl (λ d x, bump d (key x)) d l !! k
  = if decide (length (filter (λ x, key x = k) l) = 0%nat) then d !! k
    else Some (default 0 (d !! k) + Z.of_nat (length (filter (λ x, key x = k) l)))%Z.
Proof.
  revert d. induction l as [|x l IH]; intros d; simpl; [done|].
  rewrite IH, filter_cons. unfold bump.
  destruct (decide (key x = k)) as [<-|Hne].
  - rewrite lookup_insert_eq. simpl.
    destruct (decide (length (filter (λ y, key y = key x) l) = 0%nat)) as [Hc|Hc].
    + by rewrite Hc.
    + f_equal; lia.
  - rewrite lookup_insert_ne by done.
    by destruct (decide (length (filter (λ y, key y = k) l) = 0%nat)).
Qed.

Lemma filter_length_ext {A} (P Q : A → Prop)
    `{!∀ x, Decision (P x), !∀ x, Decision (Q x)} (l : list A) :
  (∀ x, P x ↔ Q x) → length (filter P l) = length (filter Q l).
Proof.
  intros Hpq. induction l as [|x l IH]; [done|].
  rewrite !filter_cons. destruct (decide (P x)) as [Hp|Hp]; destruct (decide (Q x)) as [Hq|Hq];
    simpl; try lia.
  - by apply Hpq in Hp.
  - by apply Hpq in Hq.
Qed.

Lemma match_type_str_inj t1 t2 : match_type_str t1 = match_type_str t2 → t1 = t2.
Proof. by destruct t1, t2. Qed.

Lemma string_app_inj (s a b : string) : s +:+ a = s +:+ b → a = b.
Proof. induction s as [|c s IH]; simpl; [done|]. intros [= H]. by apply IH. Qed.

Lemma count_type_total ms :
  (count_type double_match ms + count_type seller_choice ms + count_type ai_suggestion ms
   = length ms)%nat.
Proof.
  unfold count_type. induction ms as [|m ms IH]; [done|].
  rewrite !filter_cons. simpl.
  destruct (Match.match_type m);
    repeat (destruct (decide _) as [?|?]; try done); simpl; lia.
Qed.

(** X13. For a non-empty match list, [match_type_distribution] maps each
    match type to its number of matches and [priority_distribution] maps
    ['Priority p'] to the number of matches of priority [p]; a type or a
    priority without match has no entry; the three type counts add up to
    [total_matches]. *)
Theorem distributions_count (matches : list Match.t) (meetings : list Meeting.t) :
  matches ≠ [] →
  ∃ stats,
    get_matching_statistics matches meetings = StatsOk stats
    ∧ (∀ t, Stats.match_type_distribution stats !! match_type_str t
            = counted (count_type t matches))
    ∧ (∀ p, Stats.priority_distribution stats !! ("Priority " +:+ pretty p)
            = counted (count_priority p matches))
    ∧ Stats.total_matches stats
      = Z.of_nat (count_type double_match matches + count_type seller_choice matches
                  + count_type ai_suggestion matches).
Proof.
  intros Hne. destruct matches as [|m0 ms]; [done|].
  eexists. split; [reflexivity|].
  cbn [Stats.match_type_distribution Stats.priority_distribution Stats.total_matches].
  split; [|split].
  - intros t. rewrite bump_fold_lookup, lookup_empty. unfold counted, count_type.
    rewrite (filter_length_ext _ (λ m, Match.match_type m = t)).
    + destruct (decide _); [done|]. simpl. f_equal; lia.
    + intros m. split; [apply match_type_str_inj|by intros ->].
  - intros p. rewrite bump_fold_lookup, lookup_empty. unfold counted, count_priority.
    rewrite (filter_length_ext _ (λ m, Match.priority m = p)).
    + destruct (decide _); [done|]. simpl. f_equal; lia.
    + intros m. split; [|by intros ->].
      intros H%string_app_inj. by apply (inj pretty) in H.
  - by rewrite count_type_total.
Qed.

Lemma distributions_count_witness :
  three_matches ≠ []
  ∧ ∃ stats,
      get_matching_statistics three_matches one_meeting = StatsOk stats
      ∧ Stats.match_type_distribution stats !! "double_match" = Some 1%Z
      ∧ Stats.priority_distribution stats !! "Priority 3" = Some 1%Z
      ∧ Stats.priority_distribution stats !! "Priority 4" = None.
Proof.
  assert (Hne : three_matches ≠ []) by discriminate.
  split; [exact Hne|].
  destruct (distributions_count three_matches one_meeting Hne)
    as (stats & Hs & Hty & Hpr & _).
  exists stats. split; [exact Hs|].
  split; [exact (Hty double_match)|].
  split; [exact (Hpr 3%Z)|exact (Hpr 4%Z)].
Defined.

(** Rounding to two decimals does not cross a bound that has two
    decimals. *)
Lemma round2_ge (a : Z) (x : Q) : (a # 100 <= x)%Q → (a # 100 <= round2 x)%Q.
Proof.
  intros Hle. pose proof (round_half_even_bounds (x * 100)) as [Hlo _].
  unfold round2. set (r := round_half_even (x * 100)) in *. clearbody r.
  destruct x as [n d]. unfold Qle in *. simpl in *.
  assert (Hd : (0 < Z.pos d)%Z) by lia.
  replace (Z.pos (d * 1)) with (Z.pos d) in Hlo by lia.
  nia.
Qed.

Lemma round2_le (b : Z) (x : Q) : (x <= b # 100)%Q → (round2 x <= b # 100)%Q.
Proof.
  intros Hle. pose proof (round_half_even_bounds (x * 100)) as [_ Hhi].
  unfold round2. set (r := round_half_even (x * 100)) in *. clearbody r.
  destruct x as [n d]. unfold Qle in *. simpl in *.
  assert (Hd : (0 < Z.pos d)%Z) by lia.
  replace (Z.pos (d * 1)) with (Z.pos d) in Hhi by lia.
  nia.
Qed.

Lemma inject_nat_succ (n : nat) :
  (inject_Z (Z.of_nat (S n)) == inject_Z (Z.of_nat n) + 1)%Q.
Proof. rewrite Nat2Z.inj_succ. unfold Z.succ. by rewrite inject_Z_plus. Qed.

Lemma sum_scores_bounds (lo hi acc : Q) (qs : list Q) :
  Forall (λ q, (lo <= q <= hi)%Q) qs →
  (acc + inject_Z (Z.of_nat (length qs)) * lo <= foldl Qplus acc qs
   <= acc + inject_Z (Z.of_nat (length qs)) * hi)%Q.
Proof.
  intros Hall. revert acc. induction Hall as [|q qs [Hlo Hhi] Hall IH]; intros acc.
  - cbn [foldl length]. change (inject_Z (Z.of_nat 0)) with 0%Q. split; lra.
  - cbn [foldl length]. specialize (IH (acc + q)%Q). rewrite inject_nat_succ.
    set (n := inject_Z (Z.of_nat (length qs))) in *. clearbody n.
    split; lra.
Qed.

(** X14. For a non-empty match list whose scores all lie between two
    bounds with two decimals, the reported [average_compatibility] lies
    between the same bounds. *)
Theorem average_within_bounds (matches : list Match.t) (meetings : list Meeting.t)
    (a b : Z) :
  matches ≠ [] →
  Forall (λ m, (a # 100 <= Match.compatibility_score m <= b # 100)%Q) matches →
  ∃ stats,
    get_matching_statistics matches meetings = StatsOk stats
    ∧ (a # 100 <= Stats.average_compatibility stats <= b # 100)%Q.
Proof.
  intros Hne Hall. destruct matches as [|m0 ms]; [done|].
  eexists. split; [reflexivity|]. cbn [Stats.average_compatibility].
  set (qs := Match.compatibility_score <$> m0 :: ms).
  assert (Hqs : Forall (λ q, (a # 100 <= q <= b # 100)%Q) qs).
  { unfold qs. by apply Forall_fmap. }
  pose proof (sum_scores_bounds (a # 100) (b # 100) 0 qs Hqs) as [Hlo Hhi].
  assert (Hpos : (0 < inject_Z (Z.of_nat (length qs)))%Q).
  { change 0%Q with (inject_Z 0). rewrite <- Zlt_Qlt. unfold qs. simpl. lia. }
  split.
  - apply round2_ge. apply Qle_shift_div_l; [done|]. lra.
  - apply round2_le. apply Qle_shift_div_r; [done|]. lra.
Qed.

Lemma average_within_bounds_witness :
  three_matches ≠ []
  ∧ ∃ stats,
      get_matching_statistics three_matches one_meeting = StatsOk stats
      ∧ (4550 # 100 <= Stats.average_compatibility stats <= 7250 # 100)%Q.
Proof.
  assert (Hne : three_matches ≠ []) by discriminate.
  split; [exact Hne|].
  apply (average_within_bounds three_matches one_meeting 4550 7250 Hne).
  repeat constructor; vm_compute; congruence.
Defined.

(** X15. Statistics taken over a non-empty match list and the schedule
    made of it: the scheduled count is at most the total, the unscheduled
    count is not negative and the efficiency lies between 0 and 100. *)
Theorem schedule_statistics_range (matches : list Match.t) (buyers : list Buyer.t)
    (sellers : list Seller.t) (time_slots : list TimeSlot.t) :
  matches ≠ [] →
  ∃ stats,
    get_matching_statistics matches (create_schedule matches buyers sellers time_slots)
    = StatsOk stats
    ∧ (0 <= Stats.scheduled_meetings stats <= Stats.total_matches stats)%Z
    ∧ (0 <= Stats.unscheduled_matches stats)%Z
    ∧ (0 <= Stats.scheduling_efficiency stats <= 100)%Q.
Proof.
  intros Hne.
  assert (Hlen : (length (create_schedule matches buyers sellers time_slots)
                  ≤ length matches)%nat).
  { rewrite create_schedule_greedy_fst.
    destruct (greedy_first_fit_length time_slots (stable_sort match_le matches) [])
      as [Hle _].
    simpl in Hle. by rewrite (Permutation_length (stable_sort_perm match_le matches)) in Hle. }
  set (meetings := create_schedule matches buyers sellers time_slots) in *.
  destruct matches as [|m0 ms]; [done|].
  eexists. split; [reflexivity|].
  cbn [Stats.total_matches Stats.scheduled_meetings Stats.unscheduled_matches
       Stats.scheduling_efficiency].
  assert (Hpos : (0 <? Z.of_nat (length (m0 :: ms)))%Z = true).
  { apply Z.ltb_lt. simpl. lia. }
  rewrite Hpos. split; [lia|]. split; [lia|].
  assert (Hn : (0 < inject_Z (Z.of_nat (length (m0 :: ms))))%Q).
  { change 0%Q with (inject_Z 0). rewrite <- Zlt_Qlt. simpl. lia. }
  assert (Hratio : (0 <= inject_Z (Z.of_nat (length meetings))
                         / inject_Z (Z.of_nat (length (m0 :: ms))) <= 1)%Q).
  { apply inject_nat_ratio_range; [done|simpl; lia]. }
  set (x := (inject_Z (Z.of_nat (length meetings))
             / inject_Z (Z.of_nat (length (m0 :: ms))) * 100)%Q) in *.
  pose proof (round2_ge 0 x) as Hge. pose proof (round2_le 10000 x) as Hle.
  split.
  - eapply Qle_trans; [|apply Hge; unfold x; lra]. done.
  - eapply Qle_trans; [apply Hle; unfold x; lra|]. done.
Qed.

Lemma schedule_statistics_range_witness :
  three_matches ≠ []
  ∧ ∃ stats,
      get_matching_statistics three_matches
        (create_schedule three_matches [] [] [slot_001]) = StatsOk stats
      ∧ (0 <= Stats.scheduling_efficiency stats <= 100)%Q.
Proof.
  assert (Hne : three_matches ≠ []) by discriminate.
  split; [exact Hne|].
  destruct (schedule_statistics_range three_matches [] [] [slot_001] Hne)
    as (stats & Hs & _ & _ & Heff).
  exists stats. split; [exact Hs|exact Heff].
Defined.

Lemma generate_known iter_set self buyers sellers :
  sellers_known sellers (generate iter_set self buyers sellers).
Proof.
  unfold generate, process_ai_suggestions.
  apply (foldl_preserves _ (sellers_known sellers)).
  - intros st buyer _. apply ai_step_known.
  - apply process_seller_choices_known, process_double_matches_known.
    by intros m ?%elem_of_nil.
Qed.

(** X16. Statistics taken over the list returned by [find_matches], for
    unique identifiers: every buyer of the input is counted in
    [unique_buyers_matched], which is the number of buyers, and
    [unique_sellers_matched] is at most the number of sellers. *)
Theorem generated_statistics_cover_buyers (iter_set : list string → list string)
    (self : NEXOEventMatcher) (buyers : list Buyer.t) (sellers : list Seller.t)
    (ms : list Match.t) (meetings : list Meeting.t) :
  NoDup (Buyer.id <$> buyers) →
  NoDup (Seller.id <$> sellers) →
  find_matches iter_set self buyers sellers = Ok ms →
  ∃ stats,
    get_matching_statistics ms meetings = StatsOk stats
    ∧ Stats.unique_buyers_matched stats = length buyers
    ∧ (Stats.unique_sellers_matched stats ≤ length sellers)%nat.
Proof.
  intros Hndb Hnds Hok. pose proof Hok as [-> Hne]%find_matches_Ok.
  assert (Hs : sellers ≠ []).
  { intros ->. apply Hne. apply generate_no_seller. }
  destruct (generate_inv iter_set self buyers sellers Hndb Hnds) as (_ & _ & _ & Hb).
  pose proof (generate_known iter_set self buyers sellers) as Hk.
  unfold sellers_known in Hk.
  pose proof (λ buyer, quota_outcome iter_set self buyers sellers buyer Hndb Hnds) as Hq.
  destruct (all_matches (generate iter_set self buyers sellers)) as [|m0 rest]; [done|].
  eexists. split; [reflexivity|].
  cbn [Stats.unique_buyers_matched Stats.unique_sellers_matched]. split.
  - rewrite <- (length_fmap Buyer.id buyers), <- (size_list_to_set (C := gset string))
      by done.
    f_equal. apply set_eq. intros k. rewrite !elem_of_list_to_set. split.
    + intros (m & -> & Hm)%list_elem_of_fmap. by apply Hb.
    + intros (buyer & -> & Hin)%list_elem_of_fmap.
      assert (Hpos : (0 < matches_of_buyer (Buyer.id buyer) (m0 :: rest))%nat).
      { rewrite (Hq buyer Hin). destruct sellers; [done|]. simpl. lia. }
      unfold matches_of_buyer in Hpos.
      destruct (filter _ (m0 :: rest)) as [|m l] eqn:Hf; [simpl in Hpos; lia|].
      assert (Hm : m ∈ filter (λ m, Match.buyer_id m = Buyer.id buyer) (m0 :: rest))
        by (rewrite Hf; by left).
      apply list_elem_of_filter in Hm as [Hid Hm].
      apply list_elem_of_fmap. by exists m.
  - rewrite <- (length_fmap Seller.id sellers), <- (size_list_to_set (C := gset string))
      by done.
    apply subseteq_size. intros k. rewrite !elem_of_list_to_set.
    intros (m & -> & Hm)%list_elem_of_fmap. by apply Hk.
Qed.

Lemma generated_statistics_cover_buyers_witness :
  ∃ ms stats,
    find_matches remove_dups init two_buyers seven_sellers = Ok ms
    ∧ get_matching_statistics ms [] = StatsOk stats
    ∧ Stats.unique_buyers_matched stats = 2%nat.
Proof.
  assert (Hb : NoDup (Buyer.id <$> two_buyers))
    by (apply (bool_decide_unpack (NoDup (Buyer.id <$> two_buyers))); vm_compute; exact I).
  assert (Hs : NoDup (Seller.id <$> seven_sellers))
    by (apply (bool_decide_unpack (NoDup (Seller.id <$> seven_sellers)));
        vm_compute; exact I).
  assert (Hok : ∃ ms, find_matches remove_dups init two_buyers seven_sellers = Ok ms)
    by (eexists; vm_compute; reflexivity).
  destruct Hok as [ms Hok].
  destruct (generated_statistics_cover_buyers remove_dups init two_buyers
              seven_sellers ms [] Hb Hs Hok) as (stats & Hst & Hn & _).
  exists ms, stats. split; [exact Hok|]. split; [exact Hst|exact Hn].
Defined.

(** * Further properties of the scorer *)

(** X17. Under the default weights the cap of [min(score * 100, 100)]
    never applies: the score is the weighted sum times 100 and stays
    strictly below 100, so no pair is ever rated 100. *)
Theorem default_score_uncapped (buyer : Buyer.t) (seller : Seller.t) :
  (calculate_compatibility_score init buyer seller
   == weighted_sum (compatibility_weights init) buyer seller * 100)%Q
  ∧ (calculate_compatibility_score init buyer seller < 100)%Q.
Proof.
  pose proof (weighted_sum_default_range buyer seller) as [_ Hhi].
  assert (Hmin : (calculate_compatibility_score init buyer seller
                  == weighted_sum (compatibility_weights init) buyer seller * 100)%Q).
  { unfold calculate_compatibility_score. apply Q.min_l. lra. }
  split; [exact Hmin|]. rewrite Hmin. lra.
Qed.

(** The largest score under the default weights, all four sub-scores
    being 1, in binary64. *)
Example ceiling_in_binary64 :
  (weighted_percent_binary64 1 1 1 1 <? 100)%float = true.
Proof. vm_compute. reflexivity. Qed.




Lemma total_weight_scaled c w : (total_weight (scaled c w) == c * total_weight w)%Q.
Proof. unfold total_weight, scaled; simpl. ring. Qed.

Lemma weighted_sum_scaled c w buyer seller :
  (weighted_sum (scaled c w) buyer seller == c * weighted_sum w buyer seller)%Q.
Proof. unfold weighted_sum, scaled; simpl. ring. Qed.

(** X19. Only the proportions of the sliders count (in exact
    arithmetic): when their total is positive, multiplying every slider
    by the same positive factor leaves every score of the configured
    matcher unchanged. *)
Theorem slider_proportions_only (c : Q) (w : Weights.t) (buyer : Buyer.t) (seller : Seller.t) :
  (0 < c)%Q → (0 < total_weight w)%Q →
  (calculate_compatibility_score (configure_matcher (scaled c w)) buyer seller
   == calculate_compatibility_score (configure_matcher w) buyer seller)%Q.
Proof.
  intros Hc Hpos.
  assert (Hpos' : (0 < total_weight (scaled c w))%Q).
  { rewrite total_weight_scaled. nra. }
  unfold configure_matcher.
  destruct (Qlt_le_dec 0 (total_weight w)); [|lra].
  destruct (Qlt_le_dec 0 (total_weight (scaled c w))); [|lra].
  unfold calculate_compatibility_score. cbn [compatibility_weights].
  apply Q.min_compat; [|reflexivity].
  rewrite !weighted_sum_normalized by lra.
  rewrite weighted_sum_scaled, total_weight_scaled. field. split; lra.
Qed.

Lemma slider_proportions_only_witness :
  (calculate_compatibility_score
     (configure_matcher (scaled 2 (compatibility_weights init)))
     buyer_001 seller_a
   == calculate_compatibility_score (configure_matcher (compatibility_weights init))
        buyer_001 seller_a)%Q.
Proof.
  apply (slider_proportions_only 2 (compatibility_weights init) buyer_001 seller_a);
    reflexivity.
Defined.

Lemma investment_score_mono (b1 b2 : Buyer.t) :
  (default 0 (Buyer.investment_amount b1) ≤ default 0 (Buyer.investment_amount b2))%Z →
  (investment_score b1 <= investment_score b2)%Q.
Proof.
  intros Hle. unfold investment_score.
  repeat case_match; try (compute; congruence); lia.
Qed.

Lemma size_score_mono (b1 b2 : Buyer.t) :
  (default 1 (Buyer.locations b1) ≤ default 1 (Buyer.locations b2))%Z →
  (size_score b1 <= size_score b2)%Q.
Proof.
  intros Hle. unfold size_score.
  repeat case_match; try (compute; congruence); lia.
Qed.

(** X20. With weights that are not negative, a buyer with at least the
    investment and at least the locations of another, and the same
    interests and facility type, never scores lower with the same seller
    (absent fields counting as investment 0 and one location). *)
Theorem score_monotone (self : NEXOEventMatcher) (buyer1 buyer2 : Buyer.t)
    (seller : Seller.t) :
  nonneg_weights (compatibility_weights self) →
  Buyer.interests buyer1 = Buyer.interests buyer2 →
  Buyer.facility_type buyer1 = Buyer.facility_type buyer2 →
  (default 0 (Buyer.investment_amount buyer1)
   ≤ default 0 (Buyer.investment_amount buyer2))%Z →
  (default 1 (Buyer.locations buyer1) ≤ default 1 (Buyer.locations buyer2))%Z →
  (calculate_compatibility_score self buyer1 seller
   <= calculate_compatibility_score self buyer2 seller)%Q.
Proof.
  intros (H1 & H2 & H3 & H4 & H5) Hi Hf Hv Hz.
  pose proof (investment_score_mono _ _ Hv) as Hinv.
  pose proof (size_score_mono _ _ Hz) as Hsize.
  unfold calculate_compatibility_score. apply Q.min_le_compat_r.
  unfold weighted_sum, interest_score, facility_score. rewrite Hi, Hf.
  generalize dependent (investment_score buyer1).
  generalize dependent (investment_score buyer2).
  generalize dependent (size_score buyer1).
  generalize dependent (size_score buyer2).
  intros z2 z1 Hsize v2 v1 Hinv.
  apply Qmult_le_compat_r; [|discriminate].
  repeat apply Qplus_le_compat; try apply Qle_refl.
  - apply Qmult_le_compat_r; assumption.
  - apply Qmult_le_compat_r; assumption.
Qed.

Lemma score_monotone_witness :
  (calculate_compatibility_score init buyer_001_starting seller_a
   <= calculate_compatibility_score init buyer_001 seller_a)%Q.
Proof.
  apply (score_monotone init buyer_001_starting buyer_001 seller_a).
  - unfold nonneg_weights; simpl. repeat split; discriminate.
  - reflexivity.
  - reflexivity.
  - vm_compute. discriminate.
  - vm_compute. discriminate.
Defined.

(** * Further properties: the CSV export *)

Lemma split_on_free c s : has_char c s = false → split_on c s = [s].
Proof.
  induction s as [|a s IH]; [done|]. simpl. intros [Ha Hs]%orb_false_elim.
  rewrite Ha, (IH Hs). done.
Qed.

Lemma split_on_app c s r :
  has_char c s = false →
  split_on c (s +:+ String c r) = s :: split_on c r.
Proof.
  induction s as [|a s IH]; simpl.
  - intros _. by rewrite Ascii.eqb_refl.
  - intros [Ha Hs]%orb_false_elim. rewrite Ha, (IH Hs). done.
Qed.

Lemma split_on_concat c (l : list string) :
  l ≠ [] → Forall (λ s, has_char c s = false) l →
  split_on c (String.concat (String c "") l) = l.
Proof.
  induction l as [|x l IH]; [done|]. intros _ Hall.
  apply Forall_cons in Hall as [Hx Hl].
  destruct l as [|y l].
  - simpl. by apply split_on_free.
  - change (String.concat (String c "") (x :: y :: l))
      with (x +:+ String c (String.concat (String c "") (y :: l))).
    rewrite split_on_app by done. f_equal. by apply IH.
Qed.

Lemma has_char_app c s r : has_char c (s +:+ r) = has_char c s || has_char c r.
Proof. induction s as [|a s IH]; [done|]. simpl. by rewrite IH, orb_assoc. Qed.

Lemma has_char_concat c sep (l : list string) :
  has_char c sep = false → Forall (λ s, has_char c s = false) l →
  has_char c (String.concat sep l) = false.
Proof.
  intros Hsep. induction l as [|x l IH]; [done|]. intros [Hx Hl]%Forall_cons.
  destruct l as [|y l]; [done|].
  change (String.concat sep (x :: y :: l)) with (x +:+ sep +:+ String.concat sep (y :: l)).
  rewrite !has_char_app, Hx, Hsep. by apply IH.
Qed.

Lemma has_char_pretty_N_go c x s :
  (∀ d, pretty_N_char d ≠ c) → has_char c (pretty_N_go x s) = has_char c s.
Proof.
  intros Hc. revert s. induction (N.lt_wf_0 x) as [x _ IH]; intros s.
  assert (x = 0 ∨ 0 < x)%N as [->|Hpos] by lia.
  - by rewrite pretty_N_go_0.
  - rewrite pretty_N_go_step by done. rewrite IH by (by apply N.div_lt).
    simpl. destruct (Ascii.eqb_spec (pretty_N_char (x `mod` 10)) c) as [Heq|]; [|done].
    by destruct (Hc _ Heq).
Qed.

Lemma has_char_pretty_Z c (z : Z) :
  (∀ d, pretty_N_char d ≠ c) → c ≠ "-"%char → has_char c (pretty z) = false.
Proof.
  intros Hc Hdash.
  assert (HN : ∀ n : N, has_char c (pretty n) = false).
  { intros n. unfold pretty, pretty_N. case_decide.
    - change (has_char c "0") with (Ascii.eqb "0" c || false).
      destruct (Ascii.eqb_spec "0" c) as [Heq|]; [|done].
      by destruct (Hc 0%N).
    - by rewrite has_char_pretty_N_go. }
  destruct z as [|p|p]; unfold pretty, pretty_Z.
  - apply (HN 0%N).
  - apply (HN (Npos p)).
  - change (has_char c ("-" +:+ pretty p))
      with (Ascii.eqb "-" c || has_char c (pretty (Npos p))).
    destruct (Ascii.eqb_spec "-" c) as [Heq|]; [by destruct Hdash|].
    apply (HN (Npos p)).
Qed.

Lemma pretty_Z_plain (z : Z) : plain (pretty z).
Proof.
  split; apply has_char_pretty_Z; try discriminate;
    intros d; unfold pretty_N_char; repeat case_match; discriminate.
Qed.

Lemma match_type_title_plain t :
  plain (title (replace_char "_" " " (match_type_str t))).
Proof. destruct t; split; reflexivity. Qed.

Lemma foldl_snoc_fmap {A B} (f : A → B) (l : list A) (acc : list B) :
  foldl (λ acc x, acc ++ [f x]) acc l = acc ++ (f <$> l).
Proof.
  revert acc. induction l as [|x l IH]; intros acc; simpl.
  - by rewrite app_nil_r.
  - by rewrite IH, <- app_assoc.
Qed.

Lemma export_schedule_csv_rows render_score meetings buyers sellers :
  meetings ≠ [] →
  export_schedule_csv render_score meetings buyers sellers
  = String.concat newline
      (csv_header
       :: ((λ meeting, String.concat ","
              (csv_row render_score (buyer_dict buyers) (seller_dict sellers) meeting))
           <$> meetings)).
Proof.
  intros Hne. unfold export_schedule_csv. destruct meetings as [|mt rest]; [done|].
  by rewrite foldl_snoc_fmap.
Qed.

(** The dictionary a comprehension builds from a list: an identifier
    maps to the last entry of the list that carries it. *)
Lemma dict_lookup_last {A} (key : A → string) (l : list A) (k : string) :
  foldl (λ d x, <[key x := x]> d) (∅ : gmap string A) l !! k
  = last (filter (λ x, key x = k) l).
Proof.
  induction l as [|x l IH] using rev_ind; [done|].
  rewrite foldl_app, filter_app. simpl.
  destruct (decide (key x = k)) as [Hk|Hk].
  - rewrite Hk, lookup_insert_eq. rewrite filter_cons_True by done.
    rewrite filter_nil. by rewrite last_snoc.
  - rewrite lookup_insert_ne by done. rewrite filter_cons_False by done.
    rewrite filter_nil, app_nil_r. exact IH.
Qed.

Lemma last_filter_elem {A} (P : A → Prop) `{∀ x, Decision (P x)} (l : list A) (x : A) :
  last (filter P l) = Some x → x ∈ l ∧ P x.
Proof.
  intros Hl%last_Some_elem_of. apply list_elem_of_filter in Hl as [HP Hin]. done.
Qed.

Lemma last_filter_none {A} (P : A → Prop) `{∀ x, Decision (P x)} (l : list A) :
  last (filter P l) = None ↔ ∀ x, x ∈ l → ¬ P x.
Proof.
  rewrite last_None. split.
  - intros Hnil x Hin HP.
    assert (Hx : x ∈ filter P l) by (by apply list_elem_of_filter).
    rewrite Hnil in Hx. by apply elem_of_nil in Hx.
  - intros Hall. destruct (filter P l) as [|x l'] eqn:Hf; [done|].
    assert (Hx : x ∈ filter P l) by (rewrite Hf; by left).
    apply list_elem_of_filter in Hx as [HP Hin]. by destruct (Hall x Hin).
Qed.

(** X21. Reading the export back: when there is at least one meeting and
    no date, time, name, company or rendered score holds a comma or a
    line break, splitting the text at line breaks and each line at commas
    gives the nine header names followed by the nine fields of every
    meeting, in order. *)
Theorem export_parses_back (render_score : Q → string) (meetings : list Meeting.t)
    (buyers : list Buyer.t) (sellers : list Seller.t) :
  meetings ≠ [] →
  (∀ x, plain (render_score x)) →
  Forall (λ mt, plain (Meeting.date mt) ∧ plain (Meeting.time mt)) meetings →
  Forall (λ b, plain (Buyer.name b) ∧ plain (default "" (Buyer.company b))) buyers →
  Forall (λ s, plain (Seller.name s) ∧ plain (default "" (Seller.company s))) sellers →
  split_on "," <$> split_on "010" (export_schedule_csv render_score meetings buyers sellers)
  = split_on "," csv_header
    :: (csv_row render_score (buyer_dict buyers) (seller_dict sellers) <$> meetings).
Proof.
  intros Hne Hscore Hmt Hb Hs.
  assert (Hrow : ∀ mt, mt ∈ meetings →
            Forall plain (csv_row render_score (buyer_dict buyers) (seller_dict sellers) mt)).
  { intros mt Hin. rewrite Forall_forall in Hmt. destruct (Hmt mt Hin) as [Hd Ht].
    assert (Hbn : plain (from_option Buyer.name "Unknown"
                           (buyer_dict buyers !! Meeting.buyer_id mt))
                  ∧ plain (default "Unknown"
                             (buyer_dict buyers !! Meeting.buyer_id mt ≫= Buyer.company))).
    { unfold buyer_dict. rewrite dict_lookup_last.
      destruct (last _) as [b|] eqn:Hl; [|by split].
      apply last_filter_elem in Hl as [Hin' _].
      rewrite Forall_forall in Hb. destruct (Hb b Hin') as [Hn Hc]. simpl.
      split; [done|]. by destruct (Buyer.company b). }
    assert (Hsn : plain (from_option Seller.name "Unknown"
                           (seller_dict sellers !! Meeting.seller_id mt))
                  ∧ plain (default "Unknown"
                             (seller_dict sellers !! Meeting.seller_id mt ≫= Seller.company))).
    { unfold seller_dict. rewrite dict_lookup_last.
      destruct (last _) as [s|] eqn:Hl; [|by split].
      apply last_filter_elem in Hl as [Hin' _].
      rewrite Forall_forall in Hs. destruct (Hs s Hin') as [Hn Hc]. simpl.
      split; [done|]. by destruct (Seller.company s). }
    destruct Hbn as [Hb1 Hb2], Hsn as [Hs1 Hs2]. unfold csv_row.
    repeat (apply Forall_cons; split; [done || apply match_type_title_plain
                                       || apply pretty_Z_plain || apply Hscore|]).
    constructor. }
  rewrite export_schedule_csv_rows by done. unfold newline.
  rewrite split_on_concat; [| done |].
  - rewrite fmap_cons. f_equal. rewrite <- list_fmap_compose.
    apply Forall_fmap_ext_1, Forall_forall. intros mt Hin. unfold compose.
    apply (split_on_concat ","); [done|].
    eapply Forall_impl; [apply (Hrow mt Hin)|]. by intros s [Hc _].
  - apply Forall_cons. split; [reflexivity|].
    apply Forall_fmap, Forall_forall. intros mt Hin. unfold compose.
    apply has_char_concat; [reflexivity|].
    eapply Forall_impl; [apply (Hrow mt Hin)|]. by intros s [_ Hn].
Qed.

Lemma export_parses_back_witness :
  split_on "," <$> split_on "010"
    (export_schedule_csv (λ _, "72.5") one_meeting [buyer_001] [seller_a])
  = split_on "," csv_header
    :: (csv_row (λ _, "72.5") (buyer_dict [buyer_001]) (seller_dict [seller_a])
        <$> one_meeting).
Proof.
  apply (export_parses_back (λ _, "72.5") one_meeting [buyer_001] [seller_a]).
  - discriminate.
  - intros _. split; reflexivity.
  - repeat constructor.
  - repeat constructor.
  - repeat constructor.
Defined.

(** A company name with a comma gives its row a tenth field: nothing is
    quoted. *)
Example comma_splits_a_field :
  length <$> (split_on "," <$> split_on "010"
                (export_schedule_csv (λ _, "72.5") one_meeting [buyer_001]
                   [comma_with_company]))
  = [9%nat; 10%nat].
Proof. vm_compute. reflexivity. Qed.

(** X22. The buyer columns of a row come from the last buyer of
    [buyers] that carries the meeting's buyer identifier (an absent
    [company] reads ['Unknown']), and both read ['Unknown'] when no buyer
    carries it; the seller columns likewise. *)
Theorem export_row_lookup (render_score : Q → string) (buyers : list Buyer.t)
    (sellers : list Seller.t) (meeting : Meeting.t) :
  let row := csv_row render_score (buyer_dict buyers) (seller_dict sellers) meeting in
  let buyer := last (filter (λ b, Buyer.id b = Meeting.buyer_id meeting) buyers) in
  let seller := last (filter (λ s, Seller.id s = Meeting.seller_id meeting) sellers) in
  row !! 2%nat = Some (from_option Buyer.name "Unknown" buyer)
  ∧ row !! 3%nat = Some (default "Unknown" (buyer ≫= Buyer.company))
  ∧ row !! 4%nat = Some (from_option Seller.name "Unknown" seller)
  ∧ row !! 5%nat = Some (default "Unknown" (seller ≫= Seller.company))
  ∧ (Meeting.buyer_id meeting ∉ Buyer.id <$> buyers →
     row !! 2%nat = Some "Unknown" ∧ row !! 3%nat = Some "Unknown")
  ∧ (Meeting.seller_id meeting ∉ Seller.id <$> sellers →
     row !! 4%nat = Some "Unknown" ∧ row !! 5%nat = Some "Unknown").
Proof.
  intros row buyer seller. unfold row, csv_row, buyer_dict, seller_dict.
  rewrite !dict_lookup_last. fold buyer seller. cbn [lookup list_lookup].
  do 4 (split; [reflexivity|]).
  split; intros Hno.
  - assert (Hb : buyer = None).
    { apply last_filter_none. intros b Hin Hid. apply Hno.
      apply list_elem_of_fmap. by exists b. }
    by rewrite Hb.
  - assert (Hs : seller = None).
    { apply last_filter_none. intros s Hin Hid. apply Hno.
      apply list_elem_of_fmap. by exists s. }
    by rewrite Hs.
Qed.

Lemma export_row_lookup_witness :
  csv_row (λ _, "72.5") (buyer_dict [buyer_001]) (seller_dict [seller_a])
    (meeting_of (fresh_match "buyer_001" "seller_001" double_match 1 72.5%Q) slot_001)
    !! 4%nat = Some "Unknown".
Proof.
  refine (proj1 (proj2 (proj2 (proj2 (proj2 (proj2
    (export_row_lookup (λ _, "72.5") [buyer_001] [seller_a]
       (meeting_of (fresh_match "buyer_001" "seller_001" double_match 1 72.5%Q)
          slot_001)))))) _)).
  apply (bool_decide_unpack (_ ∉ _)). vm_compute. exact I.
Defined.

Lemma generate_buyers_known iter_set self buyers sellers :
  Forall (λ m, Match.buyer_id m ∈ Buyer.id <$> buyers)
    (all_matches (generate iter_set self buyers sellers)).
Proof.
  set (P := λ st : GenState,
              Forall (λ m, Match.buyer_id m ∈ Buyer.id <$> buyers) (all_matches st)).
  assert (Happ : ∀ st m, P st → Match.buyer_id m ∈ Buyer.id <$> buyers →
                         P (append_match st m)).
  { intros st m Hst Hm. unfold P, append_match. simpl.
    apply Forall_app. split; [exact Hst|]. by apply Forall_singleton. }
  assert (Hid : ∀ buyer, buyer ∈ buyers → Buyer.id buyer ∈ Buyer.id <$> buyers).
  { intros buyer Hin. apply list_elem_of_fmap. by exists buyer. }
  unfold generate, process_ai_suggestions, process_seller_choices, process_double_matches.
  apply (foldl_preserves _ P).
  { intros st buyer Hb Hst. unfold ai_step. case_bool_decide; [|done].
    apply (foldl_preserves _ P); [|done].
    intros st' c _ Hst'. apply Happ; [done|]. by apply Hid. }
  apply (foldl_preserves _ P).
  { intros st seller _ Hst. apply (foldl_preserves _ P); [|done].
    intros st' buyer_id _ Hst'. unfold seller_choice_step.
    destruct (List.find _ buyers) as [buyer|] eqn:Hfind; [|done].
    destruct (existsb _ _); [done|]. case_bool_decide; [|done].
    apply Happ; [done|]. simpl.
    apply find_some in Hfind as [Hin Heq]. apply bool_decide_eq_true in Heq.
    rewrite <- Heq. apply Hid. by apply list_elem_of_In. }
  apply (foldl_preserves _ P).
  { intros st buyer Hb Hst. apply (foldl_preserves _ P); [|done].
    intros st' seller _ Hst'. unfold double_match_step.
    destruct (_ && _); [|done]. apply Happ; [done|]. by apply Hid. }
  unfold P. simpl. constructor.
Qed.

Lemma create_schedule_origin matches buyers sellers time_slots :
  Forall (λ mt, ∃ m time_slot, m ∈ matches ∧ time_slot ∈ time_slots
                               ∧ mt = meeting_of m time_slot)
         (create_schedule matches buyers sellers time_slots).
Proof.
  rewrite create_schedule_greedy_fst.
  eapply Forall_impl; [apply greedy_first_fit_origin|].
  intros mt [Hin|(m & ts & Hm & Hts & ->)]; [by apply elem_of_nil in Hin|].
  exists m, ts. split; [|done]. by rewrite <- (stable_sort_perm match_le matches).
Qed.

(** X23. Exporting the schedule of generated matches with the same
    buyer and seller lists: the row of every meeting shows the name and
    company of a buyer and of a seller of the input that carry the
    meeting's identifiers; the lookup never misses. *)
Theorem exported_schedule_names_participants (render_score : Q → string)
    (iter_set : list string → list string) (self : NEXOEventMatcher)
    (buyers : list Buyer.t) (sellers : list Seller.t) (ms : list Match.t)
    (time_slots : list TimeSlot.t) (meeting : Meeting.t) :
  find_matches iter_set self buyers sellers = Ok ms →
  meeting ∈ create_schedule ms buyers sellers time_slots →
  let row := csv_row render_score (buyer_dict buyers) (seller_dict sellers) meeting in
  ∃ buyer seller,
    buyer ∈ buyers ∧ seller ∈ sellers
    ∧ Buyer.id buyer = Meeting.buyer_id meeting
    ∧ Seller.id seller = Meeting.seller_id meeting
    ∧ row !! 2%nat = Some (Buyer.name buyer)
    ∧ row !! 3%nat = Some (default "Unknown" (Buyer.company buyer))
    ∧ row !! 4%nat = Some (Seller.name seller)
    ∧ row !! 5%nat = Some (default "Unknown" (Seller.company seller)).
Proof.
  intros [-> _]%find_matches_Ok Hin row.
  pose proof (create_schedule_origin (all_matches (generate iter_set self buyers sellers))
                buyers sellers time_slots) as Horigin.
  rewrite Forall_forall in Horigin.
  destruct (Horigin meeting Hin) as (m & ts & Hm & _ & ->).
  pose proof (generate_buyers_known iter_set self buyers sellers) as Hbk.
  rewrite Forall_forall in Hbk. specialize (Hbk m Hm).
  pose proof (generate_known iter_set self buyers sellers m Hm) as Hsk.
  unfold row, csv_row, buyer_dict, seller_dict. rewrite !dict_lookup_last.
  cbn [meeting_of Meeting.buyer_id Meeting.seller_id].
  destruct (last (filter (λ b, Buyer.id b = Match.buyer_id m) buyers)) as [buyer|] eqn:Hb.
  2:{ exfalso. apply list_elem_of_fmap in Hbk as (b & Hid & Hb').
      rewrite last_filter_none in Hb. by apply (Hb b Hb'). }
  destruct (last (filter (λ s, Seller.id s = Match.seller_id m) sellers))
    as [seller|] eqn:Hs.
  2:{ exfalso. apply list_elem_of_fmap in Hsk as (s & Hid & Hs').
      rewrite last_filter_none in Hs. by apply (Hs s Hs'). }
  apply last_filter_elem in Hb as [Hb Hbid], Hs as [Hs Hsid].
  exists buyer, seller. repeat split; done.
Qed.

Lemma exported_schedule_names_participants_witness :
  ∃ ms meeting buyer,
    find_matches remove_dups init two_buyers seven_sellers = Ok ms
    ∧ meeting ∈ create_schedule ms two_buyers seven_sellers [slot_001; slot_002]
    ∧ buyer ∈ two_buyers
    ∧ csv_row (λ _, "72.5") (buyer_dict two_buyers) (seller_dict seven_sellers) meeting
        !! 2%nat = Some (Buyer.name buyer).
Proof.
  assert (Hok : ∃ ms, find_matches remove_dups init two_buyers seven_sellers = Ok ms)
    by (eexists; vm_compute; reflexivity).
  destruct Hok as [ms Hok].
  pose proof (find_matches_Ok _ _ _ _ _ Hok) as [Hms _].
  assert (Hhd : ∃ mt rest,
            create_schedule (all_matches (generate remove_dups init two_buyers seven_sellers))
              two_buyers seven_sellers [slot_001; slot_002] = mt :: rest)
    by (eexists _, _; vm_compute; reflexivity).
  destruct Hhd as (mt & rest & Hhd). rewrite <- Hms in Hhd.
  assert (Hin : mt ∈ create_schedule ms two_buyers seven_sellers [slot_001; slot_002])
    by (rewrite Hhd; apply list_elem_of_here).
  destruct (exported_schedule_names_participants (λ _, "72.5") remove_dups init
              two_buyers seven_sellers ms [slot_001; slot_002] mt Hok Hin)
    as (buyer & seller & Hb & _ & _ & _ & Hname & _).
  exists ms, mt, buyer.
  split; [exact Hok|]. split; [exact Hin|]. split; [exact Hb|exact Hname].
Defined.

(** * The scheduler and the marks on its input *)

Lemma same_request_refl m : same_request m m.
Proof. by repeat split. Qed.

Lemma same_request_mark m slot_id : same_request m (mark_scheduled m slot_id).
Proof. by repeat split. Qed.

Lemma match_le_same_request x x' y y' :
  same_request x x' → same_request y y' → match_le x y = match_le x' y'.
Proof.
  intros (_ & _ & _ & Hsx & Hpx) (_ & _ & _ & Hsy & Hpy).
  unfold match_le, sort_key. by rewrite Hsx, Hpx, Hsy, Hpy.
Qed.

Lemma insert_sorted_same_request x x' l l' :
  same_request x x' → Forall2 same_request l l' →
  Forall2 same_request (insert_sorted match_le x l) (insert_sorted match_le x' l').
Proof.
  intros Hx Hl. induction Hl as [|y y' l l' Hy Hl IH]; simpl.
  - constructor; [exact Hx|constructor].
  - rewrite (match_le_same_request x x' y y' Hx Hy).
    destruct (match_le x' y').
    + constructor; [exact Hx|]. by constructor.
    + by constructor.
Qed.

Lemma stable_sort_same_request l l' :
  Forall2 same_request l l' →
  Forall2 same_request (stable_sort match_le l) (stable_sort match_le l').
Proof.
  unfold stable_sort. induction 1 as [|x x' l l' Hx Hl IH]; simpl; [constructor|].
  by apply insert_sorted_same_request.
Qed.

Lemma greedy_first_fit_same_request time_slots ordered ordered' meetings :
  Forall2 same_request ordered ordered' →
  (greedy_first_fit time_slots meetings ordered).1
  = (greedy_first_fit time_slots meetings ordered').1.
Proof.
  intros Hl. revert meetings.
  induction Hl as [|m m' rest rest' Hm Hrest IH]; intros meetings; [done|].
  destruct Hm as (Hb & Hs & Ht & Hc & Hp). simpl.
  assert (Hfree : slot_free meetings m = slot_free meetings m').
  { unfold slot_free. by rewrite Hb, Hs. }
  rewrite Hfree. destruct (List.find _ time_slots) as [time_slot|].
  - assert (Hmt : meeting_of m time_slot = meeting_of m' time_slot).
    { unfold meeting_of. by rewrite Hb, Hs, Ht, Hc, Hp. }
    rewrite Hmt. specialize (IH (meetings ++ [meeting_of m' time_slot])).
    by do 2 destruct (greedy_first_fit _ _ _).
  - specialize (IH meetings). by do 2 destruct (greedy_first_fit _ _ _).
Qed.

Lemma greedy_first_fit_marks_same_request time_slots ordered meetings :
  Forall2 same_request ordered (greedy_first_fit time_slots meetings ordered).2.
Proof.
  revert meetings. induction ordered as [|m rest IH]; intros meetings; simpl; [constructor|].
  destruct (List.find _ time_slots) as [time_slot|].
  - specialize (IH (meetings ++ [meeting_of m time_slot])).
    destruct (greedy_first_fit _ _ rest). simpl in *.
    constructor; [apply same_request_mark|done].
  - specialize (IH meetings). destruct (greedy_first_fit _ _ rest). simpl in *.
    constructor; [apply same_request_refl|done].
Qed.

Lemma match_le_complete x y : ranks_before x y → match_le x y = true.
Proof.
  unfold match_le, key_le, sort_key, ranks_before; simpl.
  intros [Hlt|[Heq Hle]]; apply orb_true_iff.
  - left. by apply Z.ltb_lt.
  - right. apply andb_true_iff. split; [by apply Z.eqb_eq|].
    apply Qle_bool_iff. lra.
Qed.

(** Sorting a list that is already in rank order leaves it as it is. *)
Lemma stable_sort_ranked l :
  StronglySorted ranks_before l → stable_sort match_le l = l.
Proof.
  induction 1 as [|x l Hs IH Hx]; [done|].
  unfold stable_sort in *. simpl. rewrite IH.
  destruct l as [|y l]; [done|]. simpl.
  apply Forall_cons in Hx as [Hxy _]. by rewrite (match_le_complete x y Hxy).
Qed.

(** X24. The scheduler never reads [meeting_scheduled] or [time_slot]:
    two match lists that agree, entry by entry, on buyer, seller, type,
    score and priority get the same meetings.  In particular a match
    marked scheduled by an earlier run is not skipped: scheduling the
    matches a run leaves behind gives the same meetings again. *)
Theorem schedule_ignores_marks (matches matches' : list Match.t) (buyers : list Buyer.t)
    (sellers : list Seller.t) (time_slots : list TimeSlot.t) :
  Forall2 same_request matches matches' →
  create_schedule matches buyers sellers time_slots
  = create_schedule matches' buyers sellers time_slots
  ∧ create_schedule (processed (run_schedule matches' time_slots)) buyers sellers time_slots
    = create_schedule matches buyers sellers time_slots.
Proof.
  intros Hl.
  assert (Heq : create_schedule matches buyers sellers time_slots
                = create_schedule matches' buyers sellers time_slots).
  { rewrite !create_schedule_greedy_fst.
    by apply greedy_first_fit_same_request, stable_sort_same_request. }
  split; [exact Heq|]. rewrite Heq.
  rewrite !create_schedule_greedy_fst, processed_greedy_snd.
  symmetry. apply greedy_first_fit_same_request.
  rewrite <- (stable_sort_ranked (stable_sort match_le matches')) at 1
    by apply sorted_matches_ranked.
  apply stable_sort_same_request, greedy_first_fit_marks_same_request.
Qed.

Lemma schedule_ignores_marks_witness :
  create_schedule three_matches [] [] [slot_001; slot_002]
  = create_schedule ((λ m, mark_scheduled m "slot_002") <$> three_matches) [] []
      [slot_001; slot_002].
Proof.
  refine (proj1 (schedule_ignores_marks three_matches
                   ((λ m, mark_scheduled m "slot_002") <$> three_matches) [] []
                   [slot_001; slot_002] _)).
  repeat (constructor; [by repeat split|]). constructor.
Defined.

(** * The schedule table and the export *)

Lemma find_last_unique {A} (key : A → string) (l : list A) (k : string) :
  NoDup (key <$> l) →
  List.find (λ x, bool_decide (key x = k)) l = last (filter (λ x, key x = k) l).
Proof.
  induction l as [|x l IH]; [done|]. rewrite fmap_cons, NoDup_cons. intros [Hx Hnd].
  simpl. case_bool_decide as Hk.
  - rewrite filter_cons_True by done.
    assert (Hnone : filter (λ y, key y = k) l = []).
    { destruct (filter _ l) as [|y l'] eqn:Hf; [done|]. exfalso.
      assert (Hy : y ∈ filter (λ y, key y = k) l) by (rewrite Hf; by left).
      apply list_elem_of_filter in Hy as [Hyk Hy]. apply Hx.
      rewrite Hk, <- Hyk. apply list_elem_of_fmap. by exists y. }
    by rewrite Hnone.
  - rewrite filter_cons_False by done. by apply IH.
Qed.

Lemma schedule_data_rows format_percent buyers sellers meetings :
  schedule_data format_percent buyers sellers meetings
  = schedule_row format_percent buyers sellers <$> meetings.
Proof. unfold schedule_data. by rewrite foldl_snoc_fmap. Qed.

(** X25. With unique buyer and seller identifiers the schedule table of
    the dashboard and the CSV export show the same thing: for every
    meeting, date, time, the two names, the two companies, the match type
    and the priority of the table entry are the fields of the export's
    row (the score column apart, which the two format differently). *)
Theorem table_agrees_with_export (format_percent render_score : Q → string)
    (buyers : list Buyer.t) (sellers : list Seller.t) (meetings : list Meeting.t) :
  NoDup (Buyer.id <$> buyers) →
  NoDup (Seller.id <$> sellers) →
  shared_columns <$> schedule_data format_percent buyers sellers meetings
  = (λ meeting, without_score
       (csv_row render_score (buyer_dict buyers) (seller_dict sellers) meeting))
    <$> meetings.
Proof.
  intros Hb Hs. rewrite schedule_data_rows, <- list_fmap_compose.
  apply Forall_fmap_ext_1, Forall_forall. intros meeting _.
  unfold compose, shared_columns, schedule_row, csv_row, buyer_dict, seller_dict,
    without_score.
  rewrite !dict_lookup_last, !find_last_unique by done. reflexivity.
Qed.

Lemma table_agrees_with_export_witness :
  shared_columns <$> schedule_data (λ _, "72.5%") [buyer_001] [seller_a] one_meeting
  = (λ meeting, without_score
       (csv_row (λ _, "72.5") (buyer_dict [buyer_001]) (seller_dict [seller_a]) meeting))
    <$> one_meeting.
Proof.
  apply (table_agrees_with_export (λ _, "72.5%") (λ _, "72.5") [buyer_001] [seller_a]
           one_meeting).
  - apply (bool_decide_unpack (NoDup (Buyer.id <$> [buyer_001]))). vm_compute. exact I.
  - apply (bool_decide_unpack (NoDup (Seller.id <$> [seller_a]))). vm_compute. exact I.
Defined.

(** With an identifier carried twice the table shows the first entry and
    the export the last. *)
Example repeated_id_shows_two_names :
  ScheduleRow.buyer <$> schedule_data (λ _, "72.5%") [buyer_001; buyer_001_twin] [] one_meeting
  = ["Marcos Aguade"]
  ∧ (λ meeting, csv_row (λ _, "72.5") (buyer_dict [buyer_001; buyer_001_twin])
                  (seller_dict []) meeting !! 2%nat) <$> one_meeting
    = [Some "Second Entry"].
Proof. split; vm_compute; reflexivity. Qed.

(** * From generation to schedule *)

(** The buyers matched with one seller are distinct, hence no more than
    the buyers. *)
Lemma matches_of_seller_bound buyers st k :
  gen_inv buyers st →
  (matches_of_seller k (all_matches st) ≤ length buyers)%nat.
Proof.
  intros (Hnd & _ & _ & Hb). unfold matches_of_seller.
  rewrite <- (length_fmap Match.buyer_id), <- (length_fmap Buyer.id buyers).
  apply submseteq_length, NoDup_submseteq.
  - apply (NoDup_fmap_1 (λ b, (b, k))). rewrite <- list_fmap_compose.
    eapply sublist_NoDup; [exact Hnd|].
    erewrite (list_fmap_ext _ pair_of).
    + apply fmap_sublist, sublist_filter.
    + intros i m Hm. apply list_elem_of_lookup_2, list_elem_of_filter in Hm as [<- _]. done.
  - intros x (m & -> & Hm)%list_elem_of_fmap. apply Hb.
    by apply list_elem_of_filter in Hm as [_ Hm].
Qed.

Lemma round2_exact (a : Z) (x : Q) : (x == a # 100)%Q → (round2 x == a # 100)%Q.
Proof.
  intros Hx. apply Qle_antisym.
  - apply round2_le. rewrite Hx. apply Qle_refl.
  - apply round2_ge. rewrite Hx. apply Qle_refl.
Qed.

(** X26. From generation to schedule: with unique buyer, seller and slot
    identifiers, when the buyers and the sellers together are at most one
    more than the time slots, every match returned by [find_matches] gets
    a meeting, and the statistics report no unscheduled match and an
    efficiency of 100. *)
Theorem generated_matches_all_scheduled (iter_set : list string → list string)
    (self : NEXOEventMatcher) (buyers : list Buyer.t) (sellers : list Seller.t)
    (time_slots : list TimeSlot.t) (ms : list Match.t) :
  NoDup (Buyer.id <$> buyers) →
  NoDup (Seller.id <$> sellers) →
  NoDup (TimeSlot.id <$> time_slots) →
  (length buyers + length sellers ≤ length time_slots + 1)%nat →
  find_matches iter_set self buyers sellers = Ok ms →
  length (create_schedule ms buyers sellers time_slots) = length ms
  ∧ ∃ stats,
      get_matching_statistics ms (create_schedule ms buyers sellers time_slots)
      = StatsOk stats
      ∧ Stats.unscheduled_matches stats = 0%Z
      ∧ (Stats.scheduling_efficiency stats == 100)%Q.
Proof.
  intros Hndb Hnds Hndt Hroom Hok. pose proof Hok as [-> Hne]%find_matches_Ok.
  pose proof (generate_inv iter_set self buyers sellers Hndb Hnds) as Hinv.
  pose proof (generate_known iter_set self buyers sellers) as Hk.
  set (ms := all_matches (generate iter_set self buyers sellers)) in *.
  assert (Hlen : length (create_schedule ms buyers sellers time_slots) = length ms).
  { rewrite create_schedule_greedy_fst.
    pose proof (stable_sort_perm match_le ms) as Hperm.
    destruct (greedy_first_fit_all_placed time_slots (stable_sort match_le ms) [] Hndt)
      as [Hl _].
    - intros m _. unfold matches_of_buyer, matches_of_seller. rewrite !Hperm.
      pose proof (matches_of_buyer_bound buyers sellers _ (Match.buyer_id m) Hinv Hk)
        as Hbuyer.
      pose proof (matches_of_seller_bound buyers _ (Match.seller_id m) Hinv) as Hseller.
      unfold matches_of_buyer, matches_of_seller, buyer_load, seller_load in *.
      fold ms in Hbuyer, Hseller. simpl. lia.
    - rewrite Hl. simpl. by rewrite Hperm. }
  split; [exact Hlen|].
  destruct ms as [|m0 rest] eqn:Hms; [done|].
  eexists. split; [reflexivity|].
  cbn [Stats.unscheduled_matches Stats.scheduling_efficiency].
  rewrite Hlen. split; [lia|].
  assert (Hpos : (0 <? Z.of_nat (length (m0 :: rest)))%Z = true)
    by (apply Z.ltb_lt; simpl; lia).
  rewrite Hpos.
  assert (Hnz : ¬ (inject_Z (Z.of_nat (length (m0 :: rest))) == 0)%Q).
  { change 0%Q with (inject_Z 0). rewrite inject_Z_injective. simpl; lia. }
  eapply Qeq_trans; [apply (round2_exact 10000)|reflexivity].
  field. exact Hnz.
Qed.

Lemma generated_matches_all_scheduled_witness :
  ∃ ms,
    find_matches remove_dups init [keen_buyer] [keen_seller "seller_001"] = Ok ms
    ∧ length (create_schedule ms [keen_buyer] [keen_seller "seller_001"]
                [slot_001; slot_002; slot_003])
      = length ms.
Proof.
  assert (Hok : ∃ ms, find_matches remove_dups init [keen_buyer]
                        [keen_seller "seller_001"] = Ok ms)
    by (eexists; vm_compute; reflexivity).
  destruct Hok as [ms Hok]. exists ms. split; [exact Hok|].
  refine (proj1 (generated_matches_all_scheduled remove_dups init [keen_buyer]
                   [keen_seller "seller_001"] [slot_001; slot_002; slot_003] ms
                   _ _ _ _ Hok)).
  - apply (bool_decide_unpack (NoDup (Buyer.id <$> [keen_buyer]))). vm_compute. exact I.
  - apply (bool_decide_unpack (NoDup (Seller.id <$> [keen_seller "seller_001"]))). vm_compute. exact I.
  - apply (bool_decide_unpack (NoDup (TimeSlot.id <$> [slot_001; slot_002; slot_003]))).
    vm_compute. exact I.
  - simpl. lia.
Defined.
